(** * TELS: name allocation and forecast month handling

  A shallow embedding of the algorithmic core of [app/views.py],
  [app/api.py] and [app/models.py]:

  - [_normalize_space], [_unique_partname_for_customer] and
    [_ensure_customer_part_entry] (the customer parts list);
  - [_allocate_material_name] (numbered material names per TEP code),
    together with a model of the [Material] table and of the regular
    expressions the function builds with [re.escape];
  - [_month_index_from_string], [_range_totals], [_months_label_from_rows]
    and the month-range selection of the dashboard and of the API;
  - the callers of the allocator ([create_material_by_tep_code] and the
    material block of [upload_csv]), the action [add_material] on the
    master list, [build_customer_table], [customers_tree],
    [_normalize_monthly_payload], and the display properties of the
    [Forecast] model of [app/models.py].

  Text is modelled as lists of characters whose code points lie below 256;
  Python integers as [N] and [Z]; Python floats as binary64 floats. *)

From Stdlib Require Import Ascii String.
From Stdlib Require Import List Bool Arith NArith ZArith Lia.
From Stdlib Require Import Decimal DecimalString DecimalN.
From Stdlib Require Import Floats.
From Stdlib Require Import Permutation Sorted.
Import ListNotations.

Open Scope string_scope.
Open Scope list_scope.

(** ** Text *)

Definition str := list ascii.

Coercion list_ascii_of_string : string >-> list.

Module Text.

Definition code (c : ascii) : N := N_of_ascii c.

Definition between (lo hi : N) (c : ascii) : bool :=
  ((lo <=? code c) && (code c <=? hi))%N.

(** [str.isspace], which is also what [str.strip] removes and what [\s]
    matches in a text pattern: TAB..CR, FS..US, space, NEL and NBSP. *)
Definition isspace (c : ascii) : bool :=
  between 9 13 c || between 28 32 c || (code c =? 133)%N || (code c =? 160)%N.

(** Decimal digits accepted by [\d] and by [int]. *)
Definition isdigit (c : ascii) : bool := between 48 57 c.

(** ASCII letters and digits: the characters after which a backslash
    keeps a special meaning in a pattern. *)
Definition isalnum_ascii (c : ascii) : bool :=
  between 48 57 c || between 65 90 c || between 97 122 c.

Definition isupper (c : ascii) : bool :=
  between 65 90 c || (between 192 222 c && negb (code c =? 215)%N).

(** [str.lower] on one character. *)
Definition lower_char (c : ascii) : ascii :=
  if isupper c then ascii_of_N (code c + 32) else c.

Definition lower (s : str) : str := map lower_char s.

Definition eqb_char (a b : ascii) : bool := Ascii.eqb a b.

Fixpoint eqb (a b : str) : bool :=
  match a, b with
  | [], [] => true
  | x :: a', y :: b' => eqb_char x y && eqb a' b'
  | _, _ => false
  end.

(** [needle in haystack] for a set or list of strings. *)
Definition mem (x : str) (l : list str) : bool := existsb (eqb x) l.

(** [c in s] for a one-character [c]. *)
Definition contains (c : ascii) (s : str) : bool := existsb (eqb_char c) s.

Fixpoint startswith (s prefix : str) : bool :=
  match prefix, s with
  | [], _ => true
  | p :: prefix', c :: s' => eqb_char p c && startswith s' prefix'
  | _ :: _, [] => false
  end.

Fixpoint lstrip (s : str) : str :=
  match s with
  | c :: t => if isspace c then lstrip t else s
  | [] => []
  end.

Fixpoint rstrip (s : str) : str :=
  match s with
  | [] => []
  | c :: t =>
      match rstrip t with
      | [] => if isspace c then [] else [c]
      | t' => c :: t'
      end
  end.

(** [s.strip()] *)
Definition strip (s : str) : str := rstrip (lstrip s).

(** [s.split(sep)] for a one-character separator: never empty. *)
Fixpoint split (sep : ascii) (s : str) : list str :=
  match s with
  | [] => [[]]
  | c :: t =>
      if eqb_char c sep then [] :: split sep t
      else match split sep t with
           | w :: ws => (c :: w) :: ws
           | [] => [[c]]
           end
  end.

(** [re.sub(r"\s+", " ", s)]: every maximal run of white space becomes
    one space; [in_run] tells that the previous character was white
    space. *)
Fixpoint sub_spaces (in_run : bool) (s : str) : str :=
  match s with
  | [] => []
  | c :: t =>
      if isspace c
      then if in_run then sub_spaces true t else " "%char :: sub_spaces true t
      else c :: sub_spaces false t
  end.

(** [str(n)] for a non-negative integer. *)
Definition str_of_N (n : N) : str :=
  list_ascii_of_string (NilEmpty.string_of_uint (N.to_uint n)).

(** The value of a string of decimal digits. *)
Definition N_of_digits (ds : str) : option N :=
  match ds with
  | [] => None
  | _ => option_map N.of_uint (NilEmpty.uint_of_string (string_of_list_ascii ds))
  end.

(** The digits of an integer literal: single underscores are allowed
    between digits only. *)
Fixpoint literal_digits (after_digit : bool) (s : str) : option str :=
  match s with
  | [] => if after_digit then Some [] else None
  | c :: t =>
      if isdigit c then option_map (cons c) (literal_digits true t)
      else if eqb_char c "_" && after_digit then literal_digits false t
      else None
  end.

(** An optional sign, and what follows it. *)
Definition sign_and_body (t : str) : bool * str :=
  match t with
  | "-"%char :: r => (true, r)
  | "+"%char :: r => (false, r)
  | _ => (false, t)
  end.

(** [int(s)] in base ten; [None] stands for [ValueError].  The limit that
    the interpreter puts on the number of digits (4300 by default) is not
    modelled: a part name holds 160 characters at most. *)
Definition int (s : str) : option Z :=
  let '(negative, body) := sign_and_body (strip s) in
  match literal_digits false body with
  | Some ds =>
      match N_of_digits ds with
      | Some n => Some (if negative then - Z.of_N n else Z.of_N n)%Z
      | None => None
      end
  | None => None
  end.

End Text.


(** ** The customer parts list

    [Customer.parts] is a JSON list.  An element is a dict whose
    ["Partcode"] and ["Partname"] are a string, or missing or null
    ([None]), or it is some other JSON value, which the code skips. *)

Inductive part_entry : Type :=
| NotDict
| PartDict (Partcode Partname : option str).

Definition parts_list := list part_entry.

(** Python's [a or b] on strings: the empty string is false. *)
Definition str_or (a b : str) : str :=
  match a with
  | [] => b
  | _ => a
  end.

(** [re.sub(r"\s+", " ", (s or "").strip())] *)
Definition _normalize_space (s : option str) : str :=
  Text.sub_spaces false (Text.strip (match s with Some v => v | None => [] end)).

(** [isinstance(p, dict) and _normalize_space(p.get("Partcode")) == part_code] *)
Definition has_partcode (part_code : str) (p : part_entry) : bool :=
  match p with
  | PartDict c _ => Text.eqb (_normalize_space c) part_code
  | NotDict => false
  end.

(** [p.get("Partname")] *)
Definition get_Partname (p : part_entry) : option str :=
  match p with
  | PartDict _ n => n
  | NotDict => None
  end.

(** The set [existing_names]: the lower-cased, normalized, non-empty part
    names of the dict entries. *)
Fixpoint existing_names (parts : parts_list) : list str :=
  match parts with
  | [] => []
  | NotDict :: rest => existing_names rest
  | PartDict _ n :: rest =>
      match _normalize_space n with
      | [] => existing_names rest
      | n' => Text.lower n' :: existing_names rest
      end
  end.

(** [f"{base_name} {i}"] *)
Definition numbered (base_name : str) (i : N) : str :=
  base_name ++ " " ++ Text.str_of_N i.

(** The loop [while True: ... i += 1], run for at most [fuel] iterations;
    [None] when the bound is reached before a free candidate is found. *)
Fixpoint suffix_search (fuel : nat) (base_name : str) (used : list str) (i : N)
  : option str :=
  match fuel with
  | O => None
  | S fuel' =>
      let candidate := numbered base_name i in
      if negb (Text.mem (Text.lower candidate) used) then Some candidate
      else suffix_search fuel' base_name used (i + 1)
  end.

(** [_unique_partname_for_customer(customer, base_name, part_code)], where
    [parts] is [customer.parts or []].  The loop is given one iteration more
    than there are entries. *)
Definition _unique_partname_for_customer
  (parts : parts_list) (base_name part_code : str) : option str :=
  let base_name := _normalize_space (Some base_name) in
  let part_code := _normalize_space (Some part_code) in
  match find (has_partcode part_code) parts with
  | Some p => Some (str_or (_normalize_space (get_Partname p)) base_name)
  | None =>
      let used := existing_names parts in
      if negb (Text.mem (Text.lower base_name) used) then Some base_name
      else suffix_search (S (length parts)) base_name used 1
  end.

(** [_ensure_customer_part_entry(customer, part_code, part_name)]: the
    result is [(changed, used_partname)] together with the parts list that
    the customer holds afterwards. *)
Definition _ensure_customer_part_entry
  (parts : parts_list) (part_code part_name : str)
  : option (bool * str * parts_list) :=
  let part_code := _normalize_space (Some part_code) in
  let part_name := str_or (_normalize_space (Some part_name)) part_code in
  match find (has_partcode part_code) parts with
  | Some p => Some (false, str_or (_normalize_space (get_Partname p)) part_name, parts)
  | None =>
      match _unique_partname_for_customer parts part_name part_code with
      | Some unique_name =>
          Some (true, unique_name,
                parts ++ [PartDict (Some part_code) (Some unique_name)])
      | None => None
      end
  end.

(** [tidy s]: no white space at either end, and every white-space
    character is one space between two other characters. *)
Fixpoint tidy_tail (s : str) : bool :=
  match s with
  | [] => true
  | c :: t =>
      if Text.isspace c
      then Text.eqb_char c " " &&
           match t with
           | [] => false
           | d :: _ => negb (Text.isspace d) && tidy_tail t
           end
      else tidy_tail t
  end.

Definition tidy (s : str) : bool :=
  match s with
  | [] => true
  | c :: t => negb (Text.isspace c) && tidy_tail t
  end.

(** ** Patterns

    The part of Python's [re] that the allocator relies on: [re.escape],
    and patterns made of literal characters, [.], [\d], [^], [$], groups,
    [|] and the postfix operators [?], [+] and [*], matched by
    backtracking with greedy repetition.  On Django's SQLite backend the
    [iregex] lookup is [re.search] with the same patterns. *)

Module Re.

Definition chr (n : N) : ascii := ascii_of_N n.

(** The characters that [re.escape] backslashes:
    [()[]{}?*+-|^$\.&~# \t\n\r\v\f]. *)
Definition special_chars : str :=
  list_ascii_of_string "()[]{}?*+-|^$\.&~# " ++ [chr 9; chr 10; chr 13; chr 11; chr 12].

Definition special (c : ascii) : bool := Text.contains c special_chars.

(** [re.escape(s)] *)
Fixpoint escape (s : str) : str :=
  match s with
  | [] => []
  | c :: t => if special c then "\"%char :: c :: escape t else c :: escape t
  end.

Inductive token : Type :=
| TChar (c : ascii)
| TAny
| TDigit
| TBol
| TEol
| TOpen (capturing : bool)
| TClose
| TOpt
| TPlus
| TStar
| TBar.

Definition ischar (c : ascii) (lit : string) : bool :=
  match lit with
  | String d EmptyString => Text.eqb_char c d
  | _ => false
  end.

(** The tokens of a pattern; [None] for a pattern that [re] rejects or that
    uses syntax outside the modelled part (classes, counted repetition,
    other escapes of letters or digits, other [(?...)] groups). *)
Fixpoint lex (p : str) : option (list token) :=
  match p with
  | [] => Some []
  | c :: t =>
      if ischar c "\" then
        match t with
        | [] => None
        | e :: t' =>
            if Text.isalnum_ascii e
            then if ischar e "d" then option_map (cons TDigit) (lex t') else None
            else option_map (cons (TChar e)) (lex t')
        end
      else if ischar c "(" then
        match t with
        | q :: t' =>
            if ischar q "?" then
              match t' with
              | k :: t'' => if ischar k ":" then option_map (cons (TOpen false)) (lex t'') else None
              | [] => None
              end
            else option_map (cons (TOpen true)) (lex t)
        | [] => option_map (cons (TOpen true)) (lex t)
        end
      else if ischar c ")" then option_map (cons TClose) (lex t)
      else if ischar c "?" then option_map (cons TOpt) (lex t)
      else if ischar c "+" then option_map (cons TPlus) (lex t)
      else if ischar c "*" then option_map (cons TStar) (lex t)
      else if ischar c "|" then option_map (cons TBar) (lex t)
      else if ischar c "." then option_map (cons TAny) (lex t)
      else if ischar c "^" then option_map (cons TBol) (lex t)
      else if ischar c "$" then option_map (cons TEol) (lex t)
      else if ischar c "[" || ischar c "{" then None
      else option_map (cons (TChar c)) (lex t)
  end.

Inductive regex : Type :=
| Eps
| Chr (c : ascii)
| Any
| Digit
| Bol
| Eol
| Seq (a b : regex)
| Alt (a b : regex)
| Opt (a : regex)
| Star (a : regex)
| Group (index : nat) (a : regex).

(** [^] and [$] cannot be repeated. *)
Definition repeatable (a : regex) : bool :=
  match a with
  | Bol | Eol => false
  | _ => true
  end.

(** An atom with the postfix operator that follows it, if any; [None]
    when there is nothing to repeat. *)
Definition postfix (a : regex) (ts : list token) : option (regex * list token) :=
  match ts with
  | TOpt :: ts' => if repeatable a then Some (Opt a, ts') else None
  | TPlus :: ts' => if repeatable a then Some (Seq a (Star a), ts') else None
  | TStar :: ts' => if repeatable a then Some (Star a, ts') else None
  | _ => Some (a, ts)
  end.

(** Recursive descent; [groups] counts the capturing groups opened so far.
    The result is the expression, the new count and the tokens left. *)
Fixpoint parse_alt (fuel groups : nat) (ts : list token)
  : option (regex * nat * list token) :=
  match fuel with
  | O => None
  | S fuel' =>
      match parse_seq fuel' groups ts with
      | Some (a, groups1, TBar :: ts1) =>
          match parse_alt fuel' groups1 ts1 with
          | Some (b, groups2, ts2) => Some (Alt a b, groups2, ts2)
          | None => None
          end
      | other => other
      end
  end
with parse_seq (fuel groups : nat) (ts : list token)
  : option (regex * nat * list token) :=
  match fuel with
  | O => None
  | S fuel' =>
      let continue (atom : regex) (groups1 : nat) (ts1 : list token) :=
        match postfix atom ts1 with
        | Some (item, ts2) =>
            match parse_seq fuel' groups1 ts2 with
            | Some (r, groups2, ts3) => Some (Seq item r, groups2, ts3)
            | None => None
            end
        | None => None
        end in
      match ts with
      | [] => Some (Eps, groups, [])
      | TClose :: _ | TBar :: _ => Some (Eps, groups, ts)
      | TOpt :: _ | TPlus :: _ | TStar :: _ => None
      | TChar c :: ts1 => continue (Chr c) groups ts1
      | TAny :: ts1 => continue Any groups ts1
      | TDigit :: ts1 => continue Digit groups ts1
      | TBol :: ts1 => continue Bol groups ts1
      | TEol :: ts1 => continue Eol groups ts1
      | TOpen capturing :: ts1 =>
          let index := S groups in
          match parse_alt fuel' (if capturing then index else groups) ts1 with
          | Some (a, groups1, TClose :: ts2) =>
              continue (if capturing then Group index a else a) groups1 ts2
          | _ => None
          end
      end
  end.

(** [re.compile(p)]; [None] stands for [re.error]. *)
Definition compile (p : str) : option regex :=
  match lex p with
  | Some ts =>
      match parse_alt (2 * length ts + 2) 0 ts with
      | Some (r, _, []) => Some r
      | _ => None
      end
  | None => None
  end.

(** The state of a match: whether nothing was read yet, the text still
    to read, and the groups captured so far (latest first). *)
Record mstate : Type := {
  at_start : bool;
  rest : str;
  groups : list (nat * str)
}.

Definition advance (st : mstate) (t : str) : mstate :=
  {| at_start := false; rest := t; groups := groups st |}.

Definition capture (index : nat) (before after : mstate) : mstate :=
  {| at_start := at_start after;
     rest := rest after;
     groups := (index, firstn (length (rest before) - length (rest after)) (rest before))
               :: groups after |}.

Definition same (ignorecase : bool) (a b : ascii) : bool :=
  if ignorecase then Text.eqb_char (Text.lower_char a) (Text.lower_char b)
  else Text.eqb_char a b.

Definition newline : ascii := chr 10.

Definition kont := mstate -> option mstate.

(** Greedy repetition of [step], at most [n] times, each time reading at
    least one character. *)
Fixpoint star_loop (step : mstate -> kont -> option mstate) (k : kont) (n : nat)
  (st : mstate) : option mstate :=
  match n with
  | O => k st
  | S n' =>
      match step st (fun st' =>
              if Nat.ltb (length (rest st')) (length (rest st)) then star_loop step k n' st'
              else None) with
      | Some m => Some m
      | None => k st
      end
  end.

(** [run r st k]: the first way, in backtracking order, to match [r] at
    [st] and then succeed with [k]. *)
Fixpoint run (ignorecase : bool) (r : regex) (st : mstate) (k : kont) : option mstate :=
  match r with
  | Eps => k st
  | Chr c =>
      match rest st with
      | c' :: t => if same ignorecase c c' then k (advance st t) else None
      | [] => None
      end
  | Any =>
      match rest st with
      | c' :: t => if Text.eqb_char c' newline then None else k (advance st t)
      | [] => None
      end
  | Digit =>
      match rest st with
      | c' :: t => if Text.isdigit c' then k (advance st t) else None
      | [] => None
      end
  | Bol => if at_start st then k st else None
  | Eol =>
      match rest st with
      | [] => k st
      | [c'] => if Text.eqb_char c' newline then k st else None
      | _ => None
      end
  | Seq a b => run ignorecase a st (fun st' => run ignorecase b st' k)
  | Alt a b =>
      match run ignorecase a st k with
      | Some m => Some m
      | None => run ignorecase b st k
      end
  | Opt a =>
      match run ignorecase a st k with
      | Some m => Some m
      | None => k st
      end
  | Star a => star_loop (run ignorecase a) k (length (rest st)) st
  | Group index a => run ignorecase a st (fun st' => k (capture index st st'))
  end.

(** [re.match(r, s)]: the captured groups of the match at the start of
    [s], if any. *)
Definition match_ (ignorecase : bool) (r : regex) (s : str) : option (list (nat * str)) :=
  option_map groups
    (run ignorecase r {| at_start := true; rest := s; groups := [] |} Some).

Fixpoint search_from (ignorecase : bool) (r : regex) (start : bool) (s : str) : bool :=
  match run ignorecase r {| at_start := start; rest := s; groups := [] |} Some with
  | Some _ => true
  | None =>
      match s with
      | [] => false
      | _ :: t => search_from ignorecase r false t
      end
  end.

(** [re.search(r, s) is not None] *)
Definition search (ignorecase : bool) (r : regex) (s : str) : bool :=
  search_from ignorecase r true s.

(** [m.group(index)] *)
Fixpoint group (index : nat) (gs : list (nat * str)) : option str :=
  match gs with
  | [] => None
  | (i, s) :: gs' => if Nat.eqb i index then Some s else group index gs'
  end.

End Re.

(** ** Materials of a TEP code *)

(** The columns of the [Material] table that the allocator reads or
    writes; [tep_code] is the key of the TEP code the row belongs to. *)
Record Material : Type := {
  id : N;
  tep_code : N;
  mat_partcode : str;
  mat_partname : str
}.

(** The rows of the table, of every TEP code, in any order. *)
Definition table := list Material.

(** [rf"^{re.escape(base)}( \d+)?$"] *)
Definition iregex_pattern (base : str) : str :=
  "^" ++ Re.escape base ++ "( \d+)?$".

(** [rf"^{re.escape(base)}(?: (\d+))?$"] *)
Definition match_pattern (base : str) : str :=
  "^" ++ Re.escape base ++ "(?: (\d+))?$".

(** [mat_partname__iregex=pattern] on one value; [None] when the pattern
    does not compile. *)
Definition iregex (pattern value : str) : option bool :=
  option_map (fun r => Re.search true r value) (Re.compile pattern).

(** [mat_partname__iexact=base] on one value: equality but for case. *)
Definition iexact (base value : str) : bool :=
  Text.eqb (Text.lower value) (Text.lower base).

(** [qs.exclude(mat_partcode=exclude_partcode)], applied only when
    [exclude_partcode] is not empty. *)
Definition exclude (exclude_partcode : str) (qs : table) : table :=
  match exclude_partcode with
  | [] => qs
  | _ => filter (fun m => negb (Text.eqb (mat_partcode m) exclude_partcode)) qs
  end.

Definition in_tep (tep : N) (m : Material) : bool := N.eqb (tep_code m) tep.

(** [str(n)] for an integer. *)
Definition str_of_Z (n : Z) : str :=
  if (n <? 0)%Z then "-"%char :: Text.str_of_N (Z.abs_N n) else Text.str_of_N (Z.to_N n).

(** The contribution of one existing name to [numbers]: nothing, or the
    number after the base; the outer [None] stands for an exception. *)
Definition number_of (r : Re.regex) (n : str) : option (option Z) :=
  match Re.match_ true r (Text.strip n) with
  | Some gs =>
      match Re.group 1 gs with
      | Some ((_ :: _) as digits) => option_map Some (Text.int digits)
      | _ => Some None
      end
  | None => Some None
  end.

Fixpoint numbers_of (r : Re.regex) (existing_names : list str) : option (list Z) :=
  match existing_names with
  | [] => Some []
  | n :: rest =>
      match number_of r n, numbers_of r rest with
      | Some (Some v), Some vs => Some (v :: vs)
      | Some None, Some vs => Some vs
      | _, _ => None
      end
  end.

(** [max(numbers)] for a non-empty list. *)
Definition maximum (v : Z) (vs : list Z) : Z := fold_left Z.max vs v.

(** [qs.order_by("id").first()] *)
Fixpoint first_by_id (qs : table) : option Material :=
  match qs with
  | [] => None
  | m :: rest =>
      match first_by_id rest with
      | Some m' => if (id m' <? id m)%N then Some m' else Some m
      | None => Some m
      end
  end.

(** [first.mat_partname = name; first.save(update_fields=["mat_partname"])]:
    the row with the key of [first] gets the name. *)
Definition save_partname (first : Material) (name : str) (db : table) : table :=
  map (fun m =>
         if N.eqb (id m) (id first)
         then {| id := id m; tep_code := tep_code m;
                 mat_partcode := mat_partcode m; mat_partname := name |}
         else m) db.

(** [_allocate_material_name(tep, base_name, exclude_partcode)] on the
    table [db]: the name and the table afterwards; [None] stands for an
    exception. *)
Definition _allocate_material_name
  (db : table) (tep : N) (base_name exclude_partcode : str) : option (str * table) :=
  let base := str_or (Text.strip base_name) "UNKNOWN" in
  let exclude_partcode := Text.strip exclude_partcode in
  match Re.compile (iregex_pattern base) with
  | None => None
  | Some pattern =>
      let qs := filter (fun m => in_tep tep m && Re.search true pattern (mat_partname m)) db in
      let qs := exclude exclude_partcode qs in
      let existing_names := map mat_partname qs in
      match existing_names with
      | [] => Some (base, db)
      | _ =>
          match Re.compile (match_pattern base) with
          | None => None
          | Some pattern' =>
              match numbers_of pattern' existing_names with
              | None => None
              | Some [] =>
                  let existing_base :=
                    filter (fun m => in_tep tep m && iexact base (mat_partname m)) db in
                  let existing_base := exclude exclude_partcode existing_base in
                  let db' :=
                    match first_by_id existing_base with
                    | Some first => save_partname first (base ++ " 1") db
                    | None => db
                    end in
                  Some (base ++ " 2", db')
              | Some (v :: vs) =>
                  Some (base ++ " " ++ str_of_Z (maximum v vs + 1), db)
              end
          end
      end
  end.

(** The key that [Material.objects.create] gives a new row. *)
Definition next_id (db : table) : N :=
  fold_left N.max (map id db) 0%N + 1.

(** [Material.objects.create(tep_code=tep, mat_partcode=..., mat_partname=...)] *)
Definition create (db : table) (tep : N) (partcode partname : str) : table :=
  db ++ [{| id := next_id db; tep_code := tep;
            mat_partcode := partcode; mat_partname := partname |}].

(** One allocation followed by the creation of the new item under the
    returned name, with no excluded part code. *)
Record call : Type := {
  call_tep : N;
  call_base : str;
  call_partcode : str
}.

(** What one call leaves behind: the name returned, the table when the
    allocator returns, and the table once the new item is stored. *)
Record outcome : Type := {
  returned : str;
  allocated : table;
  stored : table
}.

Definition allocate_and_store (db : table) (c : call) : option outcome :=
  match _allocate_material_name db (call_tep c) (call_base c) "" with
  | Some (name, db1) =>
      Some {| returned := name; allocated := db1;
              stored := create db1 (call_tep c) (call_partcode c) name |}
  | None => None
  end.

(** A sequence of calls against the table. *)
Fixpoint session (db : table) (calls : list call) : option (list outcome) :=
  match calls with
  | [] => Some []
  | c :: rest =>
      match allocate_and_store db c with
      | Some o => option_map (cons o) (session (stored o) rest)
      | None => None
      end
  end.

(** The TEP code of a row and its name in lower case. *)
Definition name_key (m : Material) : N * str := (tep_code m, Text.lower (mat_partname m)).

(** No two rows of one TEP code hold names that are equal but for case. *)
Definition names_unique (db : table) : Prop := NoDup (map name_key db).

(** The primary key: no two rows have the same [id]. *)
Definition ids_unique (db : table) : Prop := NoDup (map id db).

(** [name] is not, but for case, the name of a row of [tep]. *)
Definition fresh_name (tep : N) (name : str) (db : table) : Prop :=
  ~ In (tep, Text.lower name) (map name_key db).

(** The name of the row with key [i], if the table holds one. *)
Definition name_of (i : N) (db : table) : option str :=
  option_map mat_partname (find (fun m => N.eqb (id m) i) db).

Definition same_name (a b : option str) : bool :=
  match a, b with
  | Some x, Some y => Text.eqb x y
  | None, None => true
  | _, _ => false
  end.

(** How many of the allocations of [trace], the first of them run on
    [db], have rewritten the name of the row with key [i]. *)
Fixpoint rewrites (i : N) (db : table) (trace : list outcome) : nat :=
  match trace with
  | [] => 0
  | o :: rest =>
      (if same_name (name_of i db) (name_of i (allocated o)) then 0 else 1)
      + rewrites i (stored o) rest
  end.

(** What identifies an item: its key, its TEP code and its part code. *)
Definition identity (m : Material) : N * N * str :=
  (id m, tep_code m, mat_partcode m).

(** *** What the two patterns compile to *)

(** Tokens that do not start with a postfix operator. *)
Definition neutral (ts : list Re.token) : Prop :=
  match ts with
  | Re.TOpt :: _ | Re.TPlus :: _ | Re.TStar :: _ => False
  | _ => True
  end.

(** A continuation that gives up when a digit comes next. *)
Definition stops_at_digit (k : Re.kont) : Prop :=
  forall s d t g, Text.isdigit d = true ->
                  k {| Re.at_start := s; Re.rest := d :: t; Re.groups := g |} = None.

(** The characters of [base], one after the other, then [tail]. *)
Definition literal (base : str) (tail : Re.regex) : Re.regex :=
  fold_right (fun c r => Re.Seq (Re.Chr c) r) tail base.

Definition digits1 : Re.regex := Re.Seq Re.Digit (Re.Star Re.Digit).

(** [( \d+)?$] *)
Definition iregex_tail : Re.regex :=
  Re.Seq (Re.Opt (Re.Group 1 (Re.Seq (Re.Chr " ") (Re.Seq digits1 Re.Eps))))
         (Re.Seq Re.Eol Re.Eps).

(** [(?: (\d+))?$] *)
Definition match_tail : Re.regex :=
  Re.Seq (Re.Opt (Re.Seq (Re.Chr " ") (Re.Seq (Re.Group 1 (Re.Seq digits1 Re.Eps)) Re.Eps)))
         (Re.Seq Re.Eol Re.Eps).

Definition iregex_compiled (base : str) : Re.regex :=
  Re.Seq Re.Bol (literal base iregex_tail).

Definition match_compiled (base : str) : Re.regex :=
  Re.Seq Re.Bol (literal base match_tail).

(** What is left of [s] after a prefix equal to [base] but for case. *)
Fixpoint after_base (base s : str) : option str :=
  match base, s with
  | [], _ => Some s
  | c :: base', c' :: s' => if Re.same true c c' then after_base base' s' else None
  | _ :: _, [] => None
  end.

(** The text that may follow the base in a matching name: nothing, or a
    space and digits; and then, as [$] allows, one final newline. *)
Definition at_end (s : str) : bool :=
  match s with
  | [] => true
  | [c] => Text.eqb_char c Re.newline
  | _ => false
  end.

Fixpoint take_digits (s : str) : str :=
  match s with
  | d :: t => if Text.isdigit d then d :: take_digits t else []
  | [] => []
  end.

Fixpoint skip_digits (s : str) : str :=
  match s with
  | d :: t => if Text.isdigit d then skip_digits t else s
  | [] => []
  end.

(** The digits of a suffix made of a space and digits. *)
Definition numbered_suffix (s : str) : option str :=
  match s with
  | c :: d :: t =>
      if Text.eqb_char c " " && Text.isdigit d && at_end (skip_digits t)
      then Some (d :: take_digits t)
      else None
  | _ => None
  end.

(** How [name] stands to [base], whatever the case of its letters:
    [Some (Some digits)] when it is the base, a space and [digits];
    [Some None] when it is the base alone; [None] otherwise. *)
Definition classify (base name : str) : option (option str) :=
  match after_base base name with
  | Some s =>
      match numbered_suffix s with
      | Some digits => Some (Some digits)
      | None => if at_end s then Some None else None
      end
  | None => None
  end.

Definition is_some {A : Type} (o : option A) : bool :=
  match o with
  | Some _ => true
  | None => false
  end.

(** *** The allocator in terms of [classify] *)

(** The number that the name [n] contributes to [numbers]. *)
Definition number (base n : str) : option Z :=
  match classify base (Text.strip n) with
  | Some (Some digits) => option_map Z.of_N (Text.N_of_digits digits)
  | _ => None
  end.

Fixpoint numbers (base : str) (existing_names : list str) : list Z :=
  match existing_names with
  | [] => []
  | n :: rest =>
      match number base n with
      | Some v => v :: numbers base rest
      | None => numbers base rest
      end
  end.

(** The rows that [_allocate_material_name] looks up first. *)
Definition matching (db : table) (tep : N) (base exclude_partcode : str) : table :=
  exclude exclude_partcode
    (filter (fun m => in_tep tep m && is_some (classify base (mat_partname m))) db).

(** The rows whose name is the bare base. *)
Definition bare (db : table) (tep : N) (base exclude_partcode : str) : table :=
  exclude exclude_partcode
    (filter (fun m => in_tep tep m && iexact base (mat_partname m)) db).

(** What [_allocate_material_name] returns, with the two lookups read
    through [classify]. *)
Definition allocation (db : table) (tep : N) (base_name exclude_partcode : str)
  : str * table :=
  let base := str_or (Text.strip base_name) "UNKNOWN" in
  let exclude_partcode := Text.strip exclude_partcode in
  match map mat_partname (matching db tep base exclude_partcode) with
  | [] => (base, db)
  | existing_names =>
      match numbers base existing_names with
      | [] =>
          (base ++ " 2",
           match first_by_id (bare db tep base exclude_partcode) with
           | Some first => save_partname first (base ++ " 1") db
           | None => db
           end)
      | v :: vs => (base ++ " " ++ str_of_Z (maximum v vs + 1), db)
      end
  end.

(** The TEP code holds a name that is, but for case, [base] with a
    number. *)
Definition has_numbered (tep : N) (base : str) (db : table) : Prop :=
  exists m k, In m db /\ tep_code m = tep /\
              Text.lower (mat_partname m) = Text.lower (numbered base k).

(** A call for one TEP code and one base name. *)
Definition same_base_call (tep : N) (base_name partcode : str) : call :=
  {| call_tep := tep; call_base := base_name; call_partcode := partcode |}.

(** The base that [_allocate_material_name] works with in a call. *)
Definition base_of_call (c : call) : str :=
  str_or (Text.strip (call_base c)) "UNKNOWN".

(** [later] asks, for the TEP code of [earlier], for the name that a
    rename in [earlier] gives: the base of [earlier] followed by [" 1"],
    but for case. *)
Definition asks_renamed (earlier later : call) : bool :=
  N.eqb (call_tep later) (call_tep earlier)
  && iexact (base_of_call later) (base_of_call earlier ++ " 1").

(** ** Forecast months *)

Definition months : list str :=
  [ "january" : str; "february" : str; "march" : str; "april" : str;
    "may" : str; "june" : str; "july" : str; "august" : str;
    "september" : str; "october" : str; "november" : str; "december" : str ].

Definition abbr : list str :=
  [ "jan" : str; "feb" : str; "mar" : str; "apr" : str; "may" : str; "jun" : str;
    "jul" : str; "aug" : str; "sep" : str; "oct" : str; "nov" : str; "dec" : str ].

(** [for i, a in enumerate(names): if lower.startswith(a) or lower == a:
    return i + 1], entered at index [i]. *)
Fixpoint first_prefix (lower : str) (names : list str) (i : Z) : option Z :=
  match names with
  | [] => None
  | a :: rest =>
      if Text.startswith lower a || Text.eqb lower a then Some (i + 1)%Z
      else first_prefix lower rest (i + 1)%Z
  end.

(** [s.split("-")[0] if "-" in s else s.split("/")[0] if "/" in s else s];
    [None] stands for [IndexError]. *)
Definition numeric_head (s : str) : option str :=
  if Text.contains "-" s then nth_error (Text.split "-" s) 0
  else if Text.contains "/" s then nth_error (Text.split "/" s) 0
  else Some s.

(** The [try] block of [_month_index_from_string]. *)
Definition numeric_fallback (s : str) : option Z :=
  match numeric_head s with
  | Some head =>
      match Text.int head with
      | Some n => if ((1 <=? n) && (n <=? 12))%Z then Some n else None
      | None => None
      end
  | None => None
  end.

(** [_month_index_from_string(val)], with [val] given as its text
    [str(val)]: a value that Python takes for false has a text that no rule
    accepts. *)
Definition _month_index_from_string (val : str) : option Z :=
  match val with
  | [] => None
  | _ =>
      let s := Text.strip val in
      match s with
      | [] => None
      | _ =>
          let lower := Text.lower s in
          match first_prefix lower abbr 0 with
          | Some i => Some i
          | None =>
              match first_prefix lower months 0 with
              | Some i => Some i
              | None => numeric_fallback s
              end
          end
      end
  end.

(** A field of a monthly row: absent, null, a JSON number, or a value that
    [float] rejects. *)
Inductive cell : Type :=
| Missing
| Null
| Number (x : float)
| Invalid.

(** One element of [monthly_forecasts]: a dict with its ["date"] as text
    (empty when absent), or some other JSON value. *)
Inductive monthly_row : Type :=
| NotARow
| Row (date : str) (unit_price quantity : cell).

(** [float(m.get(key, 0) or 0)]; [None] stands for [TypeError] or
    [ValueError]. *)
Definition float_or_0 (c : cell) : option float :=
  match c with
  | Missing | Null => Some 0%float
  | Number x => Some (if PrimFloat.eqb x 0 then 0%float else x)
  | Invalid => None
  end.

(** [float(m.get(key, 0))] *)
Definition float_of (c : cell) : option float :=
  match c with
  | Missing => Some 0%float
  | Number x => Some x
  | Null | Invalid => None
  end.

(** One iteration of the loop of [_range_totals]. *)
Definition range_step (from_idx to_idx : Z) (acc : float * float) (m : monthly_row)
  : float * float :=
  match m with
  | NotARow => acc
  | Row date unit_price quantity =>
      match _month_index_from_string date with
      | None => acc
      | Some mi =>
          if ((from_idx <=? mi) && (mi <=? to_idx))%Z then
            match float_or_0 quantity, float_or_0 unit_price with
            | Some qty, Some price =>
                (PrimFloat.add (fst acc) qty, PrimFloat.add (snd acc) (PrimFloat.mul price qty))
            | _, _ => acc
            end
          else acc
      end
  end.

(** [_range_totals(monthly_rows, from_idx, to_idx)] *)
Definition _range_totals (monthly_rows : list monthly_row) (from_idx to_idx : option Z)
  : float * float :=
  match from_idx, to_idx with
  | Some f, Some t => fold_left (range_step f t) monthly_rows (0%float, 0%float)
  | _, _ => (0%float, 0%float)
  end.

Definition month_names_full : list str :=
  [ "January" : str; "February" : str; "March" : str; "April" : str;
    "May" : str; "June" : str; "July" : str; "August" : str;
    "September" : str; "October" : str; "November" : str; "December" : str ].

Definition MONTH_NAMES_FULL : list str :=
  [ "JANUARY" : str; "FEBRUARY" : str; "MARCH" : str; "APRIL" : str;
    "MAY" : str; "JUNE" : str; "JULY" : str; "AUGUST" : str;
    "SEPTEMBER" : str; "OCTOBER" : str; "NOVEMBER" : str; "DECEMBER" : str ].

(** [names[idx - 1]] for [idx] in 1..12. *)
Definition name_at (names : list str) (idx : Z) : str :=
  nth (Z.to_nat (idx - 1)) names [].

(** The name a row contributes in [_months_label_from_rows]; [None] for a
    row that is skipped. *)
Definition row_name (m : monthly_row) : option str :=
  match m with
  | NotARow => None
  | Row date _ _ =>
      match _month_index_from_string date with
      | Some idx =>
          if ((1 <=? idx) && (idx <=? 12))%Z then Some (name_at month_names_full idx)
          else Some (Text.strip date)
      | None => Some (Text.strip date)
      end
  end.

(** The loop of [_months_label_from_rows] over the pair [(seen, names)]. *)
Definition label_step (acc : list str * list str) (m : monthly_row)
  : list str * list str :=
  match row_name m with
  | Some name =>
      match name with
      | [] => acc
      | _ =>
          if negb (Text.mem name (fst acc)) then (name :: fst acc, snd acc ++ [name])
          else acc
      end
  | None => acc
  end.

Definition label_names (monthly_rows : list monthly_row) : list str :=
  snd (fold_left label_step monthly_rows ([], [])).

(** [sep.join(names)] *)
Fixpoint join (sep : str) (names : list str) : str :=
  match names with
  | [] => []
  | [n] => n
  | n :: rest => n ++ sep ++ join sep rest
  end.

(** The result of [_months_label_from_rows]: the joined names, or the
    placeholder literal, whose characters lie outside the modelled range. *)
Inductive months_label : Type :=
| Placeholder
| Joined (label : str).

Definition _months_label_from_rows (monthly_rows : list monthly_row) : months_label :=
  match label_names monthly_rows with
  | [] => Placeholder
  | names => Joined (join ", " names)
  end.

(** [idx(token) if token else None] *)
Definition month_of_param (token : str) : option Z :=
  match token with
  | [] => None
  | _ => _month_index_from_string token
  end.

(** [from_idx, to_idx = to_idx, from_idx] when [from_idx > to_idx]. *)
Definition ordered (from_idx to_idx : Z) : Z * Z :=
  if (from_idx >? to_idx)%Z then (to_idx, from_idx) else (from_idx, to_idx).

Definition range_label (from_idx to_idx : Z) : str :=
  name_at MONTH_NAMES_FULL from_idx ++ " to " ++ name_at MONTH_NAMES_FULL to_idx.

(** What [admin_dashboard] puts in its context for the selected range:
    the label, the totals over all forecasts, and the pair set on each
    forecast. *)
Record range_selection : Type := {
  forecast_selected_range_label : str;
  forecast_selected_total_qty : float;
  forecast_selected_total_amount : float;
  selected_range_per_forecast : list (float * float)
}.

Definition select_range (forecasts_list : list (list monthly_row)) (from_idx to_idx : Z)
  : range_selection :=
  let per := map (fun rows => _range_totals rows (Some from_idx) (Some to_idx)) forecasts_list in
  {| forecast_selected_range_label := range_label from_idx to_idx;
     forecast_selected_total_qty :=
       fold_left (fun acc p => PrimFloat.add acc (fst p)) per 0%float;
     forecast_selected_total_amount :=
       fold_left (fun acc p => PrimFloat.add acc (snd p)) per 0%float;
     selected_range_per_forecast := per |}.

(** What the forecast part of [admin_dashboard] ends in: [AttributeError]
    is raised, or the selected range goes into the context, [None] when no
    range is selected. *)
Inductive dashboard_range : Type :=
| AttributeError
| Selected (selection : option range_selection).

(** The loop of [admin_dashboard] that fills [previous_forecasts_list],
    which runs before the range is selected.  Its first statement reads
    [f.previous_forecasts], and [Forecast] ([models.py]) declares no field
    of that name: the read raises [AttributeError] at the first forecast,
    for which [None] stands, and the loop ends only on an empty list. *)
Definition previous_forecasts_list (forecasts_list : list (list monthly_row))
  : option unit :=
  match forecasts_list with
  | [] => Some tt
  | _ :: _ => None
  end.

(** The forecast part of [admin_dashboard] ([views.py]), from the loop
    over [forecasts_list] to the selected range. *)
Definition admin_dashboard_range
  (forecasts_list : list (list monthly_row)) (from_month to_month : str)
  : dashboard_range :=
  let forecast_from_month := Text.strip from_month in
  let forecast_to_month := Text.strip to_month in
  match previous_forecasts_list forecasts_list with
  | None => AttributeError
  | Some _ =>
      match month_of_param forecast_from_month, month_of_param forecast_to_month with
      | Some from_idx, Some to_idx =>
          let '(from_idx, to_idx) := ordered from_idx to_idx in
          Selected (Some (select_range forecasts_list from_idx to_idx))
      | _, _ => Selected None
      end
  end.

(** [total_range] of [get_forecasts_by_customer] for one forecast; [None]
    when a [float] conversion raises. *)
Fixpoint total_range (from_idx to_idx : Z) (rows : list monthly_row) (acc : float)
  : option float :=
  match rows with
  | [] => Some acc
  | NotARow :: rest => total_range from_idx to_idx rest acc
  | Row date unit_price quantity :: rest =>
      match _month_index_from_string date with
      | None => total_range from_idx to_idx rest acc
      | Some mi =>
          if ((from_idx <=? mi) && (mi <=? to_idx))%Z then
            match float_of unit_price with
            | Some price =>
                match float_of quantity with
                | Some qty =>
                    total_range from_idx to_idx rest (PrimFloat.add acc (PrimFloat.mul price qty))
                | None => None
                end
            | None => None
            end
          else total_range from_idx to_idx rest acc
      end
  end.

(** The monthly rows of [_forecast_to_output(forecast)]: date, unit price,
    quantity and amount of every dict row; [None] when a [float] conversion
    raises. *)
Fixpoint _forecast_to_output (rows : list monthly_row)
  : option (list (str * float * float * float)) :=
  match rows with
  | [] => Some []
  | NotARow :: rest => _forecast_to_output rest
  | Row date unit_price quantity :: rest =>
      match float_of unit_price, float_of quantity with
      | Some price, Some qty =>
          option_map (cons (date, price, qty, PrimFloat.mul price qty))
                     (_forecast_to_output rest)
      | _, _ => None
      end
  end.

(** [[f(x) for x in xs]] where [f] may raise. *)
Fixpoint for_each {A B : Type} (f : A -> option B) (xs : list A) : option (list B) :=
  match xs with
  | [] => Some []
  | x :: rest =>
      match f x with
      | Some y => option_map (cons y) (for_each f rest)
      | None => None
      end
  end.

(** One entry of the response of [get_forecasts_by_customer]. *)
Record forecast_out : Type := {
  monthly_forecasts : list (str * float * float * float);
  selected_months : option str;
  total_amount_selected_months : option float
}.

Inductive api_response : Type :=
| BadRequest
| Raised
| Listed (result : list forecast_out).

(** [get_forecasts_by_customer] ([api.py]) from the parsing of the two
    month parameters on, over the forecasts of the customer. *)
Definition get_forecasts_by_customer
  (forecasts : list (list monthly_row)) (from_month to_month : str) : api_response :=
  let from_idx := month_of_param from_month in
  let to_idx := month_of_param to_month in
  let given := match from_month, to_month with [], [] => false | _, _ => true end in
  let window :=
    match from_idx, to_idx with
    | Some f, Some t => Some (ordered f t)
    | _, _ => None
    end in
  match window with
  | None =>
      if given then BadRequest
      else
        match for_each (fun rows =>
                option_map (fun out =>
                  {| monthly_forecasts := out; selected_months := None;
                     total_amount_selected_months := None |})
                  (_forecast_to_output rows)) forecasts with
        | Some result => Listed result
        | None => Raised
        end
  | Some (from_idx, to_idx) =>
      match for_each (fun rows =>
              match _forecast_to_output rows with
              | Some out =>
                  option_map (fun total =>
                    {| monthly_forecasts := out;
                       selected_months := Some (range_label from_idx to_idx);
                       total_amount_selected_months := Some total |})
                    (total_range from_idx to_idx rows 0%float)
              | None => None
              end) forecasts with
      | Some result => Listed result
      | None => Raised
      end
  end.

(** *** The numeric fallback in the words of the specification *)

(** The text before the first occurrence of [sep], or all of it. *)
Fixpoint before_first (sep : ascii) (s : str) : str :=
  match s with
  | [] => []
  | c :: t => if Text.eqb_char c sep then [] else c :: before_first sep t
  end.

(** The text before the first ["-"] or ["/"], whichever comes first. *)
Fixpoint before_first_delimiter (s : str) : str :=
  match s with
  | [] => []
  | c :: t =>
      if Text.eqb_char c "-" || Text.eqb_char c "/" then []
      else c :: before_first_delimiter t
  end.

(** Parse as an integer and accept only 1..12. *)
Definition accept_month (head : str) : option Z :=
  match Text.int head with
  | Some n => if ((1 <=? n) && (n <=? 12))%Z then Some n else None
  | None => None
  end.

(** "Split the token at its first occurrence of either delimiter and take
    the left segment." *)
Definition spec_numeric_fallback (s : str) : option Z :=
  accept_month (before_first_delimiter s).

(** "Split at the first ["-"] when the token has one, otherwise at the
    first ["/"] when it has one, and take the left segment." *)
Definition hyphen_first_fallback (s : str) : option Z :=
  accept_month
    (if Text.contains "-" s then before_first "-" s
     else if Text.contains "/" s then before_first "/" s
     else s).

(** Neither prefix rule accepts the stripped, non-empty token [s]. *)
Definition no_month_prefix (s : str) : bool :=
  match first_prefix (Text.lower s) abbr 0, first_prefix (Text.lower s) months 0 with
  | None, None => true
  | _, _ => false
  end.

(** ** The callers of the allocator

    [create_material_by_tep_code] and the material block of [upload_csv]
    ([app/api.py]) allocate a name with the new part code excluded and
    then store the item. *)

(** The part codes, normalized, of the dict entries of a parts list. *)
Fixpoint existing_codes (parts : parts_list) : list str :=
  match parts with
  | [] => []
  | NotDict :: rest => existing_codes rest
  | PartDict c _ :: rest => _normalize_space c :: existing_codes rest
  end.

(** The [TEPCode] table: the key, the name of the customer the row
    belongs to, the part code and the TEP code. *)
Module Tep.

Record row : Type := {
  id : N;
  customer_name : str;
  part_code : str;
  tep_code : str
}.

(** [qs.first()] on a query without an order: the row with the least
    key. *)
Fixpoint first (qs : list row) : option row :=
  match qs with
  | [] => None
  | t :: rest =>
      match first rest with
      | Some t' => if (id t' <? id t)%N then Some t' else Some t
      | None => Some t
      end
  end.

End Tep.

(** The master list [MaterialList]; [mat_partcode] is unique in it. *)
Module MaterialList.

Record row : Type := {
  mat_partcode : str;
  mat_partname : str;
  mat_maker : str;
  unit : str
}.

Definition table := list row.

(** [MaterialList.objects.filter(mat_partcode=code).first()]: at most one
    row has the code. *)
Definition by_partcode (code : str) (db : table) : option row :=
  find (fun r => Text.eqb (mat_partcode r) code) db.

(** [obj.save()]: the row with the code of [obj] takes its values. *)
Definition save (obj : row) (db : table) : table :=
  map (fun r => if Text.eqb (mat_partcode r) (mat_partcode obj) then obj else r) db.

End MaterialList.

(** [tep_code=tep, mat_partcode=partcode] *)
Definition of_tep_and_partcode (tep : N) (partcode : str) (m : Material) : bool :=
  in_tep tep m && Text.eqb (mat_partcode m) partcode.

(** The row that [create] adds. *)
Definition new_row (db : table) (tep : N) (partcode partname : str) : Material :=
  {| id := next_id db; tep_code := tep;
     mat_partcode := partcode; mat_partname := partname |}.

(** The outcome of [Material.objects.get_or_create(tep_code=tep,
    mat_partcode=partcode, defaults={"mat_partname": partname, ...})]:
    the row found, or the row created and the table that holds it; the
    lookup raises when more than one row answers it. *)
Inductive got : Type :=
| Found (m : Material)
| Created (m : Material) (db : table)
| MultipleObjectsReturned.

Definition get_or_create (db : table) (tep : N) (partcode partname : str) : got :=
  match filter (of_tep_and_partcode tep partcode) db with
  | [] => Created (new_row db tep partcode partname) (create db tep partcode partname)
  | [m] => Found m
  | _ => MultipleObjectsReturned
  end.

(** What a view answers: an error with its status, the stored item, or an
    exception that leaves the view. *)
Inductive response : Type :=
| Status (code : N) (error : str)
| Returned (m : Material)
| Exception.

(** [create_material_by_tep_code(request, tep_code, payload, part_code,
    customer_name)] on the three tables: the answer and the [Material]
    table afterwards.  The allocator runs in a transaction of its own,
    which is committed before [get_or_create] runs. *)
Definition create_material_by_tep_code
  (teps : list Tep.row) (master : MaterialList.table) (db : table)
  (tep_code payload_mat_partcode part_code customer_name : str)
  : response * table :=
  let tep_code := Text.strip tep_code in
  let part_code := Text.strip part_code in
  let customer_name := Text.strip customer_name in
  match tep_code with
  | [] => (Status 400 "tep_code is required", db)
  | _ =>
      let qs := filter (fun t => Text.eqb (Tep.tep_code t) tep_code) teps in
      let qs := match part_code with
                | [] => qs
                | _ => filter (fun t => Text.eqb (Tep.part_code t) part_code) qs
                end in
      let qs := match customer_name with
                | [] => qs
                | _ => filter (fun t => Text.eqb (Tep.customer_name t) customer_name) qs
                end in
      match Tep.first qs with
      | None => (Status 404 "TEP code not found. Provide part_code and/or customer_name.", db)
      | Some tep =>
          let mat_partcode := Text.strip payload_mat_partcode in
          match mat_partcode with
          | [] => (Status 400 "mat_partcode is required", db)
          | _ =>
              match MaterialList.by_partcode mat_partcode master with
              | None =>
                  (Status 404 ("mat_partcode '" ++ mat_partcode
                               ++ "' not found in master list."), db)
              | Some master =>
                  match _allocate_material_name db (Tep.id tep)
                          (MaterialList.mat_partname master) mat_partcode with
                  | None => (Exception, db)
                  | Some (final_name, db) =>
                      match get_or_create db (Tep.id tep) mat_partcode final_name with
                      | Created material db => (Returned material, db)
                      | Found _ =>
                          (Status 409 "Material already exists for this TEP + mat_partcode.",
                           db)
                      | MultipleObjectsReturned => (Exception, db)
                      end
                  end
              end
          end
      end
  end.

(** The material block of one row of [upload_csv], for the TEP code [tep]
    and the master row of the part code: [true] with the new table when an
    item was inserted, [false] when the item was there; the columns that
    the update writes are not among those of the table.  [None] stands for
    an exception. *)
Definition upload_csv_material (db : table) (tep : N) (master : MaterialList.row)
  : option (bool * table) :=
  match first_by_id (filter (of_tep_and_partcode tep (MaterialList.mat_partcode master)) db) with
  | Some existing_mat => Some (false, db)
  | None =>
      match _allocate_material_name db tep (MaterialList.mat_partname master)
              (MaterialList.mat_partcode master) with
      | Some (final_name, db) =>
          Some (true, create db tep (MaterialList.mat_partcode master) final_name)
      | None => None
      end
  end.

(** The blocks of the rows of a file, one after the other, with the
    counters [inserted] and [updated]. *)
Fixpoint upload_csv_materials (db : table) (rows : list (N * MaterialList.row))
  (inserted updated : N) : option (N * N * table) :=
  match rows with
  | [] => Some (inserted, updated, db)
  | (tep, master) :: rest =>
      match upload_csv_material db tep master with
      | Some (true, db) => upload_csv_materials db rest (inserted + 1) updated
      | Some (false, db) => upload_csv_materials db rest inserted (updated + 1)
      | None => None
      end
  end.

(** ** The master list: [add_material]

    The action [add_material] of [admin_dashboard] ([app/views.py]); the
    rows of [upload_csv] and of [admin_csv_upload] treat the master list
    in the same way. *)

Definition allowed_units : list str :=
  [ "pc" : str; "pcs" : str; "m" : str; "g" : str; "kg" : str ].

(** [(value or "").strip()], as in [(request.POST.get(key) or "").strip()] *)
Definition posted (value : option str) : str :=
  Text.strip (match value with Some v => v | None => [] end).

(** [if value and current != value: current = value; changed = True] *)
Definition set_if_new (value current : str) (changed : bool) : str * bool :=
  match value with
  | [] => (current, changed)
  | _ => if negb (Text.eqb current value) then (value, true) else (current, changed)
  end.

(** The message a view leaves for the next page. *)
Inductive message : Type :=
| messages_error (text : str)
| messages_success (text : str)
| messages_info (text : str).

Definition add_material
  (db : MaterialList.table) (mat_partcode mat_partname mat_maker unit : option str)
  : message * MaterialList.table :=
  let mat_partcode := posted mat_partcode in
  let mat_partname := posted mat_partname in
  let mat_maker := posted mat_maker in
  let unit := Text.lower (posted unit) in
  let unit := if negb (Text.mem unit allowed_units) then "pc" : str else unit in
  match mat_partcode with
  | [] => (messages_error "Part Code is required.", db)
  | _ =>
      match MaterialList.by_partcode mat_partcode db with
      | None =>
          (messages_success ("Added material: " ++ mat_partcode),
           db ++ [ {| MaterialList.mat_partcode := mat_partcode;
                      MaterialList.mat_partname := str_or mat_partname mat_partcode;
                      MaterialList.mat_maker := str_or mat_maker "Unknown";
                      MaterialList.unit := unit |} ])
      | Some obj =>
          let '(name, changed) := set_if_new mat_partname (MaterialList.mat_partname obj) false in
          let '(maker, changed) := set_if_new mat_maker (MaterialList.mat_maker obj) changed in
          let '(unit, changed) := set_if_new unit (MaterialList.unit obj) changed in
          if changed
          then (messages_success ("Updated material: " ++ mat_partcode),
                MaterialList.save
                  {| MaterialList.mat_partcode := MaterialList.mat_partcode obj;
                     MaterialList.mat_partname := name;
                     MaterialList.mat_maker := maker;
                     MaterialList.unit := unit |} db)
          else (messages_info ("No changes for: " ++ mat_partcode), db)
      end
  end.

(** ** The forecast model

    The properties of [Forecast] ([app/models.py]) that the admin pages
    show, over [monthly_forecasts or []]. *)
Module Forecast.

(** The name that [months_display] finds for the stripped, non-empty date
    [d]; [first_prefix] gives the position in [abbr], counted from one. *)
Definition found (d : str) : str :=
  match first_prefix (Text.lower d) abbr 0 with
  | Some i => name_at month_names_full i
  | None =>
      match numeric_head d with
      | Some head =>
          match Text.int head with
          | Some n => if ((1 <=? n) && (n <=? 12))%Z then name_at month_names_full n else d
          | None => d
          end
      | None => d
      end
  end.

(** The loop of [months_display] over the pair [(seen, names)]. *)
Definition display_step (acc : list str * list str) (m : monthly_row)
  : list str * list str :=
  match m with
  | NotARow => acc
  | Row date _ _ =>
      match Text.strip date with
      | [] => acc
      | d =>
          match found d with
          | [] => acc
          | name =>
              if negb (Text.mem name (fst acc)) then (name :: fst acc, snd acc ++ [name])
              else acc
          end
      end
  end.

(** The result of [months_display]: the joined names, or the dash
    (U+2014).  The placeholder of [_months_label_from_rows] is another
    text, the three characters U+00E2, U+20AC and U+201D. *)
Inductive display : Type :=
| Dash
| Names (label : str).

Definition months_display (monthly_forecasts : list monthly_row) : display :=
  match snd (fold_left display_step monthly_forecasts ([], [])) with
  | [] => Dash
  | names => Names (join ", " names)
  end.

Definition total_quantity (monthly_forecasts : list monthly_row) : float :=
  fold_left (fun total m =>
               match m with
               | Row _ _ quantity =>
                   match float_or_0 quantity with
                   | Some qty => PrimFloat.add total qty
                   | None => total
                   end
               | NotARow => total
               end) monthly_forecasts 0%float.

Definition total_amount (monthly_forecasts : list monthly_row) : float :=
  fold_left (fun total m =>
               match m with
               | Row _ unit_price quantity =>
                   match float_or_0 unit_price, float_or_0 quantity with
                   | Some price, Some qty => PrimFloat.add total (PrimFloat.mul price qty)
                   | _, _ => total
                   end
               | NotARow => total
               end) monthly_forecasts 0%float.

End Forecast.

(** *** Rows of a month range *)

(** The row is a dict whose date is a month of the range. *)
Definition in_window (from_idx to_idx : Z) (m : monthly_row) : bool :=
  match m with
  | NotARow => false
  | Row date _ _ =>
      match _month_index_from_string date with
      | Some mi => ((from_idx <=? mi) && (mi <=? to_idx))%Z
      | None => false
      end
  end.

(** The unit price of a dict row is one that [float(v or 0)] accepts. *)
Definition priced (m : monthly_row) : Prop :=
  match m with
  | NotARow => True
  | Row _ unit_price _ => float_or_0 unit_price <> None
  end.

(** [float(v)] and [float(v or 0)] give the same number for the field: it
    is absent, or a number other than the negative zero. *)
Definition plain (c : cell) : Prop :=
  exists x, float_of c = Some x /\ float_or_0 c = Some x.

Definition plain_row (m : monthly_row) : Prop :=
  match m with
  | NotARow => True
  | Row _ unit_price quantity => plain unit_price /\ plain quantity
  end.

(** [_normalize_monthly_payload(items)] ([app/api.py]): the rows stored
    for a list of [MonthlyForecastIn], each with its [date], [unit_price]
    and [quantity]. *)
Definition _normalize_monthly_payload (items : list (str * float * float))
  : list monthly_row :=
  map (fun '(date, unit_price, quantity) => Row date (Number unit_price) (Number quantity))
      items.

(** ** The customer table

    [build_customer_table] ([app/views.py]) for the customers of the
    query, each with its parts list and its TEP codes; customer names are
    unique, so that every customer makes a group of its own. *)

(** [a < b] on text: by code points, a proper prefix first. *)
Fixpoint str_ltb (a b : str) : bool :=
  match a, b with
  | _, [] => false
  | [], _ :: _ => true
  | x :: a', y :: b' =>
      (Text.code x <? Text.code y)%N || ((Text.code x =? Text.code y)%N && str_ltb a' b')
  end.

(** [sorted(xs, key=key)]: the sort is stable, which determines its
    result; here each element is put before the first element of the
    sorted rest whose key is not smaller. *)
Fixpoint insert_by {A : Type} (key : A -> str) (x : A) (rest : list A) : list A :=
  match rest with
  | [] => [x]
  | y :: rest' =>
      if str_ltb (key y) (key x) then y :: insert_by key x rest' else x :: y :: rest'
  end.

Definition sorted {A : Type} (key : A -> str) (xs : list A) : list A :=
  fold_right (insert_by key) [] xs.

(** The dict [parts_by_code] of one customer, in the order of insertion:
    the first entry of a part code gives its name. *)
Fixpoint parts_by_code (parts : parts_list) (acc : list (str * str)) : list (str * str) :=
  match parts with
  | [] => acc
  | NotDict :: rest => parts_by_code rest acc
  | PartDict c n :: rest =>
      let pc := posted c in
      let pn := posted n in
      match pc with
      | [] => parts_by_code rest acc
      | _ =>
          if negb (Text.mem pc (map fst acc)) then parts_by_code rest (acc ++ [(pc, pn)])
          else parts_by_code rest acc
      end
  end.

(** [d.get(key)] on a dict held as a list of pairs. *)
Definition get {V : Type} (key : str) (d : list (str * V)) : option V :=
  option_map snd (find (fun kv => Text.eqb (fst kv) key) d).

Module CustomerTable.

Record tep : Type := {
  tep_id : N;
  tep_code : str;
  materials_count : nat
}.

Module Part.

Record t : Type := {
  part_name : str;
  teps : list tep;
  default_tep_id : option N;
  default_tep_code : str;
  default_materials_count : nat
}.

End Part.

Record customer : Type := {
  customer_name : str;
  part_code_options : list str;
  default_part_code : str;
  default_tep_options : list tep;
  default_tep_id : option N;
  default_tep_code : str;
  default_materials_count : nat;
  part_code_map : list (str * Part.t)
}.

End CustomerTable.

(** The entries [teps] of the part code [pc]: the TEP codes of the part
    code, sorted by [tep_code], each with the number of its materials. *)
Definition tep_entries (teps : list Tep.row) (materials : table) (pc : str)
  : list CustomerTable.tep :=
  map (fun t => {| CustomerTable.tep_id := Tep.id t;
                   CustomerTable.tep_code := Tep.tep_code t;
                   CustomerTable.materials_count :=
                     length (filter (in_tep (Tep.id t)) materials) |})
      (sorted Tep.tep_code (filter (fun t => Text.eqb (Tep.part_code t) pc) teps)).

(** [part_code_map[pc]] *)
Definition part_info (by_code : list (str * str)) (teps : list Tep.row) (materials : table)
  (pc : str) : CustomerTable.Part.t :=
  let teps := tep_entries teps materials pc in
  let default_tep := hd_error teps in
  {| CustomerTable.Part.part_name :=
       match get pc by_code with Some pn => pn | None => [] end;
     CustomerTable.Part.teps := teps;
     CustomerTable.Part.default_tep_id := option_map CustomerTable.tep_id default_tep;
     CustomerTable.Part.default_tep_code :=
       match default_tep with Some t => CustomerTable.tep_code t | None => [] end;
     CustomerTable.Part.default_materials_count :=
       match default_tep with Some t => CustomerTable.materials_count t | None => 0 end |}.

(** The entry of one customer. *)
Definition customer_entry (name : str) (parts : parts_list) (teps : list Tep.row)
  (materials : table) : CustomerTable.customer :=
  let by_code := parts_by_code parts [] in
  let part_code_options := sorted (fun pc => pc) (map fst by_code) in
  let part_code_map :=
    map (fun pc => (pc, part_info by_code teps materials pc)) part_code_options in
  let default_pc := hd [] part_code_options in
  let default := get default_pc part_code_map in
  {| CustomerTable.customer_name := name;
     CustomerTable.part_code_options := part_code_options;
     CustomerTable.default_part_code := default_pc;
     CustomerTable.default_tep_options :=
       match default with Some p => CustomerTable.Part.teps p | None => [] end;
     CustomerTable.default_tep_id :=
       match default with Some p => CustomerTable.Part.default_tep_id p | None => None end;
     CustomerTable.default_tep_code :=
       match default with Some p => CustomerTable.Part.default_tep_code p | None => [] end;
     CustomerTable.default_materials_count :=
       match default with
       | Some p => CustomerTable.Part.default_materials_count p
       | None => 0
       end;
     CustomerTable.part_code_map := part_code_map |}.

(** A customer gets a group, and with it an entry, when the loops touch
    [grouped[name]]: for a dict part with a part code that is not blank,
    or for a TEP code. *)
Definition grouped (parts : parts_list) (teps : list Tep.row) : bool :=
  match parts_by_code parts [], teps with
  | [], [] => false
  | _, _ => true
  end.

Definition build_customer_table
  (qs : list (str * parts_list * list Tep.row)) (materials : table)
  : list CustomerTable.customer :=
  flat_map (fun cust => let '(name, parts, teps) := cust in
                        if grouped parts teps
                        then [customer_entry name parts teps materials]
                        else []) qs.

(** ** The customer tree

    [customers_tree] ([app/api.py]): for every customer of the query, the
    name and the list ["Customer Part"]; a part has its code, its name and
    its list ["TEP Codes"], a TEP code its code and its materials (here
    with the columns of the table). *)
Definition customer_parts (parts : parts_list) (teps : list Tep.row) (materials : table)
  : list (str * str * list (str * list Material)) :=
  flat_map (fun p =>
              match p with
              | NotDict => []
              | PartDict c n =>
                  let partcode := posted c in
                  let partname := posted n in
                  match partcode with
                  | [] => []
                  | _ =>
                      [(partcode, partname,
                        map (fun tep => (Tep.tep_code tep,
                                         filter (in_tep (Tep.id tep)) materials))
                            (filter (fun t => Text.eqb (Tep.part_code t) partcode) teps))]
                  end
              end) parts.

Definition customers_tree
  (qs : list (str * parts_list * list Tep.row)) (materials : table)
  : list (str * list (str * str * list (str * list Material))) :=
  map (fun cust => let '(name, parts, teps) := cust in
                   (name, customer_parts parts teps materials)) qs.

(** ** The master rows of a CSV file

    The loop of [admin_csv_upload] ([app/views.py]) over the rows that
    [csv.DictReader] gives; the rows of [upload_csv] ([app/api.py]) treat
    the master list in the same way before they go on to the customer. *)

(** A row: the value of each column, [None] for a column that the line
    does not reach. *)
Definition csv_row := list (str * option str).

(** [row.get(k)] *)
Definition row_get (k : str) (row : csv_row) : option str :=
  match get k row with
  | Some v => v
  | None => None
  end.

(** [sget(row, *keys, default=default)] *)
Fixpoint sget (row : csv_row) (keys : list str) (default : str) : str :=
  match keys with
  | [] => default
  | k :: keys' =>
      match row_get k row with
      | Some v =>
          match Text.strip v with
          | [] => sget row keys' default
          | stripped => stripped
          end
      | None => sget row keys' default
      end
  end.

(** One row, on the master list and the counters [master_inserted] and
    [master_updated]. *)
Definition master_row (state : MaterialList.table * N * N) (row : csv_row)
  : MaterialList.table * N * N :=
  let '(db, master_inserted, master_updated) := state in
  let mat_partcode := sget row [ "mat_partcode" : str; "material_part_code" : str ] [] in
  let mat_partname := sget row [ "mat_partname" : str; "material_name" : str ] [] in
  let mat_maker := sget row [ "mat_maker" : str; "maker" : str ] [] in
  let unit := Text.lower (sget row [ "unit" : str ] "pc") in
  let unit := if negb (Text.mem unit allowed_units) then "pc" : str else unit in
  match mat_partcode with
  | [] => state
  | _ =>
      match MaterialList.by_partcode mat_partcode db with
      | None =>
          (db ++ [ {| MaterialList.mat_partcode := mat_partcode;
                      MaterialList.mat_partname := str_or mat_partname mat_partcode;
                      MaterialList.mat_maker := str_or mat_maker "Unknown";
                      MaterialList.unit := unit |} ],
           (master_inserted + 1)%N, master_updated)
      | Some master =>
          let '(name, changed) :=
            set_if_new mat_partname (MaterialList.mat_partname master) false in
          let '(maker, changed) :=
            set_if_new mat_maker (MaterialList.mat_maker master) changed in
          let '(unit, changed) := set_if_new unit (MaterialList.unit master) changed in
          if changed
          then (MaterialList.save
                  {| MaterialList.mat_partcode := MaterialList.mat_partcode master;
                     MaterialList.mat_partname := name;
                     MaterialList.mat_maker := maker;
                     MaterialList.unit := unit |} db,
                master_inserted, (master_updated + 1)%N)
          else state
      end
  end.

(** The loop over the rows of the file, from counters at zero. *)
Definition admin_csv_upload_rows (db : MaterialList.table) (rows : list csv_row)
  : MaterialList.table * N * N :=
  fold_left master_row rows (db, 0%N, 0%N).

(** *** Auxiliary notions *)

(** The part code and the TEP code belong to what identifies an item. *)
Definition identified (tep : N) (partcode : str) (i : N * N * str) : bool :=
  N.eqb (snd (fst i)) tep && Text.eqb (snd i) partcode.

(** The month index without the table of full names and without the two
    tests for an empty token. *)
Definition month_of_stripped (s : str) : option Z :=
  match first_prefix (Text.lower s) abbr 0 with
  | Some i => Some i
  | None => numeric_fallback s
  end.

(** A character that no capital letter has for its small letter. *)
Definition caseless (x : ascii) : Prop :=
  forall c, Text.eqb_char (Text.lower_char c) x = Text.eqb_char c x.

(** The invariant of the loop of [_months_label_from_rows]: [seen] and
    [names] hold the same names, [names] has no name twice, and every name
    is the non-empty name of a row. *)
Definition label_invariant (rows : list monthly_row) (acc : list str * list str) : Prop :=
  (forall x, In x (fst acc) <-> In x (snd acc)) /\
  NoDup (snd acc) /\
  (forall x, In x (snd acc) -> x <> [] /\ exists m, In m rows /\ row_name m = Some x).

(** The loop of [Forecast.total_quantity], entered with any total. *)
Definition quantity_from (total : float) (rows : list monthly_row) : float :=
  fold_left (fun total m =>
               match m with
               | Row _ _ quantity =>
                   match float_or_0 quantity with
                   | Some qty => PrimFloat.add total qty
                   | None => total
                   end
               | NotARow => total
               end) rows total.

(** The loop of [Forecast.total_amount], entered with any total. *)
Definition amount_from (total : float) (rows : list monthly_row) : float :=
  fold_left (fun total m =>
               match m with
               | Row _ unit_price quantity =>
                   match float_or_0 unit_price, float_or_0 quantity with
                   | Some price, Some qty => PrimFloat.add total (PrimFloat.mul price qty)
                   | _, _ => total
                   end
               | NotARow => total
               end) rows total.

(** [add_material] from the lookup on, for a part code that is not
    blank and the unit already normalized. *)
Definition settle (db : MaterialList.table) (code name maker u : str)
  : message * MaterialList.table :=
  match MaterialList.by_partcode code db with
  | None =>
      (messages_success ("Added material: " ++ code),
       db ++ [ {| MaterialList.mat_partcode := code;
                  MaterialList.mat_partname := str_or name code;
                  MaterialList.mat_maker := str_or maker "Unknown";
                  MaterialList.unit := u |} ])
  | Some obj =>
      let '(name', changed) := set_if_new name (MaterialList.mat_partname obj) false in
      let '(maker', changed) := set_if_new maker (MaterialList.mat_maker obj) changed in
      let '(unit', changed) := set_if_new u (MaterialList.unit obj) changed in
      if changed
      then (messages_success ("Updated material: " ++ code),
            MaterialList.save
              {| MaterialList.mat_partcode := MaterialList.mat_partcode obj;
                 MaterialList.mat_partname := name';
                 MaterialList.mat_maker := maker';
                 MaterialList.unit := unit' |} db)
      else (messages_info ("No changes for: " ++ code), db)
  end.

(** What a request for the part code, with a name, a maker and a unit,
    leaves in the row of the part code: [None] stands for no row. *)
Definition merged (code name maker u : str) (s : option MaterialList.row)
  : MaterialList.row :=
  match s with
  | None =>
      {| MaterialList.mat_partcode := code;
         MaterialList.mat_partname := str_or name code;
         MaterialList.mat_maker := str_or maker "Unknown";
         MaterialList.unit := u |}
  | Some r =>
      {| MaterialList.mat_partcode := MaterialList.mat_partcode r;
         MaterialList.mat_partname := str_or name (MaterialList.mat_partname r);
         MaterialList.mat_maker := str_or maker (MaterialList.mat_maker r);
         MaterialList.unit := str_or u (MaterialList.unit r) |}
  end.

(** The request that a row of a file makes: part code, name, maker and
    unit. *)
Definition request_of (row : csv_row) : str * str * str * str :=
  (sget row [ "mat_partcode" : str; "material_part_code" : str ] [],
   sget row [ "mat_partname" : str; "material_name" : str ] [],
   sget row [ "mat_maker" : str; "maker" : str ] [],
   if negb (Text.mem (Text.lower (sget row [ "unit" : str ] "pc")) allowed_units)
   then "pc" : str else Text.lower (sget row [ "unit" : str ] "pc")).

(** The table after a request. *)
Definition settled (db : MaterialList.table) (q : str * str * str * str)
  : MaterialList.table :=
  let '(code, name, maker, u) := q in
  match code with
  | [] => db
  | _ => snd (settle db code name maker u)
  end.

(** The requests of a file on the row of one part code. *)
Definition on_code (c : str) (s : option MaterialList.row) (q : str * str * str * str)
  : option MaterialList.row :=
  let '(code, name, maker, u) := q in
  match code with
  | [] => s
  | _ => if Text.eqb c code then Some (merged code name maker u s) else s
  end.

(** A request whose part code the table holds adds no row. *)
Definition present (db : MaterialList.table) (q : str * str * str * str) : Prop :=
  fst (fst (fst q)) = [] \/ MaterialList.by_partcode (fst (fst (fst q))) db <> None.

(** A text either kept or replaced by a fixed one. *)
Definition kept_or_fixed (g : str -> str) : Prop :=
  (forall x, g x = x) \/ (exists k, forall x, g x = k).

(** A change of a row that keeps the part code and treats each other
    field in that way. *)
Definition fieldwise (f : MaterialList.row -> MaterialList.row) : Prop :=
  exists gn gm gu,
    kept_or_fixed gn /\ kept_or_fixed gm /\ kept_or_fixed gu /\
    forall r, f r = {| MaterialList.mat_partcode := MaterialList.mat_partcode r;
                       MaterialList.mat_partname := gn (MaterialList.mat_partname r);
                       MaterialList.mat_maker := gm (MaterialList.mat_maker r);
                       MaterialList.unit := gu (MaterialList.unit r) |}.

(** * Properties *)

(** ** Examples *)

Example strip_example : Text.strip "  Tape  A " = "Tape  A".
Proof. reflexivity. Qed.

Example normalize_example : _normalize_space (Some (" Heat   shrink  tube " : str)) = "Heat shrink tube".
Proof. reflexivity. Qed.

Example split_example :
  Text.split "-" "1-2026-x" = ["1" : str; "2026" : str; "x" : str].
Proof. reflexivity. Qed.

Example int_example :
  Text.int " +1_2 " = Some 12%Z /\ Text.int "1__2" = None /\ Text.int "" = None /\
  Text.int "007" = Some 7%Z /\ Text.int "-3" = Some (-3)%Z /\ Text.int "1/2" = None.
Proof. repeat split; reflexivity. Qed.

Example str_of_N_example : Text.str_of_N 120 = "120" /\ Text.str_of_N 0 = "0".
Proof. split; reflexivity. Qed.

Example lower_example : Text.lower "TaPe 1." = "tape 1.".
Proof. reflexivity. Qed.

Example escape_example : Re.escape "A.B (x)" = "A\.B\ \(x\)".
Proof. reflexivity. Qed.

(** Without [re.escape] the dot of the base would match any character, and
    an open parenthesis would make the pattern invalid. *)
Example unescaped_dot_matches :
  iregex ("^" ++ "A.B" ++ "( \d+)?$") "AXB" = Some true /\
  iregex (iregex_pattern "A.B") "AXB" = Some false.
Proof. split; vm_compute; reflexivity. Qed.

Example unescaped_parenthesis_fails :
  Re.compile ("^" ++ "A(B" ++ "( \d+)?$") = None /\
  Re.compile (iregex_pattern "A(B") <> None.
Proof. split; vm_compute; [reflexivity | discriminate]. Qed.

Example ensure_example :
  _ensure_customer_part_entry [PartDict (Some ("P1" : str)) (Some ("Tape" : str))] "P2" " tape "
  = Some (true, "tape 1" : str,
          [PartDict (Some ("P1" : str)) (Some ("Tape" : str));
           PartDict (Some ("P2" : str)) (Some ("tape 1" : str))]).
Proof. reflexivity. Qed.

Example range_totals_example :
  _range_totals
    [Row "Jan-2026" (Number 10) (Number 5); Row "Feb-2026" (Number 20) (Number 2);
     Row "Mar-2026" (Number 5) (Number 100)] (Some 1%Z) (Some 2%Z)
  = (7%float, 90%float).
Proof. vm_compute. reflexivity. Qed.

Example months_label_example :
  _months_label_from_rows
    [Row "Feb-2026" Missing Missing; Row "1/2026" Missing Missing; NotARow;
     Row "february" Missing Missing; Row " Q3 " Missing Missing]
  = Joined "February, January, Q3".
Proof. vm_compute. reflexivity. Qed.

Example month_index_forms :
  map _month_index_from_string
      ["JAN" : str; "January" : str; " sept 2026" : str; "1" : str; "01/2026" : str;
       "3-2026" : str; "0" : str; "Q1" : str; "mayhem" : str]
  = [Some 1%Z; Some 1%Z; Some 9%Z; Some 1%Z; Some 1%Z; Some 3%Z; None; None; Some 5%Z].
Proof. vm_compute. reflexivity. Qed.
(** ** Characters and text *)

Module TextFacts.
Import Text.

Ltac each_char c :=
  destruct c as [[] [] [] [] [] [] [] []]; vm_compute; try reflexivity; try discriminate; auto.

Lemma eqb_char_eq (a b : ascii) : eqb_char a b = true <-> a = b.
Proof. apply Ascii.eqb_eq. Qed.

Lemma eqb_char_refl (a : ascii) : eqb_char a a = true.
Proof. apply Ascii.eqb_refl. Qed.

Lemma eqb_eq (a b : str) : eqb a b = true <-> a = b.
Proof.
  revert b; induction a as [|x a IH]; intros [|y b]; simpl; split;
    try discriminate; try reflexivity.
  - rewrite andb_true_iff, eqb_char_eq, IH. intros [-> ->]; reflexivity.
  - intros E; injection E as -> ->. rewrite eqb_char_refl; simpl. now apply IH.
Qed.

Lemma eqb_refl (a : str) : eqb a a = true.
Proof. now apply eqb_eq. Qed.

Lemma eqb_neq (a b : str) : eqb a b = false <-> a <> b.
Proof.
  split.
  - intros E H. apply eqb_eq in H. congruence.
  - intros H. destruct (eqb a b) eqn:E; [apply eqb_eq in E; contradiction | reflexivity].
Qed.

Lemma mem_In (x : str) (l : list str) : mem x l = true <-> In x l.
Proof.
  unfold mem. rewrite existsb_exists. split.
  - intros (y & Hy & E). apply eqb_eq in E. now subst.
  - intros H. exists x. split; [assumption | apply eqb_refl].
Qed.

Lemma mem_false (x : str) (l : list str) : mem x l = false <-> ~ In x l.
Proof.
  rewrite <- mem_In. destruct (mem x l); split; congruence.
Qed.

Lemma lower_char_idem (c : ascii) : lower_char (lower_char c) = lower_char c.
Proof. each_char c. Qed.

Lemma isspace_lower_char (c : ascii) : isspace (lower_char c) = isspace c.
Proof. each_char c. Qed.

Lemma isdigit_lower_char (c : ascii) : isdigit (lower_char c) = isdigit c.
Proof. each_char c. Qed.

Lemma lower_char_digit (c : ascii) : isdigit c = true -> lower_char c = c.
Proof. each_char c. Qed.

Lemma lower_char_to_digit (c : ascii) : isdigit (lower_char c) = true -> lower_char c = c.
Proof. each_char c. Qed.

Lemma lower_char_to_space (c : ascii) : lower_char c = " "%char -> c = " "%char.
Proof. each_char c. Qed.

Lemma digit_not_space (c : ascii) : isdigit c = true -> isspace c = false.
Proof. each_char c. Qed.

Lemma lower_app (a b : str) : lower (a ++ b) = lower a ++ lower b.
Proof. apply map_app. Qed.

Lemma lower_idem (s : str) : lower (lower s) = lower s.
Proof.
  unfold lower. rewrite map_map. apply map_ext. intros; apply lower_char_idem.
Qed.

Lemma lower_length (s : str) : length (lower s) = length s.
Proof. apply length_map. Qed.

Lemma lower_digits (ds : str) : forallb isdigit ds = true -> lower ds = ds.
Proof.
  induction ds as [|d ds IH]; simpl; [reflexivity|].
  rewrite andb_true_iff. intros [Hd Hds].
  now rewrite lower_char_digit, IH.
Qed.

(** A string that lower-cases to digits is these digits. *)
Lemma lower_to_digits (s ds : str) :
  forallb isdigit ds = true -> lower s = ds -> s = ds.
Proof.
  revert ds; induction s as [|c s IH]; intros [|d ds]; simpl; try discriminate; auto.
  rewrite andb_true_iff. intros [Hd Hds] E. injection E as E1 E2.
  f_equal; [|now apply IH].
  rewrite <- E1 in Hd |- *. symmetry. now apply lower_char_to_digit.
Qed.

End TextFacts.

(** ** Decimal numerals *)

Module NumeralFacts.
Import Text.

Lemma string_of_uint_digits (d : uint) :
  forallb isdigit (list_ascii_of_string (NilEmpty.string_of_uint d)) = true.
Proof. induction d; simpl; auto. Qed.

Lemma str_of_N_digits (n : N) : forallb isdigit (str_of_N n) = true.
Proof. apply string_of_uint_digits. Qed.

Lemma N_of_digits_str_of_N (n : N) : N_of_digits (str_of_N n) = Some n.
Proof.
  unfold N_of_digits, str_of_N.
  rewrite string_of_list_ascii_of_string, NilEmpty.usu. simpl.
  rewrite DecimalN.Unsigned.of_to.
  destruct (list_ascii_of_string _) eqn:E; [|reflexivity].
  exfalso.
  assert (H : NilEmpty.string_of_uint (N.to_uint n) = EmptyString).
  { rewrite <- (string_of_list_ascii_of_string (NilEmpty.string_of_uint _)), E. reflexivity. }
  destruct n as [|p]; [discriminate|].
  pose proof (DecimalN.Unsigned.of_to (N.pos p)) as R.
  destruct (N.to_uint (N.pos p)); simpl in H; try discriminate.
Qed.

Lemma str_of_N_nonempty (n : N) : str_of_N n <> [].
Proof.
  intros E. pose proof (N_of_digits_str_of_N n) as H. rewrite E in H. discriminate.
Qed.

Lemma str_of_N_inj (n m : N) : str_of_N n = str_of_N m -> n = m.
Proof.
  intros E. pose proof (N_of_digits_str_of_N n) as H.
  rewrite E, N_of_digits_str_of_N in H. congruence.
Qed.

(** [int] cannot fail on a non-empty string of digits. *)
Lemma N_of_digits_total (ds : str) :
  ds <> [] -> forallb isdigit ds = true -> exists n, N_of_digits ds = Some n.
Proof.
  intros Hne Hd. unfold N_of_digits. destruct ds as [|d ds]; [contradiction|].
  clear Hne.
  assert (H : forall l, forallb isdigit l = true ->
                        exists u, NilEmpty.uint_of_string (string_of_list_ascii l) = Some u).
  { clear. induction l as [|c l IH]; simpl; [eauto|].
    rewrite andb_true_iff. intros [Hc Hl]. destruct (IH Hl) as [u ->].
    revert Hc. clear. destruct c as [[] [] [] [] [] [] [] []]; vm_compute; try discriminate; eauto. }
  destruct (H _ Hd) as [u ->]. simpl. eauto.
Qed.

End NumeralFacts.

(** ** White space *)

Module SpaceFacts.
Import Text TextFacts.

Lemma rstrip_cons_fixed (c : ascii) (t : str) :
  rstrip (c :: t) = c :: t -> rstrip t = t /\ (t = [] -> isspace c = false).
Proof.
  simpl. destruct (rstrip t) as [|d r] eqn:E.
  - destruct (isspace c); [discriminate|]. intros H; injection H as <-. auto.
  - intros H; injection H as <-. split; [reflexivity | discriminate].
Qed.

Lemma rstrip_idem (s : str) : rstrip (rstrip s) = rstrip s.
Proof.
  induction s as [|c t IH]; simpl; [reflexivity|].
  destruct (rstrip t) as [|d r] eqn:E.
  - destruct (isspace c) eqn:Hc; simpl; [reflexivity | now rewrite Hc].
  - simpl in *. destruct (rstrip r) eqn:E'.
    + destruct (isspace d); [discriminate|]. now rewrite IH.
    + now rewrite IH.
Qed.

Lemma lstrip_head (s : str) :
  match lstrip s with
  | [] => True
  | c :: _ => isspace c = false
  end.
Proof.
  induction s as [|c t IH]; simpl; [exact I|].
  destruct (isspace c) eqn:Hc; [exact IH | exact Hc].
Qed.

Lemma rstrip_head (s : str) :
  match s with
  | c :: _ => isspace c = false ->
              match rstrip s with c' :: _ => c' = c | [] => False end
  | [] => True
  end.
Proof.
  destruct s as [|c t]; [exact I|]. simpl. intros Hc.
  destruct (rstrip t); [now rewrite Hc | reflexivity].
Qed.

Lemma strip_head (s : str) :
  match strip s with
  | [] => True
  | c :: _ => isspace c = false
  end.
Proof.
  unfold strip. pose proof (lstrip_head s) as H. pose proof (rstrip_head (lstrip s)) as R.
  destruct (lstrip s) as [|c t]; [exact I|].
  specialize (R H). destruct (rstrip (c :: t)); [exact I | now subst].
Qed.

Lemma strip_rstrip_fixed (s : str) : rstrip (strip s) = strip s.
Proof. apply rstrip_idem. Qed.

(** After [in_run = true] the substitution starts with a character that
    is not white space. *)
Lemma sub_spaces_tidy (t : str) :
  rstrip t = t ->
  tidy_tail (sub_spaces false t) = true /\
  match sub_spaces true t with
  | [] => t = []
  | d :: r => isspace d = false /\ tidy_tail r = true
  end.
Proof.
  induction t as [|c t IH]; intros H; [simpl; auto|].
  apply rstrip_cons_fixed in H. destruct H as [Ht Hc].
  destruct (IH Ht) as [IH1 IH2]. simpl.
  destruct (isspace c) eqn:Ec.
  - destruct t as [|d t'].
    + specialize (Hc eq_refl). congruence.
    + destruct (sub_spaces true (d :: t')) as [|e r] eqn:E; [discriminate|].
      destruct IH2 as [He Hr]. split.
      * simpl. rewrite He. exact Hr.
      * auto.
  - split.
    + simpl. rewrite Ec. exact IH1.
    + auto.
Qed.

Lemma tidy_normalize (s : option str) : tidy (_normalize_space s) = true.
Proof.
  unfold _normalize_space. set (v := match s with Some v => v | None => [] end).
  pose proof (strip_head v) as Hh. pose proof (strip_rstrip_fixed v) as Hr.
  destruct (strip v) as [|c t] eqn:E; [reflexivity|].
  destruct (sub_spaces_tidy _ Hr) as [H1 _].
  cbn [sub_spaces] in H1 |- *. rewrite Hh in H1 |- *.
  cbn [tidy tidy_tail] in H1 |- *. rewrite Hh in H1 |- *. exact H1.
Qed.

Lemma tidy_tail_rstrip (t : str) : tidy_tail t = true -> rstrip t = t.
Proof.
  induction t as [|c t IH]; simpl; [reflexivity|].
  destruct (isspace c) eqn:Ec.
  - rewrite andb_true_iff. intros [_ H]. destruct t as [|d t']; [discriminate|].
    apply andb_true_iff in H. destruct H as [_ H].
    rewrite (IH H). reflexivity.
  - intros H. rewrite (IH H). destruct t; reflexivity.
Qed.

Lemma tidy_tail_sub (t : str) : tidy_tail t = true -> sub_spaces false t = t.
Proof.
  induction t as [|c t IH]; simpl; [reflexivity|].
  destruct (isspace c) eqn:Ec.
  - rewrite andb_true_iff. intros [Hc H]. destruct t as [|d t']; [discriminate|].
    apply andb_true_iff in H. destruct H as [Hd H].
    apply eqb_char_eq in Hc. subst c.
    specialize (IH H). simpl in IH |- *.
    apply negb_true_iff in Hd. rewrite Hd in *. now rewrite IH.
  - intros H. now rewrite (IH H).
Qed.

(** A tidy string is left alone. *)
Lemma normalize_tidy (s : str) : tidy s = true -> _normalize_space (Some s) = s.
Proof.
  unfold _normalize_space, strip. destruct s as [|c t]; [reflexivity|].
  simpl tidy. rewrite andb_true_iff, negb_true_iff. intros [Hc Ht].
  assert (L : lstrip (c :: t) = c :: t) by (simpl; now rewrite Hc).
  rewrite L.
  assert (R : rstrip (c :: t) = c :: t).
  { apply tidy_tail_rstrip. simpl. now rewrite Hc. }
  rewrite R. apply tidy_tail_sub. simpl. now rewrite Hc.
Qed.

Lemma normalize_idem (s : option str) :
  _normalize_space (Some (_normalize_space s)) = _normalize_space s.
Proof. apply normalize_tidy, tidy_normalize. Qed.

Lemma tidy_tail_digits (ds : str) : forallb isdigit ds = true -> tidy_tail ds = true.
Proof.
  induction ds as [|d ds IH]; simpl; [reflexivity|].
  rewrite andb_true_iff. intros [Hd Hds]. rewrite (digit_not_space d Hd). auto.
Qed.

End SpaceFacts.

(** ** The customer parts list *)

Module PartsFacts.
Import Text TextFacts NumeralFacts SpaceFacts.

Lemma existing_names_length (parts : parts_list) :
  length (existing_names parts) <= length parts.
Proof.
  induction parts as [|[|c n] parts IH]; simpl; [lia | lia |].
  destruct (_normalize_space n); simpl; lia.
Qed.

Lemma lower_numbered_inj (base_name : str) (a b : N) :
  lower (numbered base_name a) = lower (numbered base_name b) -> a = b.
Proof.
  unfold numbered. rewrite !lower_app. intros E.
  apply app_inv_head in E. apply app_inv_head in E.
  rewrite !lower_digits in E by apply str_of_N_digits.
  now apply str_of_N_inj.
Qed.

Lemma numbered_nonempty (base_name : str) (i : N) : numbered base_name i <> [].
Proof.
  unfold numbered. destruct base_name; simpl; discriminate.
Qed.

(** What the loop returns, for any bound. *)
Lemma suffix_search_spec (fuel : nat) (base_name : str) (used : list str) (i : N) :
  match suffix_search fuel base_name used i with
  | Some c =>
      exists k, k < fuel /\ c = numbered base_name (i + N.of_nat k) /\
                ~ In (lower c) used /\
                forall j, j < k -> In (lower (numbered base_name (i + N.of_nat j))) used
  | None =>
      forall k, k < fuel -> In (lower (numbered base_name (i + N.of_nat k))) used
  end.
Proof.
  revert i; induction fuel as [|fuel IH]; intros i; simpl; [intros; lia|].
  destruct (mem (lower (numbered base_name i)) used) eqn:M; simpl.
  - apply mem_In in M. specialize (IH (i + 1)%N).
    destruct (suffix_search fuel base_name used (i + 1)) as [c|].
    + destruct IH as (k & Hk & -> & Hfree & Hbelow).
      exists (S k). repeat split.
      * lia.
      * f_equal. lia.
      * replace (i + N.of_nat (S k))%N with (i + 1 + N.of_nat k)%N in * by lia. exact Hfree.
      * intros [|j] Hj.
        -- now rewrite N.add_0_r.
        -- replace (i + N.of_nat (S j))%N with (i + 1 + N.of_nat j)%N by lia.
           apply Hbelow. lia.
    + intros [|k] Hk.
      * now rewrite N.add_0_r.
      * replace (i + N.of_nat (S k))%N with (i + 1 + N.of_nat k)%N by lia.
        apply IH. lia.
  - apply mem_false in M. exists 0. rewrite N.add_0_r.
    repeat split; [lia | exact M | intros; lia].
Qed.

Lemma NoDup_map_injective {A B : Type} (f : A -> B) (l : list A) :
  (forall a b, f a = f b -> a = b) -> NoDup l -> NoDup (map f l).
Proof.
  intros Hf. induction 1 as [|x l Hx Hl IH]; simpl; constructor; [|exact IH].
  intros Hin. apply in_map_iff in Hin. destruct Hin as (y & E & Hy).
  apply Hf in E. now subst.
Qed.

(** More candidates than used names: one of them is free. *)
Lemma suffix_search_finds (base_name : str) (used : list str) (fuel : nat) :
  length used < fuel -> suffix_search fuel base_name used 1 <> None.
Proof.
  intros Hlen E. pose proof (suffix_search_spec fuel base_name used 1) as H.
  rewrite E in H.
  set (cands := map (fun k => lower (numbered base_name (1 + N.of_nat k))) (seq 0 fuel)).
  assert (Hnd : NoDup cands).
  { apply NoDup_map_injective; [|apply seq_NoDup].
    intros a b Hab. apply lower_numbered_inj in Hab. lia. }
  assert (Hincl : incl cands used).
  { intros x Hx. apply in_map_iff in Hx. destruct Hx as (k & <- & Hk).
    apply in_seq in Hk. apply H. lia. }
  pose proof (NoDup_incl_length Hnd Hincl) as L.
  unfold cands in L. rewrite length_map, length_seq in L. lia.
Qed.

Lemma find_app {A : Type} (f : A -> bool) (l l' : list A) :
  find f (l ++ l') = match find f l with Some x => Some x | None => find f l' end.
Proof.
  induction l as [|x l IH]; simpl; [reflexivity|]. now destruct (f x).
Qed.

Lemma tidy_str_or (a b : str) : tidy a = true -> tidy b = true -> tidy (str_or a b) = true.
Proof. destruct a; simpl; auto. Qed.

Lemma tidy_tail_snoc (t x : str) :
  tidy_tail t = true ->
  match x with d :: _ => isspace d = false | [] => False end ->
  tidy_tail x = true ->
  tidy_tail (t ++ " "%char :: x) = true.
Proof.
  intros Ht Hx Hxt. induction t as [|c t IH].
  - destruct x as [|d x]; [contradiction|]. simpl in *. now rewrite Hx in *.
  - simpl in Ht |- *. destruct (isspace c) eqn:Ec.
    + apply andb_true_iff in Ht. destruct Ht as [Hc Ht].
      destruct t as [|e t]; [discriminate|].
      apply andb_true_iff in Ht. destruct Ht as [He Ht].
      rewrite Hc. rewrite (IH Ht). simpl. now rewrite He.
    + now apply IH.
Qed.

Lemma tidy_numbered (base_name : str) (i : N) :
  tidy base_name = true -> base_name <> [] -> tidy (numbered base_name i) = true.
Proof.
  intros Ht Hne. destruct base_name as [|c t]; [contradiction|].
  unfold numbered. simpl in Ht |- *. apply andb_true_iff in Ht. destruct Ht as [Hc Ht].
  rewrite Hc. simpl.
  pose proof (str_of_N_digits i) as Hd. pose proof (str_of_N_nonempty i) as Hn.
  apply tidy_tail_snoc; [exact Ht | | now apply tidy_tail_digits].
  destruct (str_of_N i) as [|d ds]; [contradiction|].
  simpl in Hd. apply andb_true_iff in Hd. now apply digit_not_space.
Qed.

(** The name chosen for a part code that is not yet declared. *)
Lemma unique_partname_fresh (parts : parts_list) (base_name part_code : str) :
  tidy base_name = true -> tidy part_code = true ->
  find (has_partcode part_code) parts = None ->
  exists u, _unique_partname_for_customer parts base_name part_code = Some u /\
            tidy u = true /\ (u = [] -> base_name = []).
Proof.
  intros Hb Hc Hf. unfold _unique_partname_for_customer.
  rewrite !normalize_tidy by assumption. rewrite Hf.
  destruct (negb (mem (lower base_name) (existing_names parts))) eqn:M.
  - exists base_name. auto.
  - pose proof (suffix_search_spec (S (length parts)) base_name (existing_names parts) 1) as H.
    destruct (suffix_search (S (length parts)) base_name (existing_names parts) 1) as [u|] eqn:E.
    + destruct H as (k & _ & -> & _). exists (numbered base_name (1 + N.of_nat k)).
      split; [reflexivity|]. split.
      * apply tidy_numbered; [assumption|].
        intros ->. simpl in M. apply negb_false_iff, mem_In in M.
        clear - M. induction parts as [|[|c n] parts IH]; simpl in M; auto.
        destruct (_normalize_space n) eqn:En; [auto|].
        destruct M as [M|M]; [discriminate | auto].
      * intros Hu. now apply numbered_nonempty in Hu.
    + exfalso. revert E. apply suffix_search_finds.
      pose proof (existing_names_length parts). lia.
Qed.

End PartsFacts.

(** C10. The suffix search of [_unique_partname_for_customer] terminates:
    within [length parts + 1] iterations the loop returns the candidate
    [base_name i] with the least [i >= 1] whose lower-cased form is not a
    used name, so [i <= length parts + 1]; and the whole function returns a
    name. *)
Theorem suffix_search_terminates (parts : parts_list) (base_name part_code : str) :
  (exists i : N,
      (1 <= i <= N.of_nat (length parts) + 1)%N /\
      suffix_search (S (length parts)) base_name (existing_names parts) 1
        = Some (numbered base_name i) /\
      ~ In (Text.lower (numbered base_name i)) (existing_names parts) /\
      forall j : N, (1 <= j < i)%N ->
                    In (Text.lower (numbered base_name j)) (existing_names parts))
  /\ exists name, _unique_partname_for_customer parts base_name part_code = Some name.
Proof.
  assert (F : forall b, suffix_search (S (length parts)) b (existing_names parts) 1 <> None).
  { intros b. apply PartsFacts.suffix_search_finds.
    pose proof (PartsFacts.existing_names_length parts). lia. }
  split.
  - pose proof (PartsFacts.suffix_search_spec
                  (S (length parts)) base_name (existing_names parts) 1) as H.
    destruct (suffix_search (S (length parts)) base_name (existing_names parts) 1) as [c|] eqn:E.
    + destruct H as (k & Hk & -> & Hfree & Hbelow).
      exists (1 + N.of_nat k)%N. repeat split; try lia; try assumption.
      intros j Hj. replace j with (1 + N.of_nat (N.to_nat (j - 1)))%N by lia.
      apply Hbelow. lia.
    + now apply F in E.
  - unfold _unique_partname_for_customer.
    destruct (find _ parts); [eauto|].
    destruct (negb _); [eauto|].
    specialize (F (_normalize_space (Some base_name))).
    destruct (suffix_search _ _ _ _); [eauto | contradiction].
Qed.

(** C5. Declaring a part code a second time with the same arguments
    reports no change, returns the name of the first call and leaves the
    parts list as the first call left it. *)
Theorem ensure_customer_part_entry_idempotent
  (parts : parts_list) (part_code part_name : str) :
  exists (changed : bool) (used : str) (parts' : parts_list),
    _ensure_customer_part_entry parts part_code part_name = Some (changed, used, parts') /\
    _ensure_customer_part_entry parts' part_code part_name = Some (false, used, parts').
Proof.
  unfold _ensure_customer_part_entry.
  set (pc := _normalize_space (Some part_code)).
  set (pn := str_or (_normalize_space (Some part_name)) pc).
  assert (Tpc : tidy pc = true) by apply SpaceFacts.tidy_normalize.
  assert (Tpn : tidy pn = true).
  { apply PartsFacts.tidy_str_or; [apply SpaceFacts.tidy_normalize | exact Tpc]. }
  destruct (find (has_partcode pc) parts) as [p|] eqn:F.
  - exists false, (str_or (_normalize_space (get_Partname p)) pn), parts.
    split; [reflexivity|]. now rewrite F.
  - destruct (PartsFacts.unique_partname_fresh parts pn pc Tpn Tpc F) as (u & -> & Tu & Hu).
    exists true, u, (parts ++ [PartDict (Some pc) (Some u)]).
    split; [reflexivity|].
    rewrite PartsFacts.find_app, F. simpl.
    rewrite (SpaceFacts.normalize_tidy pc Tpc), TextFacts.eqb_refl. simpl.
    rewrite (SpaceFacts.normalize_tidy u Tu).
    destruct u; [now rewrite Hu | reflexivity].
Qed.

(** ** Patterns *)

Module ReFacts.
Import Text TextFacts Re.

Ltac each_ascii c tac :=
  destruct c as [[] [] [] [] [] [] [] []]; tac.

Lemma special_not_alnum (c : ascii) : special c = true -> isalnum_ascii c = false.
Proof. each_ascii c ltac:(vm_compute; intros; congruence). Qed.

(** A character that [re.escape] leaves alone stands for itself. *)
Lemma lex_plain (c : ascii) (t : str) :
  special c = false -> lex (c :: t) = option_map (cons (TChar c)) (lex t).
Proof.
  intros H.
  each_ascii c ltac:(first [ vm_compute in H; discriminate H | reflexivity ]).
Qed.

(** A backslashed special character stands for itself. *)
Lemma lex_escaped (c : ascii) (t : str) :
  special c = true ->
  lex ("\"%char :: c :: t) = option_map (cons (TChar c)) (lex t).
Proof.
  intros H. apply special_not_alnum in H.
  change (lex ("\"%char :: c :: t))
    with (if isalnum_ascii c
          then if ischar c "d" then option_map (cons TDigit) (lex t) else None
          else option_map (cons (TChar c)) (lex t)).
  now rewrite H.
Qed.

(** The escaped text is read back as its characters, whatever follows. *)
Lemma lex_escape_app (base rest : str) :
  lex (escape base ++ rest) = option_map (List.app (map TChar base)) (lex rest).
Proof.
  induction base as [|c base IH]; simpl escape.
  - simpl. now destruct (lex rest).
  - destruct (special c) eqn:S.
    + change (("\"%char :: c :: escape base) ++ rest)
        with ("\"%char :: c :: escape base ++ rest).
      rewrite (lex_escaped c _ S), IH. now destruct (lex rest).
    + change ((c :: escape base) ++ rest) with (c :: escape base ++ rest).
      rewrite (lex_plain c _ S), IH. now destruct (lex rest).
Qed.

Lemma postfix_neutral (a : regex) (ts : list token) :
  neutral ts -> postfix a ts = Some (a, ts).
Proof. destruct ts as [|[] ts]; simpl; intros H; try reflexivity; contradiction. Qed.

Lemma parse_seq_char (fuel groups : nat) (c : ascii) (ts : list token) :
  neutral ts ->
  parse_seq (S fuel) groups (TChar c :: ts)
  = match parse_seq fuel groups ts with
    | Some (r, groups2, ts3) => Some (Seq (Chr c) r, groups2, ts3)
    | None => None
    end.
Proof.
  intros H. simpl. now rewrite (postfix_neutral _ _ H).
Qed.

(** Literal characters parse to [literal]. *)
Lemma parse_seq_literal (base : str) (fuel groups : nat) (ts : list token)
  (r : regex) (groups' : nat) (ts' : list token) :
  neutral ts ->
  parse_seq fuel groups ts = Some (r, groups', ts') ->
  parse_seq (length base + fuel) groups (map TChar base ++ ts)
  = Some (literal base r, groups', ts').
Proof.
  intros N P. induction base as [|c base IH]; [exact P|].
  change (length (c :: base) + fuel) with (S (length base + fuel)).
  change (map TChar (c :: base) ++ ts) with (TChar c :: map TChar base ++ ts).
  rewrite parse_seq_char.
  - now rewrite IH.
  - destruct base; [exact N | exact I].
Qed.

Lemma parse_iregex_tail (fuel : nat) :
  parse_seq (8 + fuel) 0 [TOpen true; TChar " "; TDigit; TPlus; TClose; TOpt; TEol]
  = Some (iregex_tail, 1, []).
Proof. reflexivity. Qed.

Lemma parse_match_tail (fuel : nat) :
  parse_seq (9 + fuel) 0
    [TOpen false; TChar " "; TOpen true; TDigit; TPlus; TClose; TClose; TOpt; TEol]
  = Some (match_tail, 1, []).
Proof. reflexivity. Qed.

Lemma compile_anchored (base suffix : str) (ts : list token) (tail : regex) (need : nat) :
  lex suffix = Some ts -> neutral ts -> need <= length ts + 2 ->
  (forall fuel, parse_seq (need + fuel) 0 ts = Some (tail, 1, [])) ->
  compile ("^" ++ escape base ++ suffix) = Some (Seq Bol (literal base tail)).
Proof.
  intros L N B P. unfold compile.
  change (list_ascii_of_string "^" ++ escape base ++ suffix)
    with ("^"%char :: escape base ++ suffix).
  change (lex ("^"%char :: escape base ++ suffix))
    with (option_map (cons TBol) (lex (escape base ++ suffix))).
  rewrite lex_escape_app, L. simpl option_map.
  set (all := TBol :: map TChar base ++ ts). cbv beta iota.
  assert (F : 2 * length all + 2
              = S (S (length base + (need + (length base + (2 * length ts + 2 - need)))))).
  { unfold all. simpl length. rewrite length_app, length_map. lia. }
  rewrite F. unfold all.
  pose proof (parse_seq_literal base _ 0 ts tail 1 [] N
                (P (length base + (2 * length ts + 2 - need)))) as Q.
  remember (length base + (need + (length base + (2 * length ts + 2 - need)))) as f.
  simpl. rewrite postfix_neutral.
  - now rewrite Q.
  - destruct base; [exact N | exact I].
Qed.

(** Neither pattern can fail to compile, whatever the base. *)
Lemma compile_iregex_pattern (base : str) :
  compile (iregex_pattern base) = Some (iregex_compiled base).
Proof.
  unfold iregex_pattern, iregex_compiled.
  apply (compile_anchored base _
           [TOpen true; TChar " "; TDigit; TPlus; TClose; TOpt; TEol] iregex_tail 8).
  - reflexivity.
  - exact I.
  - simpl. lia.
  - apply parse_iregex_tail.
Qed.

Lemma compile_match_pattern (base : str) :
  compile (match_pattern base) = Some (match_compiled base).
Proof.
  unfold match_pattern, match_compiled.
  apply (compile_anchored base _
           [TOpen false; TChar " "; TOpen true; TDigit; TPlus; TClose; TClose; TOpt; TEol]
           match_tail 9).
  - reflexivity.
  - exact I.
  - simpl. lia.
  - apply parse_match_tail.
Qed.

End ReFacts.

(** ** Matching the two patterns *)

Module MatchFacts.
Import Text TextFacts Re ReFacts.

Lemma same_lower (a b : ascii) : same true a b = true <-> lower_char a = lower_char b.
Proof. unfold same. apply eqb_char_eq. Qed.

Lemma same_space (c : ascii) : same true " " c = eqb_char c " ".
Proof. each_ascii c ltac:(reflexivity). Qed.

Lemma digit_not_newline (d : ascii) : isdigit d = true -> eqb_char d newline = false.
Proof. each_ascii d ltac:(vm_compute; intros; congruence). Qed.

Lemma take_skip_digits (t : str) : take_digits t ++ skip_digits t = t.
Proof.
  induction t as [|d t IH]; simpl; [reflexivity|].
  destruct (isdigit d); simpl; [now rewrite IH | reflexivity].
Qed.

Lemma take_digits_digits (t : str) : forallb isdigit (take_digits t) = true.
Proof.
  induction t as [|d t IH]; simpl; [reflexivity|].
  destruct (isdigit d) eqn:E; simpl; [now rewrite E | reflexivity].
Qed.

Lemma skip_digits_length (t : str) : length (skip_digits t) <= length t.
Proof.
  induction t as [|d t IH]; simpl; [lia|]. destruct (isdigit d); simpl; lia.
Qed.

(** The literal part of a compiled pattern reads the base, whatever its
    case, and goes on with the tail. *)
Lemma run_literal (base : str) (tail : regex) (s : bool) (x : str)
  (g : list (nat * str)) (k : kont) :
  run true (literal base tail) {| at_start := s; rest := x; groups := g |} k
  = match after_base base x with
    | Some y =>
        run true tail
            {| at_start := match base with [] => s | _ => false end;
               rest := y; groups := g |} k
    | None => None
    end.
Proof.
  revert s x; induction base as [|c base IH]; intros s x; [reflexivity|].
  cbn [literal fold_right run rest after_base]. fold (literal base tail).
  destruct x as [|c' x]; [reflexivity|].
  destruct (same true c c'); [|reflexivity].
  unfold advance. cbn [groups]. rewrite IH. destruct (after_base base x); [|reflexivity].
  now destruct base.
Qed.

(** Greedy [\d*] followed by such a continuation reads all the digits. *)
Lemma star_digits (ignorecase : bool) (k : kont) (n : nat) (s : bool) (t : str)
  (g : list (nat * str)) :
  stops_at_digit k -> length t <= n ->
  star_loop (run ignorecase Digit) k n {| at_start := s; rest := t; groups := g |}
  = k {| at_start := match take_digits t with [] => s | _ => false end;
         rest := skip_digits t; groups := g |}.
Proof.
  intros K. revert s t; induction n as [|n IH]; intros s t L.
  - destruct t; [reflexivity | simpl in L; lia].
  - destruct t as [|d t]; [reflexivity|].
    simpl in L. simpl. destruct (isdigit d) eqn:D; [|reflexivity].
    unfold advance. simpl.
    replace (Nat.ltb (length t) (S (length t))) with true by (symmetry; apply Nat.ltb_lt; lia).
    rewrite IH by lia.
    destruct (k {| at_start := _; rest := skip_digits t; groups := g |}) eqn:E.
    + rewrite <- E. f_equal. f_equal. now destruct (take_digits t).
    + rewrite (K s d t g D). rewrite <- E. f_equal. f_equal. now destruct (take_digits t).
Qed.

Lemma run_digits1 (ignorecase : bool) (k : kont) (s : bool) (t : str) (g : list (nat * str)) :
  stops_at_digit k ->
  run ignorecase digits1 {| at_start := s; rest := t; groups := g |} k
  = match t with
    | d :: t' =>
        if isdigit d
        then k {| at_start := false; rest := skip_digits t'; groups := g |}
        else None
    | [] => None
    end.
Proof.
  intros K. unfold digits1. cbn [run rest]. destruct t as [|d t']; [reflexivity|].
  destruct (isdigit d); [|reflexivity].
  unfold advance. cbn [rest groups].
  etransitivity; [exact (star_digits ignorecase k (length t') false t' g K (le_n _))|].
  now destruct (take_digits t').
Qed.

(** [$] and nothing more. *)
Lemma run_end (ignorecase : bool) (st : mstate) (k : kont) :
  run ignorecase (Seq Eol Eps) st k = if at_end (rest st) then k st else None.
Proof.
  simpl. destruct (rest st) as [|c [|c' t]]; simpl; try reflexivity.
Qed.

Lemma at_end_digit (d : ascii) (t : str) : isdigit d = true -> at_end (d :: t) = false.
Proof.
  intros D. simpl. destruct t; [now apply digit_not_newline | reflexivity].
Qed.

Lemma captured_digits (d : ascii) (t : str) :
  firstn (length (d :: t) - length (skip_digits t)) (d :: t) = d :: take_digits t.
Proof.
  pose proof (take_skip_digits t) as E.
  assert (L : length t = length (take_digits t) + length (skip_digits t)).
  { rewrite <- E at 1. apply length_app. }
  replace (length (d :: t) - length (skip_digits t)) with (S (length (take_digits t)))
    by (cbn [length]; lia).
  cbn [firstn]. f_equal.
  rewrite <- E at 2. rewrite firstn_app, Nat.sub_diag, firstn_all. simpl.
  apply app_nil_r.
Qed.

Lemma run_opt_seq (ignorecase : bool) (a b : regex) (st : mstate) (k : kont) :
  run ignorecase (Seq (Opt a) b) st k
  = match run ignorecase a st (fun st' => run ignorecase b st' k) with
    | Some m => Some m
    | None => run ignorecase b st k
    end.
Proof. reflexivity. Qed.

Lemma run_group_chr (ignorecase : bool) (i : nat) (c : ascii) (r : regex)
  (st : mstate) (k : kont) :
  run ignorecase (Group i (Seq (Chr c) (Seq r Eps))) st k
  = match rest st with
    | c' :: t =>
        if same ignorecase c c'
        then run ignorecase r (advance st t) (fun st2 => k (capture i st st2))
        else None
    | [] => None
    end.
Proof. reflexivity. Qed.

Lemma run_chr_group (ignorecase : bool) (i : nat) (c : ascii) (r : regex)
  (st : mstate) (k : kont) :
  run ignorecase (Seq (Chr c) (Seq (Group i (Seq r Eps)) Eps)) st k
  = match rest st with
    | c' :: t =>
        if same ignorecase c c'
        then run ignorecase r (advance st t) (fun st2 => k (capture i (advance st t) st2))
        else None
    | [] => None
    end.
Proof. reflexivity. Qed.

Lemma end_stops_at_digit (i : nat) (st : mstate) (k : kont) :
  stops_at_digit (fun st2 => run true (Seq Eol Eps) (capture i st st2) k).
Proof.
  intros s d t g D. rewrite run_end. cbn [capture rest]. now rewrite at_end_digit.
Qed.

(** The tail of the lookup pattern. *)
Lemma run_iregex_tail (s : bool) (y : str) (g : list (nat * str)) :
  is_some (run true iregex_tail {| at_start := s; rest := y; groups := g |} Some)
  = match numbered_suffix y with
    | Some _ => true
    | None => at_end y
    end.
Proof.
  unfold iregex_tail. rewrite run_opt_seq, run_group_chr, !run_end. cbn [rest].
  destruct y as [|c t]; [reflexivity|].
  rewrite same_space. unfold numbered_suffix.
  destruct (eqb_char c " ") eqn:C.
  - unfold advance. cbn [groups].
    rewrite run_digits1 by apply end_stops_at_digit.
    destruct t as [|d t]; [now destruct (at_end [c])|].
    destruct (isdigit d); [|now destruct (at_end (c :: d :: t))].
    rewrite run_end. cbn [capture rest andb].
    destruct (at_end (skip_digits t)); [reflexivity|].
    now destruct (at_end (c :: d :: t)).
  - destruct t as [|d t]; [|cbn [andb]]; now destruct (at_end _).
Qed.

(** The tail of the pattern that reads the number. *)
Lemma run_match_tail (s : bool) (y : str) :
  option_map groups
    (run true match_tail {| at_start := s; rest := y; groups := [] |} Some)
  = match numbered_suffix y with
    | Some digits => Some [(1, digits)]
    | None => if at_end y then Some [] else None
    end.
Proof.
  unfold match_tail. rewrite run_opt_seq, run_chr_group, !run_end. cbn [rest].
  destruct y as [|c t]; [reflexivity|].
  rewrite same_space. unfold numbered_suffix.
  destruct (eqb_char c " ") eqn:C.
  - unfold advance. cbn [groups].
    rewrite run_digits1 by apply end_stops_at_digit.
    destruct t as [|d t]; [now destruct (at_end [c])|].
    destruct (isdigit d); [|now destruct (at_end (c :: d :: t))].
    rewrite run_end. cbn [capture rest andb].
    destruct (at_end (skip_digits t)).
    + cbn [option_map]. unfold capture. cbn [groups rest]. now rewrite captured_digits.
    + now destruct (at_end (c :: d :: t)).
  - destruct t as [|d t]; [|cbn [andb]]; now destruct (at_end _).
Qed.

Lemma search_from_anchored (r : regex) (s : str) :
  search_from true (Seq Bol r) false s = false.
Proof. induction s as [|c s IH]; simpl; [reflexivity | exact IH]. Qed.

Lemma is_some_classify (base name : str) :
  is_some (classify base name)
  = match after_base base name with
    | Some y => match numbered_suffix y with Some _ => true | None => at_end y end
    | None => false
    end.
Proof.
  unfold classify. destruct (after_base base name) as [y|]; [|reflexivity].
  destruct (numbered_suffix y); [reflexivity|]. now destruct (at_end y).
Qed.

(** The lookup finds the names that [classify] accepts. *)
Lemma search_iregex (base name : str) :
  search true (iregex_compiled base) name = is_some (classify base name).
Proof.
  rewrite is_some_classify. unfold search, iregex_compiled.
  assert (R : is_some (run true (Seq Bol (literal base iregex_tail))
                           {| at_start := true; rest := name; groups := [] |} Some)
              = match after_base base name with
                | Some y => match numbered_suffix y with Some _ => true | None => at_end y end
                | None => false
                end).
  { change (run true (Seq Bol (literal base iregex_tail))
                {| at_start := true; rest := name; groups := [] |} Some)
      with (run true (literal base iregex_tail)
                {| at_start := true; rest := name; groups := [] |} Some).
    rewrite run_literal. destruct (after_base base name); [|reflexivity].
    apply run_iregex_tail. }
  rewrite <- R.
  destruct name as [|c name]; cbn [search_from]; [|rewrite search_from_anchored];
    now destruct (run true _ _ Some).
Qed.

(** [re.match] with the second pattern reads the number that [classify]
    gives. *)
Lemma match_compiled_groups (base s : str) :
  match_ true (match_compiled base) s
  = match classify base s with
    | Some (Some digits) => Some [(1, digits)]
    | Some None => Some []
    | None => None
    end.
Proof.
  unfold match_, match_compiled, classify.
  change (run true (Seq Bol (literal base match_tail))
              {| at_start := true; rest := s; groups := [] |} Some)
    with (run true (literal base match_tail)
              {| at_start := true; rest := s; groups := [] |} Some).
  rewrite run_literal. destruct (after_base base s) as [y|]; [|reflexivity].
  rewrite run_match_tail. destruct (numbered_suffix y); [reflexivity|].
  now destruct (at_end y).
Qed.

End MatchFacts.

(** ** Names of the form of a base *)

Module ClassifyFacts.
Import Text TextFacts NumeralFacts SpaceFacts Re ReFacts MatchFacts.

Lemma after_base_app (base x y : str) :
  lower x = lower base -> after_base base (x ++ y) = Some y.
Proof.
  revert x; induction base as [|c base IH]; intros [|c' x] E; try discriminate.
  - reflexivity.
  - simpl in E. injection E as E1 E2. simpl.
    rewrite E1, eqb_char_refl. now apply IH.
Qed.

Lemma after_base_sound (base n y : str) :
  after_base base n = Some y -> exists x, n = x ++ y /\ lower x = lower base.
Proof.
  revert n; induction base as [|c base IH]; intros n H.
  - simpl in H. injection H as <-. now exists [].
  - destruct n as [|c' n]; [discriminate|]. cbn [after_base] in H.
    destruct (same true c c') eqn:S; [|discriminate].
    destruct (IH _ H) as (x & -> & E). exists (c' :: x). split; [reflexivity|].
    simpl. apply same_lower in S. congruence.
Qed.

(** Text equal, but for case, to two joined parts splits at the joint. *)
Lemma lower_eq_app (n a b : str) :
  lower n = lower (a ++ b) ->
  exists x y, n = x ++ y /\ lower x = lower a /\ lower y = lower b.
Proof.
  revert n; induction a as [|c a IH]; intros n E.
  - exists [], n. auto.
  - destruct n as [|c' n]; [discriminate|]. simpl in E. injection E as E1 E2.
    destruct (IH _ E2) as (x & y & -> & Ex & Ey).
    exists (c' :: x), y. repeat split; [|exact Ey]. simpl. congruence.
Qed.

Lemma skip_all_digits (t : str) : forallb isdigit t = true -> skip_digits t = [].
Proof.
  induction t as [|d t IH]; simpl; [reflexivity|].
  rewrite andb_true_iff. intros [D T]. now rewrite D, IH.
Qed.

Lemma take_all_digits (t : str) : forallb isdigit t = true -> take_digits t = t.
Proof.
  induction t as [|d t IH]; simpl; [reflexivity|].
  rewrite andb_true_iff. intros [D T]. now rewrite D, IH.
Qed.

Lemma numbered_suffix_digits (ds : str) :
  ds <> [] -> forallb isdigit ds = true -> numbered_suffix (" "%char :: ds) = Some ds.
Proof.
  intros Hne Hd. destruct ds as [|d t]; [contradiction|].
  simpl in Hd. apply andb_true_iff in Hd. destruct Hd as [D T].
  unfold numbered_suffix. rewrite D, (skip_all_digits t T), (take_all_digits t T).
  reflexivity.
Qed.

(** A name that lower-cases to a space and digits is that very text. *)
Lemma lower_space_digits (y ds : str) :
  forallb isdigit ds = true -> lower y = lower (" "%char :: ds) -> y = " "%char :: ds.
Proof.
  intros Hd E. destruct y as [|c y]; [discriminate|].
  simpl in E. injection E as E1 E2.
  rewrite (lower_digits ds Hd) in E2.
  f_equal; [now apply lower_char_to_space | now apply (lower_to_digits y ds)].
Qed.

(** The bare base, in any case, is classified as such. *)
Lemma classify_bare (base n : str) :
  lower n = lower base -> classify base n = Some None.
Proof.
  intros E. unfold classify. rewrite <- (app_nil_r n), (after_base_app base n [] E).
  reflexivity.
Qed.

(** The base, a space and digits, in any case, is classified as numbered. *)
Lemma classify_numbered (base n ds : str) :
  ds <> [] -> forallb isdigit ds = true ->
  lower n = lower (base ++ " "%char :: ds) ->
  classify base n = Some (Some ds).
Proof.
  intros Hne Hd E. destruct (lower_eq_app n base _ E) as (x & y & -> & Ex & Ey).
  apply (lower_space_digits y ds Hd) in Ey. subst y.
  unfold classify. rewrite (after_base_app base x _ Ex).
  now rewrite numbered_suffix_digits.
Qed.

Lemma numbered_suffix_sound (y ds : str) :
  numbered_suffix y = Some ds ->
  ds <> [] /\ forallb isdigit ds = true /\
  (y = " "%char :: ds \/ y = " "%char :: ds ++ [newline]).
Proof.
  unfold numbered_suffix. destruct y as [|c [|d t]]; try discriminate.
  destruct (eqb_char c " ") eqn:C; [|discriminate].
  destruct (isdigit d) eqn:D; [|discriminate].
  destruct (at_end (skip_digits t)) eqn:A; [|discriminate].
  simpl. intros H; injection H as <-. apply eqb_char_eq in C. subst c.
  split; [discriminate|]. split.
  - simpl. now rewrite D, take_digits_digits.
  - pose proof (take_skip_digits t) as E.
    destruct (skip_digits t) as [|e [|e' r]]; try discriminate.
    + left. rewrite app_nil_r in E. now rewrite E.
    + right. simpl in A. apply eqb_char_eq in A. subst e. simpl. now rewrite E.
Qed.

(** What [classify] accepts: the base in any case, then nothing or a space
    and digits, then at most one final newline. *)
Lemma classify_sound (base n : str) (o : option str) :
  classify base n = Some o ->
  exists x y, n = x ++ y /\ lower x = lower base /\
    match o with
    | None => y = [] \/ y = [newline]
    | Some ds => ds <> [] /\ forallb isdigit ds = true /\
                 (y = " "%char :: ds \/ y = " "%char :: ds ++ [newline])
    end.
Proof.
  unfold classify. destruct (after_base base n) as [y|] eqn:A; [|discriminate].
  destruct (after_base_sound base n y A) as (x & -> & Ex).
  destruct (numbered_suffix y) as [ds|] eqn:S.
  - intros H; injection H as <-. exists x, y.
    split; [reflexivity|]. split; [exact Ex|]. now apply numbered_suffix_sound.
  - destruct (at_end y) eqn:E; [|discriminate]. intros H; injection H as <-.
    exists x, y. split; [reflexivity|]. split; [exact Ex|].
    destruct y as [|c [|c' t]]; try discriminate; [now left|].
    right. simpl in E. apply eqb_char_eq in E. now subst.
Qed.

Lemma rstrip_app (a b : str) : b <> [] -> rstrip b = b -> rstrip (a ++ b) = a ++ b.
Proof.
  intros Hne Hb. induction a as [|c a IH]; [exact Hb|].
  simpl. rewrite IH. destruct (a ++ b) eqn:E; [|reflexivity].
  apply app_eq_nil in E. destruct E; contradiction.
Qed.

Lemma rstrip_digits (ds : str) : forallb isdigit ds = true -> rstrip ds = ds.
Proof. intros H. now apply tidy_tail_rstrip, tidy_tail_digits. Qed.

(** Nothing to strip from a numbered name whose base starts with a character
    that is not white space. *)
Lemma strip_numbered (base n ds : str) :
  match base with c :: _ => isspace c = false | [] => False end ->
  ds <> [] -> forallb isdigit ds = true ->
  lower n = lower (base ++ " "%char :: ds) ->
  strip n = n.
Proof.
  intros Hb Hne Hd E. destruct (lower_eq_app n base _ E) as (x & y & -> & Ex & Ey).
  apply (lower_space_digits y ds Hd) in Ey. subst y.
  destruct base as [|c base]; [contradiction|]. destruct x as [|c' x]; [discriminate|].
  simpl in Ex. injection Ex as Ec _.
  assert (Hc : isspace c' = false).
  { rewrite <- isspace_lower_char, Ec, isspace_lower_char. exact Hb. }
  unfold strip. rewrite <- app_comm_cons. cbn [lstrip]. rewrite Hc.
  assert (R : c' :: x ++ " "%char :: ds = (c' :: x ++ [" "%char]) ++ ds).
  { simpl. now rewrite <- app_assoc. }
  rewrite R. apply rstrip_app; [exact Hne | now apply rstrip_digits].
Qed.

(** [int] on digits. *)
Lemma int_digits (ds : str) :
  ds <> [] -> forallb isdigit ds = true ->
  Text.int ds = option_map Z.of_N (N_of_digits ds).
Proof.
  intros Hne Hd. unfold int.
  assert (S : strip ds = ds).
  { unfold strip. destruct ds as [|d t]; [contradiction|].
    simpl in Hd. apply andb_true_iff in Hd. destruct Hd as [D T].
    cbn [lstrip]. rewrite (digit_not_space d D). apply rstrip_digits.
    simpl. now rewrite D. }
  rewrite S.
  assert (L : forall b l, forallb isdigit l = true -> l <> [] ->
                          literal_digits b l = Some l).
  { clear. intros b l; revert b; induction l as [|c l IH]; intros b H Hne; [contradiction|].
    simpl in H |- *. apply andb_true_iff in H. destruct H as [C H]. rewrite C.
    destruct l as [|c' l]; [reflexivity|]. now rewrite IH. }
  destruct ds as [|d t]; [contradiction|].
  assert (D : isdigit d = true) by (simpl in Hd; now apply andb_true_iff in Hd).
  assert (Sign : sign_and_body (d :: t) = (false, d :: t)).
  { revert D. clear. each_ascii d ltac:(vm_compute; intros; congruence). }
  rewrite Sign, (L false (d :: t) Hd Hne).
  now destruct (N_of_digits (d :: t)).
Qed.

End ClassifyFacts.

(** ** The allocator *)

Module AllocFacts.
Import Text TextFacts NumeralFacts SpaceFacts Re ReFacts MatchFacts ClassifyFacts.

Lemma number_of_spec (base n : str) :
  number_of (match_compiled base) n = Some (number base n).
Proof.
  unfold number_of, number. rewrite match_compiled_groups.
  destruct (classify base (strip n)) as [[ds|]|] eqn:C; try reflexivity.
  destruct (classify_sound _ _ _ C) as (_ & _ & _ & _ & Hne & Hd & _).
  simpl. destruct ds as [|d t]; [contradiction|].
  rewrite (int_digits (d :: t) Hne Hd).
  destruct (N_of_digits_total (d :: t) Hne Hd) as [v ->]. reflexivity.
Qed.

Lemma numbers_of_spec (base : str) (names : list str) :
  numbers_of (match_compiled base) names = Some (numbers base names).
Proof.
  induction names as [|n names IH]; [reflexivity|].
  simpl. rewrite number_of_spec, IH. now destruct (number base n).
Qed.

Lemma filter_ext_eq {A : Type} (f g : A -> bool) (l : list A) :
  (forall x, f x = g x) -> filter f l = filter g l.
Proof. intros H. apply filter_ext. exact H. Qed.

(** The allocator never raises: both patterns compile and every number
    is read; its result is [allocation]. *)
Lemma allocate_spec (db : table) (tep : N) (base_name exclude_partcode : str) :
  _allocate_material_name db tep base_name exclude_partcode
  = Some (allocation db tep base_name exclude_partcode).
Proof.
  unfold _allocate_material_name, allocation, matching, bare.
  set (base := str_or (strip base_name) "UNKNOWN").
  rewrite compile_iregex_pattern, compile_match_pattern.
  rewrite (filter_ext_eq
             (fun m => in_tep tep m && search true (iregex_compiled base) (mat_partname m))
             (fun m => in_tep tep m && is_some (classify base (mat_partname m))))
    by (intros m; now rewrite search_iregex).
  destruct (map mat_partname _) as [|n names] eqn:E; [reflexivity|].
  rewrite numbers_of_spec. now destruct (numbers base (n :: names)).
Qed.

End AllocFacts.

(** C4. The base is matched as literal text.  Whatever the base, the two
    patterns built from it compile, so that the allocator never raises; the
    lookup accepts a name exactly when [classify] does, that is when the
    name is the base in any case followed by nothing or by a space and
    digits (and at most one final newline); and with base ["A.B"] an item
    named ["AXB"] is no match: the call returns ["A.B"] and leaves the
    table alone. *)
Theorem base_is_literal (base name : str) :
  (exists r r', Re.compile (iregex_pattern base) = Some r /\
                Re.compile (match_pattern base) = Some r') /\
  (forall db tep exclude_partcode,
      exists result, _allocate_material_name db tep base exclude_partcode = Some result) /\
  iregex (iregex_pattern base) name = Some (is_some (classify base name)) /\
  (iregex (iregex_pattern base) name = Some true ->
   exists x y, name = x ++ y /\ Text.lower x = Text.lower base /\
     (y = [] \/ y = [Re.newline] \/
      exists digits, digits <> [] /\ forallb Text.isdigit digits = true /\
        (y = " "%char :: digits \/ y = " "%char :: digits ++ [Re.newline]))) /\
  (forall m, mat_partname m = "AXB" ->
             _allocate_material_name [m] (tep_code m) "A.B" "" = Some ("A.B" : str, [m])).
Proof.
  assert (I : iregex (iregex_pattern base) name = Some (is_some (classify base name))).
  { unfold iregex. rewrite ReFacts.compile_iregex_pattern. simpl.
    now rewrite MatchFacts.search_iregex. }
  split; [|split; [|split; [|split]]].
  - rewrite ReFacts.compile_iregex_pattern, ReFacts.compile_match_pattern. eauto.
  - intros. rewrite AllocFacts.allocate_spec. eauto.
  - exact I.
  - rewrite I. intros H. injection H as H.
    destruct (classify base name) as [o|] eqn:C; [|discriminate].
    destruct (ClassifyFacts.classify_sound _ _ _ C) as (x & y & E & L & S).
    exists x, y. split; [exact E|]. split; [exact L|].
    destruct o as [ds|].
    + right; right. exists ds. exact S.
    + destruct S; auto.
  - intros [i t pc n] E. simpl in E. subst n.
    rewrite AllocFacts.allocate_spec. unfold allocation, matching. simpl.
    rewrite andb_false_r. reflexivity.
Qed.

(** C4 at the base ["A.B"] and the name ["a.b 12"], which the lookup
    accepts. *)
Lemma base_is_literal_witness :
  exists x y, ("a.b 12" : str) = x ++ y /\ Text.lower x = Text.lower "A.B" /\
    (y = [] \/ y = [Re.newline] \/
     exists digits, digits <> [] /\ forallb Text.isdigit digits = true /\
       (y = " "%char :: digits \/ y = " "%char :: digits ++ [Re.newline])).
Proof.
  apply (proj1 (proj2 (proj2 (proj2 (base_is_literal "A.B" "a.b 12"))))).
  vm_compute. reflexivity.
Defined.

(** ** The table *)

Module TableFacts.
Import Text TextFacts NumeralFacts SpaceFacts ClassifyFacts AllocFacts.

Lemma fold_max_ge (l : list N) (a : N) : (a <= fold_left N.max l a)%N.
Proof.
  revert a; induction l as [|x l IH]; intros a; simpl; [lia|].
  specialize (IH (N.max a x)). lia.
Qed.

Lemma fold_max_In (l : list N) (a x : N) : In x l -> (x <= fold_left N.max l a)%N.
Proof.
  revert a; induction l as [|y l IH]; intros a H; simpl; [contradiction|].
  destruct H as [->|H]; [|now apply IH].
  pose proof (fold_max_ge l (N.max a x)). lia.
Qed.

(** The key of a new row is above every key of the table. *)
Lemma next_id_above (db : table) (m : Material) : In m db -> (id m < next_id db)%N.
Proof.
  intros H. unfold next_id.
  pose proof (fold_max_In (map id db) 0%N (id m) (in_map id db m H)). lia.
Qed.

Lemma next_id_fresh (db : table) : ~ In (next_id db) (map id db).
Proof.
  intros H. apply in_map_iff in H. destruct H as (m & E & Hm).
  apply next_id_above in Hm. lia.
Qed.

Lemma save_partname_ids (first : Material) (name : str) (db : table) :
  map id (save_partname first name db) = map id db.
Proof.
  unfold save_partname. rewrite map_map. apply map_ext.
  intros m. now destruct (N.eqb (id m) (id first)).
Qed.

(** Saving a row whose key the table does not hold changes nothing. *)
Lemma save_partname_absent (first : Material) (name : str) (db : table) :
  ~ In (id first) (map id db) -> save_partname first name db = db.
Proof.
  intros H. unfold save_partname. rewrite <- (map_id db) at 2. apply map_ext_in.
  intros m Hm. destruct (N.eqb_spec (id m) (id first)) as [E|]; [|reflexivity].
  exfalso. apply H. rewrite <- E. now apply in_map.
Qed.

Lemma save_partname_app (first : Material) (name : str) (a b : table) :
  save_partname first name (a ++ b) = save_partname first name a ++ save_partname first name b.
Proof. apply map_app. Qed.

(** The names of the saved table: those it had, or the new name under the
    TEP code of a row with the key of [first]. *)
Lemma save_partname_keys (first : Material) (name : str) (db : table) (k : N * str) :
  In k (map name_key (save_partname first name db)) ->
  In k (map name_key db) \/
  exists m, In m db /\ id m = id first /\ k = (tep_code m, lower name).
Proof.
  intros H. apply in_map_iff in H. destruct H as (m' & <- & Hm').
  apply in_map_iff in Hm'. destruct Hm' as (m & <- & Hm).
  destruct (N.eqb_spec (id m) (id first)) as [E|].
  - right. exists m. auto.
  - left. now apply in_map.
Qed.

(** Renaming one row to a name that its TEP code does not hold keeps the
    names apart. *)
Lemma save_partname_unique (first : Material) (name : str) (db : table) :
  ids_unique db -> names_unique db -> In first db ->
  ~ In (tep_code first, lower name) (map name_key db) ->
  names_unique (save_partname first name db).
Proof.
  unfold ids_unique, names_unique. intros Hid. revert first.
  induction db as [|m db IH]; intros first Hn Hin Hfresh; [constructor|].
  simpl in Hid, Hn. inversion Hid as [|? ? Hid1 Hid2]; subst.
  inversion Hn as [|? ? Hn1 Hn2]; subst.
  cbn [save_partname map]. fold (save_partname first name db).
  destruct (N.eqb_spec (id m) (id first)) as [E|NE].
  - assert (first = m).
    { destruct Hin as [->|Hin]; [reflexivity|].
      exfalso. apply Hid1. rewrite E. now apply in_map. }
    subst first. rewrite save_partname_absent by exact Hid1.
    constructor; [|exact Hn2]. cbn [name_key tep_code mat_partname].
    intros H. apply Hfresh. now right.
  - destruct Hin as [->|Hin]; [congruence|].
    constructor.
    + intros H. apply save_partname_keys in H. destruct H as [H | (m' & Hm' & E' & K)].
      * contradiction.
      * apply Hfresh. left.
        assert (m' = first).
        { clear - Hid2 Hm' Hin E'. induction db as [|x db IH]; [contradiction|].
          simpl in Hid2. inversion Hid2 as [|? ? A B]; subst.
          destruct Hm' as [->|Hm'], Hin as [->|Hin]; auto.
          - exfalso. apply A. rewrite E'. now apply in_map.
          - exfalso. apply A. rewrite <- E'. now apply in_map. }
        subst m'. exact K.
    + apply IH; auto. intros H. apply Hfresh. now right.
Qed.

Lemma create_ids_unique (db : table) (tep : N) (partcode name : str) :
  ids_unique db -> ids_unique (create db tep partcode name).
Proof.
  unfold ids_unique, create. intros H. rewrite map_app. simpl.
  apply NoDup_app; [exact H | repeat constructor; auto |].
  intros x Hx [<-|[]]. now apply next_id_fresh in Hx.
Qed.

Lemma create_names_unique (db : table) (tep : N) (partcode name : str) :
  names_unique db -> fresh_name tep name db ->
  names_unique (create db tep partcode name).
Proof.
  unfold names_unique, fresh_name, create. intros H F. rewrite map_app. simpl.
  apply NoDup_app; [exact H | repeat constructor; auto |].
  intros x Hx [<-|[]]. contradiction.
Qed.

Lemma filter_nil {A : Type} (f : A -> bool) (l : list A) :
  (forall x, In x l -> f x = false) -> filter f l = [].
Proof.
  induction l as [|x l IH]; intros H; simpl; [reflexivity|].
  rewrite (H x (or_introl eq_refl)). apply IH. intros y Hy. apply H. now right.
Qed.

Lemma matching_In (db : table) (tep : N) (base : str) (m : Material) :
  In m db -> tep_code m = tep -> is_some (classify base (mat_partname m)) = true ->
  In m (matching db tep base []).
Proof.
  intros Hm Ht Hc. unfold matching, exclude. apply filter_In. split; [exact Hm|].
  unfold in_tep. rewrite Ht, N.eqb_refl. exact Hc.
Qed.

Lemma numbers_In (base : str) (names : list str) (n : str) (v : Z) :
  In n names -> number base n = Some v -> In v (numbers base names).
Proof.
  induction names as [|x names IH]; intros H E; [contradiction|].
  simpl. destruct H as [->|H].
  - rewrite E. now left.
  - destruct (number base x); [right|]; now apply IH.
Qed.

Lemma numbers_nonneg (base : str) (names : list str) (v : Z) :
  In v (numbers base names) -> (0 <= v)%Z.
Proof.
  induction names as [|x names IH]; simpl; [contradiction|].
  destruct (number base x) as [w|] eqn:E; [|exact IH].
  intros [<-|H]; [|now apply IH].
  unfold number in E. destruct (classify base (strip x)) as [[ds|]|]; try discriminate.
  destruct (N_of_digits ds); [|discriminate]. injection E as <-. lia.
Qed.

Lemma fold_Zmax_ge (l : list Z) (a : Z) : (a <= fold_left Z.max l a)%Z.
Proof.
  revert a; induction l as [|x l IH]; intros a; simpl; [lia|].
  specialize (IH (Z.max a x)). lia.
Qed.

Lemma maximum_ge (v : Z) (vs : list Z) (x : Z) :
  In x (v :: vs) -> (x <= maximum v vs)%Z.
Proof.
  unfold maximum. intros [->|H]; [apply fold_Zmax_ge|].
  revert v; induction vs as [|w vs IH]; intros v; simpl; [contradiction|].
  destruct H as [->|H]; [|now apply IH].
  pose proof (fold_Zmax_ge vs (Z.max v x)). lia.
Qed.

(** The base that the allocator works with is not empty and starts with a
    character that is not white space. *)
Lemma base_head (base_name : str) :
  match str_or (strip base_name) "UNKNOWN" with
  | c :: _ => isspace c = false
  | [] => False
  end.
Proof.
  pose proof (strip_head base_name) as H.
  destruct (strip base_name) as [|c t]; [reflexivity | exact H].
Qed.

(** A row of the TEP code whose name is the base, a space and the
    numeral of [k], in any case, puts [k] among the numbers. *)
Lemma numbered_present (db : table) (tep : N) (base : str) (m : Material) (k : N) :
  match base with c :: _ => isspace c = false | [] => False end ->
  In m db -> tep_code m = tep ->
  lower (mat_partname m) = lower (numbered base k) ->
  In (Z.of_N k) (numbers base (map mat_partname (matching db tep base []))).
Proof.
  intros Hb Hm Ht E. unfold numbered in E.
  pose proof (str_of_N_nonempty k) as Hne. pose proof (str_of_N_digits k) as Hd.
  change (base ++ list_ascii_of_string " " ++ str_of_N k)
    with (base ++ " "%char :: str_of_N k) in E.
  pose proof (classify_numbered base _ _ Hne Hd E) as C.
  apply (numbers_In base _ (mat_partname m)).
  - apply in_map. apply matching_In; auto. now rewrite C.
  - unfold number. rewrite (strip_numbered base _ _ Hb Hne Hd E), C.
    now rewrite N_of_digits_str_of_N.
Qed.

End TableFacts.

(** ** Unique names *)

Module UniqueFacts.
Import Text TextFacts NumeralFacts SpaceFacts ClassifyFacts AllocFacts TableFacts.

Lemma key_In (db : table) (tep : N) (name : str) :
  In (tep, lower name) (map name_key db) ->
  exists m, In m db /\ tep_code m = tep /\ lower (mat_partname m) = lower name.
Proof.
  intros H. apply in_map_iff in H. destruct H as (m & E & Hm).
  unfold name_key in E. injection E as E1 E2. eauto.
Qed.

Lemma first_by_id_In (qs : table) (first : Material) :
  first_by_id qs = Some first -> In first qs.
Proof.
  revert first; induction qs as [|m qs IH]; intros first; simpl; [discriminate|].
  destruct (first_by_id qs) as [m'|].
  - destruct (id m' <? id m)%N; intros E; injection E as <-; auto.
  - intros E; injection E as <-; auto.
Qed.

Lemma bare_In (db : table) (tep : N) (base : str) (m : Material) :
  In m (bare db tep base []) -> In m db /\ tep_code m = tep.
Proof.
  unfold bare, exclude. intros H. apply filter_In in H. destruct H as [H1 H2].
  apply andb_true_iff in H2. destruct H2 as [H2 _].
  unfold in_tep in H2. apply N.eqb_eq in H2. auto.
Qed.

Lemma str_of_Z_nonneg (z : Z) : (0 <= z)%Z -> str_of_Z z = str_of_N (Z.to_N z).
Proof.
  intros H. unfold str_of_Z. destruct (Z.ltb_spec z 0); [lia | reflexivity].
Qed.

(** One allocation with no excluded part code: the table keeps its keys
    and its names apart, and the name returned is new to the TEP code. *)
Lemma allocation_invariant (db : table) (tep : N) (base_name : str) :
  ids_unique db -> names_unique db ->
  let r := allocation db tep base_name "" in
  ids_unique (snd r) /\ names_unique (snd r) /\ fresh_name tep (fst r) (snd r).
Proof.
  intros Hid Hn. unfold allocation.
  set (base := str_or (strip base_name) "UNKNOWN").
  pose proof (base_head base_name) as Hb. fold base in Hb.
  change (strip (list_ascii_of_string "")) with (@nil ascii).
  assert (F : forall k, numbers base (map mat_partname (matching db tep base [])) = [] ->
                        ~ In (tep, lower (numbered base k)) (map name_key db)).
  { intros k E H. apply key_In in H. destruct H as (m & Hm & Ht & El).
    pose proof (numbered_present db tep base m k Hb Hm Ht El) as P.
    rewrite E in P. contradiction. }
  destruct (map mat_partname (matching db tep base [])) as [|n names] eqn:M.
  - (* no matching name *)
    simpl. split; [exact Hid|]. split; [exact Hn|].
    intros H. apply key_In in H. destruct H as (m & Hm & Ht & El).
    assert (In m (matching db tep base [])).
    { apply matching_In; auto. now rewrite (classify_bare base _ El). }
    apply (in_map mat_partname) in H. rewrite M in H. contradiction.
  - destruct (numbers base (n :: names)) as [|v vs] eqn:E.
    + (* the bare base only *)
      cbn [fst snd].
      change (base ++ list_ascii_of_string " 2") with (numbered base 2).
      change (base ++ list_ascii_of_string " 1") with (numbered base 1).
      destruct (first_by_id (bare db tep base [])) as [first|] eqn:Fi.
      * apply first_by_id_In, bare_In in Fi. destruct Fi as [Fi Ft].
        split; [|split].
        -- unfold ids_unique. now rewrite save_partname_ids.
        -- apply save_partname_unique; auto. rewrite Ft. now apply F.
        -- intros H. apply save_partname_keys in H.
           destruct H as [H | (m & _ & _ & K)].
           ++ now apply (F 2%N eq_refl).
           ++ injection K as _ K. apply PartsFacts.lower_numbered_inj in K. discriminate K.
      * split; [exact Hid|]. split; [exact Hn|]. now apply F.
    + (* numbered names *)
      cbn [fst snd]. split; [exact Hid|]. split; [exact Hn|].
      set (top := maximum v vs).
      assert (T : (0 <= top)%Z).
      { assert (Hv : In v (numbers base (n :: names))) by (rewrite E; now left).
        apply numbers_nonneg in Hv.
        pose proof (maximum_ge v vs v (or_introl eq_refl)). unfold top. lia. }
      rewrite str_of_Z_nonneg by lia.
      change (base ++ list_ascii_of_string " " ++ str_of_N (Z.to_N (top + 1)))
        with (numbered base (Z.to_N (top + 1))).
      intros H. apply key_In in H. destruct H as (m & Hm & Ht & El).
      pose proof (numbered_present db tep base m _ Hb Hm Ht El) as P.
      rewrite M, E in P. apply maximum_ge in P. fold top in P. lia.
Qed.

End UniqueFacts.

(** C1. Along every sequence of allocations, each followed by the creation
    of the new item under the returned name and none with an excluded part
    code, from a table whose keys are distinct and whose names are unique
    per TEP code: no call raises, the names stay unique per TEP code (equal
    names but for case count as equal) when the allocator returns and when
    the item is stored, and the name returned is, but for case, the name of
    no row of the TEP code in the table that the allocator leaves. *)
Theorem names_stay_unique (db : table) (calls : list call) :
  ids_unique db -> names_unique db ->
  exists trace,
    session db calls = Some trace /\
    Forall2 (fun c o =>
               names_unique (allocated o) /\
               fresh_name (call_tep c) (returned o) (allocated o) /\
               names_unique (stored o))
            calls trace.
Proof.
  revert db; induction calls as [|c calls IH]; intros db Hid Hn.
  - exists []. split; [reflexivity | constructor].
  - cbn [session]. unfold allocate_and_store.
    rewrite AllocFacts.allocate_spec.
    destruct (UniqueFacts.allocation_invariant db (call_tep c) (call_base c) Hid Hn)
      as (Hid1 & Hn1 & Hf).
    destruct (allocation db (call_tep c) (call_base c) "") as [name db1].
    cbn [fst snd] in Hid1, Hn1, Hf. cbn [stored].
    pose proof (TableFacts.create_ids_unique db1 (call_tep c) (call_partcode c) name Hid1)
      as Hid2.
    pose proof (TableFacts.create_names_unique db1 (call_tep c) (call_partcode c) name Hn1 Hf)
      as Hn2.
    destruct (IH _ Hid2 Hn2) as (trace & -> & Htrace).
    eexists. split; [reflexivity|]. constructor; [|exact Htrace].
    cbn [allocated returned stored]. auto.
Qed.

(** C1 from the empty table, for three calls against one TEP code. *)
Lemma names_stay_unique_witness :
  exists trace,
    session [] [ {| call_tep := 7; call_base := "TAPE"; call_partcode := "P1" |};
                 {| call_tep := 7; call_base := "tape"; call_partcode := "P2" |};
                 {| call_tep := 7; call_base := "Tape 1"; call_partcode := "P3" |} ]
    = Some trace /\
    Forall2 (fun c o =>
               names_unique (allocated o) /\
               fresh_name (call_tep c) (returned o) (allocated o) /\
               names_unique (stored o))
            [ {| call_tep := 7; call_base := "TAPE"; call_partcode := "P1" |};
              {| call_tep := 7; call_base := "tape"; call_partcode := "P2" |};
              {| call_tep := 7; call_base := "Tape 1"; call_partcode := "P3" |} ]
            trace.
Proof.
  apply (names_stay_unique []); constructor.
Defined.

(** ** The TAPE sequence *)

Module TapeFacts.
Import Text TextFacts ClassifyFacts AllocFacts TableFacts.

Lemma iregex_classify (base name : str) :
  iregex (iregex_pattern base) name = Some (is_some (classify base name)).
Proof.
  unfold iregex. rewrite ReFacts.compile_iregex_pattern. simpl.
  now rewrite MatchFacts.search_iregex.
Qed.

Section Scope.

Variables (db : table) (tep : N) (base : str).

Hypothesis no_match :
  forall m, In m db -> tep_code m = tep ->
            iregex (iregex_pattern base) (mat_partname m) = Some false.

Lemma matching_old : matching db tep base [] = [].
Proof.
  unfold matching, exclude. apply filter_nil. intros m Hm.
  unfold in_tep. destruct (N.eqb_spec (tep_code m) tep) as [E|]; [|reflexivity].
  specialize (no_match m Hm E). rewrite iregex_classify in no_match.
  injection no_match as ->. reflexivity.
Qed.

Lemma bare_old : bare db tep base [] = [].
Proof.
  unfold bare, exclude. apply filter_nil. intros m Hm.
  unfold in_tep. destruct (N.eqb_spec (tep_code m) tep) as [E|]; [|reflexivity].
  specialize (no_match m Hm E). rewrite iregex_classify in no_match.
  injection no_match as C. simpl.
  destruct (iexact base (mat_partname m)) eqn:X; [|reflexivity].
  unfold iexact in X. apply eqb_eq in X. apply (classify_bare base) in X.
  rewrite X in C. discriminate.
Qed.

Lemma matching_app (rows : table) :
  matching (db ++ rows) tep base [] = matching rows tep base [].
Proof.
  unfold matching, exclude. rewrite filter_app.
  fold (exclude [] (filter (fun m => in_tep tep m && is_some (classify base (mat_partname m))) db)).
  fold (matching db tep base []). now rewrite matching_old.
Qed.

Lemma bare_app (rows : table) :
  bare (db ++ rows) tep base [] = bare rows tep base [].
Proof.
  unfold bare, exclude. rewrite filter_app.
  fold (exclude [] (filter (fun m => in_tep tep m && iexact base (mat_partname m)) db)).
  fold (bare db tep base []). now rewrite bare_old.
Qed.

End Scope.

End TapeFacts.

(** C2. In a TEP code where no item matches the pattern of ["TAPE"], three
    allocations of ["TAPE"] in a row, each stored as a new item, return
    ["TAPE"], ["TAPE 2"] and ["TAPE 3"]; the second call renames the item
    of the first call to ["TAPE 1"] before it returns, and the third call
    renames nothing. *)
Theorem tape_sequence (db : table) (tep : N) (pc1 pc2 pc3 : str) :
  (forall m, In m db -> tep_code m = tep ->
             iregex (iregex_pattern "TAPE") (mat_partname m) = Some false) ->
  let item name :=
    {| id := next_id db; tep_code := tep; mat_partcode := pc1; mat_partname := name |} in
  exists o1 o2 o3,
    session db [ {| call_tep := tep; call_base := "TAPE"; call_partcode := pc1 |};
                 {| call_tep := tep; call_base := "TAPE"; call_partcode := pc2 |};
                 {| call_tep := tep; call_base := "TAPE"; call_partcode := pc3 |} ]
    = Some [o1; o2; o3] /\
    returned o1 = "TAPE" /\ allocated o1 = db /\ stored o1 = db ++ [item ("TAPE" : str)] /\
    returned o2 = "TAPE 2" /\ allocated o2 = db ++ [item ("TAPE 1" : str)] /\
    returned o3 = "TAPE 3" /\ allocated o3 = stored o2.
Proof.
  intros H item.
  assert (A1 : allocation db tep "TAPE" "" = ("TAPE" : str, db)).
  { unfold allocation.
    change (str_or (Text.strip "TAPE") "UNKNOWN") with ("TAPE" : str).
    change (Text.strip "") with (@nil ascii).
    now rewrite (TapeFacts.matching_old db tep "TAPE" H). }
  assert (A2 : allocation (db ++ [item ("TAPE" : str)]) tep "TAPE" ""
               = ("TAPE 2" : str, db ++ [item ("TAPE 1" : str)])).
  { unfold allocation.
    change (str_or (Text.strip "TAPE") "UNKNOWN") with ("TAPE" : str).
    change (Text.strip "") with (@nil ascii).
    rewrite (TapeFacts.matching_app db tep "TAPE" H), (TapeFacts.bare_app db tep "TAPE" H).
    unfold matching, bare, exclude, in_tep, item. cbn [filter tep_code mat_partname].
    rewrite N.eqb_refl.
    change (is_some (classify "TAPE" "TAPE")) with true.
    change (iexact "TAPE" "TAPE") with true.
    cbn [andb map mat_partname].
    change (numbers "TAPE" ["TAPE" : str]) with (@nil Z).
    cbn [first_by_id]. rewrite TableFacts.save_partname_app.
    rewrite TableFacts.save_partname_absent by apply TableFacts.next_id_fresh.
    unfold save_partname. cbn [map id]. rewrite N.eqb_refl. reflexivity. }
  set (second := {| id := next_id (db ++ [item ("TAPE 1" : str)]); tep_code := tep;
                    mat_partcode := pc2; mat_partname := "TAPE 2" |}).
  assert (A3 : allocation ((db ++ [item ("TAPE 1" : str)]) ++ [second]) tep "TAPE" ""
               = ("TAPE 3" : str, (db ++ [item ("TAPE 1" : str)]) ++ [second])).
  { unfold allocation.
    change (str_or (Text.strip "TAPE") "UNKNOWN") with ("TAPE" : str).
    change (Text.strip "") with (@nil ascii).
    rewrite <- app_assoc.
    rewrite (TapeFacts.matching_app db tep "TAPE" H).
    unfold matching, exclude, in_tep, item, second.
    cbn [filter tep_code mat_partname List.app].
    rewrite N.eqb_refl.
    change (is_some (classify "TAPE" "TAPE 1")) with true.
    change (is_some (classify "TAPE" "TAPE 2")) with true.
    cbn [andb map mat_partname].
    change (numbers "TAPE" ["TAPE 1" : str; "TAPE 2" : str]) with [1%Z; 2%Z].
    reflexivity. }
  cbn [session]. unfold allocate_and_store. cbn [call_tep call_base call_partcode].
  rewrite AllocFacts.allocate_spec, A1. cbn [stored option_map]. unfold create at 1 2.
  fold (item ("TAPE" : str)).
  rewrite AllocFacts.allocate_spec, A2. cbn [stored option_map]. unfold create at 1 2.
  fold second.
  rewrite AllocFacts.allocate_spec, A3. cbn [option_map].
  do 3 eexists. split; [reflexivity|]. cbn [returned allocated stored].
  repeat split; reflexivity.
Qed.

(** C2 from the empty table. *)
Lemma tape_sequence_witness :
  exists o1 o2 o3,
    session [] [ {| call_tep := 1; call_base := "TAPE"; call_partcode := "A" |};
                 {| call_tep := 1; call_base := "TAPE"; call_partcode := "B" |};
                 {| call_tep := 1; call_base := "TAPE"; call_partcode := "C" |} ]
    = Some [o1; o2; o3] /\
    returned o1 = "TAPE" /\ allocated o1 = [] /\
    stored o1 = [] ++ [ {| id := next_id []; tep_code := 1; mat_partcode := "A";
                           mat_partname := "TAPE" |} ] /\
    returned o2 = "TAPE 2" /\
    allocated o2 = [] ++ [ {| id := next_id []; tep_code := 1; mat_partcode := "A";
                              mat_partname := "TAPE 1" |} ] /\
    returned o3 = "TAPE 3" /\ allocated o3 = stored o2.
Proof.
  apply (tape_sequence [] 1 "A" "B" "C"). intros m [].
Defined.

(** ** Renames *)

Module RenameFacts.
Import Text TextFacts NumeralFacts ClassifyFacts AllocFacts TableFacts.

Lemma same_name_refl (a : option str) : same_name a a = true.
Proof. destruct a; simpl; [apply eqb_refl | reflexivity]. Qed.

Section OneBase.

Variables (tep : N) (base_name : str).

Let base : str := str_or (strip base_name) "UNKNOWN".

Lemma has_numbered_create (db : table) (t : N) (partcode name : str) :
  has_numbered tep base db -> has_numbered tep base (create db t partcode name).
Proof.
  intros (m & k & Hm & Ht & E). exists m, k. split; [|auto].
  unfold create. apply in_app_iff. now left.
Qed.

(** Once a numbered name is there, the allocator renames nothing. *)
Lemma numbered_no_rename (db : table) :
  has_numbered tep base db -> snd (allocation db tep base_name "") = db.
Proof.
  intros (m & k & Hm & Ht & E). unfold allocation. fold base.
  change (strip (list_ascii_of_string "")) with (@nil ascii).
  pose proof (numbered_present db tep base m k (base_head base_name) Hm Ht E) as P.
  destruct (map mat_partname (matching db tep base [])) as [|n names]; [reflexivity|].
  destruct (numbers base (n :: names)); [contradiction | reflexivity].
Qed.

(** An allocation that renames stores a numbered name. *)
Lemma rename_stores_numbered (db : table) (partcode : str) :
  let r := allocation db tep base_name "" in
  snd r = db \/ has_numbered tep base (create (snd r) tep partcode (fst r)).
Proof.
  unfold allocation. fold base.
  change (strip (list_ascii_of_string "")) with (@nil ascii).
  destruct (map mat_partname (matching db tep base [])) as [|n names]; [now left|].
  destruct (numbers base (n :: names)); [|now left].
  right. cbn [fst snd].
  eexists {| id := _; tep_code := tep; mat_partcode := partcode;
             mat_partname := base ++ list_ascii_of_string " 2" |}, 2%N.
  split; [|split; reflexivity].
  unfold create. apply in_app_iff. right. now left.
Qed.

Lemma rewrites_same_base (i : N) (partcodes : list str) (db : table) :
  exists trace,
    session db (map (same_base_call tep base_name) partcodes) = Some trace /\
    rewrites i db trace <= 1 /\
    (has_numbered tep base db -> rewrites i db trace = 0).
Proof.
  revert db; induction partcodes as [|pc partcodes IH]; intros db.
  - exists []. simpl. auto.
  - cbn [map session]. unfold allocate_and_store. cbn [same_base_call call_tep call_base call_partcode].
    rewrite allocate_spec.
    pose proof (numbered_no_rename db) as A.
    pose proof (rename_stores_numbered db pc) as B. cbv zeta in B.
    destruct (allocation db tep base_name "") as [name db1]. cbn [fst snd] in A, B.
    cbn [stored].
    destruct (IH (create db1 tep pc name)) as (trace & -> & L & Z).
    eexists. split; [reflexivity|]. cbn [rewrites allocated stored]. split.
    + destruct B as [-> | B].
      * rewrite same_name_refl. simpl. exact L.
      * rewrite (Z B). destruct (same_name _ _); simpl; lia.
    + intros P. specialize (A P). subst db1.
      rewrite same_name_refl, Z; [reflexivity | now apply has_numbered_create].
Qed.

End OneBase.

Lemma save_partname_identity (first : Material) (name : str) (db : table) :
  map identity (save_partname first name db) = map identity db.
Proof.
  unfold save_partname. rewrite map_map. apply map_ext.
  intros m. now destruct (N.eqb (id m) (id first)).
Qed.

Lemma allocation_identity (db : table) (tep : N) (base_name exclude_partcode : str) :
  map identity (snd (allocation db tep base_name exclude_partcode)) = map identity db.
Proof.
  unfold allocation.
  destruct (map mat_partname _); [reflexivity|].
  destruct (numbers _ _); [|reflexivity].
  cbn [snd]. destruct (first_by_id _); [apply save_partname_identity | reflexivity].
Qed.

Lemma session_identity (calls : list call) (db0 db : table) :
  (exists added, map identity db = map identity db0 ++ added) ->
  exists trace,
    session db calls = Some trace /\
    Forall (fun o =>
              (exists added, map identity (allocated o) = map identity db0 ++ added) /\
              (exists added, map identity (stored o) = map identity db0 ++ added))
           trace.
Proof.
  revert db; induction calls as [|c calls IH]; intros db (added & E).
  - exists []. split; [reflexivity | constructor].
  - cbn [session]. unfold allocate_and_store. rewrite allocate_spec.
    pose proof (allocation_identity db (call_tep c) (call_base c) "") as I.
    destruct (allocation db (call_tep c) (call_base c) "") as [name db1].
    cbn [snd] in I. cbn [stored].
    assert (S : exists added', map identity (create db1 (call_tep c) (call_partcode c) name)
                               = map identity db0 ++ added').
    { unfold create. rewrite map_app, I, E, <- app_assoc. eauto. }
    destruct (IH _ S) as (trace & -> & F).
    eexists. split; [reflexivity|]. constructor; [|exact F].
    cbn [allocated stored]. split; [|exact S]. rewrite I. eauto.
Qed.

(** What one allocation does to the table: nothing, or it saves the name
    [base 1] on a row of the TEP code whose name is the base but for
    case. *)
Lemma allocation_saves (db : table) (tep : N) (base_name : str) :
  let base := str_or (strip base_name) "UNKNOWN" in
  snd (allocation db tep base_name "") = db \/
  exists first, In first db /\ tep_code first = tep /\
                iexact base (mat_partname first) = true /\
                snd (allocation db tep base_name "")
                = save_partname first (base ++ " 1") db.
Proof.
  intros base. unfold allocation. fold base.
  change (strip (list_ascii_of_string "")) with (@nil ascii).
  destruct (map mat_partname (matching db tep base [])); [now left|].
  destruct (numbers base _); [|now left].
  cbn [snd]. destruct (first_by_id (bare db tep base [])) as [first|] eqn:F; [|now left].
  right. exists first. apply UniqueFacts.first_by_id_In in F.
  unfold bare, exclude in F. apply filter_In in F. destruct F as [F1 F2].
  apply andb_true_iff in F2. destruct F2 as [F2 F3].
  unfold in_tep in F2. apply N.eqb_eq in F2. auto.
Qed.

Lemma name_of_save_other (i : N) (first : Material) (name : str) (db : table) :
  id first <> i -> name_of i (save_partname first name db) = name_of i db.
Proof.
  intros N. unfold name_of, save_partname. induction db as [|r db IH]; [reflexivity|].
  simpl. destruct (N.eqb_spec (id r) (id first)) as [R|R]; simpl.
  - destruct (N.eqb_spec (id r) i) as [R'|R']; [congruence | exact IH].
  - destruct (N.eqb (id r) i); [reflexivity | exact IH].
Qed.

Lemma save_keeps_other (first m : Material) (name : str) (db : table) :
  In m db -> id m <> id first -> In m (save_partname first name db).
Proof.
  intros Hm N. unfold save_partname. apply in_map_iff. exists m. split; [|exact Hm].
  destruct (N.eqb_spec (id m) (id first)); [contradiction | reflexivity].
Qed.

Lemma save_holds_first (first : Material) (name : str) (db : table) :
  In first db ->
  In {| id := id first; tep_code := tep_code first;
        mat_partcode := mat_partcode first; mat_partname := name |}
     (save_partname first name db).
Proof.
  intros H. unfold save_partname. apply in_map_iff. exists first.
  now rewrite N.eqb_refl.
Qed.

Lemma save_ids_unique (first : Material) (name : str) (db : table) :
  ids_unique db -> ids_unique (save_partname first name db).
Proof. unfold ids_unique. now rewrite save_partname_ids. Qed.

Lemma unique_row (db : table) (m m' : Material) :
  ids_unique db -> In m db -> In m' db -> id m = id m' -> m = m'.
Proof.
  unfold ids_unique. induction db as [|r db IH]; intros U Hm Hm' E; [contradiction|].
  simpl in U. inversion U as [|? ? Hr U']; subst.
  destruct Hm as [->|Hm], Hm' as [->|Hm'].
  - reflexivity.
  - exfalso. apply Hr. rewrite E. now apply in_map.
  - exfalso. apply Hr. rewrite <- E. now apply in_map.
  - now apply IH.
Qed.

(** Along a sequence in which no call asks for the name that a rename of
    an earlier call gives, the row with key [i] is renamed at most once,
    and not at all when no call asks for the name it holds. *)
Lemma rewrites_mixed (i : N) (calls : list call) (db : table) :
  ids_unique db ->
  ForallOrdPairs (fun earlier later => asks_renamed earlier later = false) calls ->
  exists trace,
    session db calls = Some trace /\
    rewrites i db trace <= 1 /\
    (forall m, In m db -> id m = i ->
               Forall (fun c => call_tep c = tep_code m ->
                                iexact (base_of_call c) (mat_partname m) = false) calls ->
               rewrites i db trace = 0).
Proof.
  revert db; induction calls as [|c calls IH]; intros db U H.
  - exists []. simpl. auto.
  - inversion H as [|? ? Hc Hrest]; subst.
    cbn [session]. unfold allocate_and_store. rewrite allocate_spec.
    pose proof (allocation_saves db (call_tep c) (call_base c)) as A. cbv zeta in A.
    fold (base_of_call c) in A.
    destruct (allocation db (call_tep c) (call_base c) "") as [name db1]. cbn [snd] in A.
    cbn [stored].
    assert (U1 : ids_unique db1).
    { destruct A as [->|(first & _ & _ & _ & ->)]; [exact U | now apply save_ids_unique]. }
    destruct (IH (create db1 (call_tep c) (call_partcode c) name)
                 (create_ids_unique _ _ _ _ U1) Hrest) as (trace & -> & L & Z).
    eexists. split; [reflexivity|]. cbn [rewrites allocated stored].
    assert (K : forall m, In m db1 -> id m = i ->
                Forall (fun c => call_tep c = tep_code m ->
                                 iexact (base_of_call c) (mat_partname m) = false) calls ->
                rewrites i (create db1 (call_tep c) (call_partcode c) name) trace = 0).
    { intros m Hm E S. apply (Z m); auto. unfold create. apply in_app_iff. now left. }
    destruct A as [->|(first & Hf & Ht & Hx & ->)].
    + rewrite same_name_refl. split; [exact L|].
      intros m Hm E S. inversion S; subst. now apply (K m).
    + destruct (N.eq_dec (id first) i) as [E|E].
      * (* the row is renamed: no later call asks for its new name *)
        assert (R : rewrites i (create (save_partname first (base_of_call c ++ " 1") db)
                                  (call_tep c) (call_partcode c) name) trace = 0).
        { apply (K _ (save_holds_first first _ db Hf) E).
          cbn [tep_code mat_partname].
          rewrite Forall_forall in Hc. apply Forall_forall. intros c' Hc' T.
          specialize (Hc c' Hc'). unfold asks_renamed in Hc.
          rewrite T, Ht, N.eqb_refl in Hc. exact Hc. }
        rewrite R. split.
        -- destruct (same_name _ _); simpl; lia.
        -- intros m Hm Em S. inversion S as [|? ? S1 S2]; subst.
           assert (m = first) by (apply (unique_row db); auto; congruence). subst m.
           rewrite (S1 (eq_sym Ht)) in Hx. discriminate.
      * rewrite (name_of_save_other i first _ db E), same_name_refl. split; [exact L|].
        intros m Hm Em S. inversion S; subst. apply (K m); auto.
        apply save_keeps_other; [exact Hm | congruence].
Qed.

End RenameFacts.

(** C3, as stated, fails: after two allocations of ["TAPE"], an allocation
    of ["TAPE 1"] renames the first item a second time, to ["TAPE 1 1"]. *)
Lemma renamed_twice :
  exists trace,
    session [] [ {| call_tep := 1; call_base := "TAPE"; call_partcode := "A" |};
                 {| call_tep := 1; call_base := "TAPE"; call_partcode := "B" |};
                 {| call_tep := 1; call_base := "TAPE 1"; call_partcode := "C" |} ]
    = Some trace /\
    rewrites 1 [] trace = 2 /\
    map (fun o => name_of 1 (allocated o)) trace
    = [None; Some ("TAPE 1" : str); Some ("TAPE 1 1" : str)].
Proof. eexists. split; [vm_compute; reflexivity|]. split; reflexivity. Qed.

(** C3, amended. Along every sequence of allocations, each stored as a
    new item, in which no call asks for the base of an earlier call of the
    same TEP code followed by [" 1"], the allocator rewrites the name of an
    item of a table with distinct keys at most once; so it does along every
    sequence of allocations of one base name for one TEP code; and along
    every sequence of allocations whatever, the key, the TEP code and the
    part code of every item stay as they are. *)
Theorem renamed_at_most_once
  (db : table) (tep : N) (base_name : str) (partcodes : list str) (i : N)
  (calls : list call) :
  (ids_unique db ->
   ForallOrdPairs (fun earlier later => asks_renamed earlier later = false) calls ->
   exists trace, session db calls = Some trace /\ rewrites i db trace <= 1) /\
  (exists trace,
      session db (map (same_base_call tep base_name) partcodes) = Some trace /\
      rewrites i db trace <= 1) /\
  (exists trace,
      session db calls = Some trace /\
      Forall (fun o =>
                (exists added, map identity (allocated o) = map identity db ++ added) /\
                (exists added, map identity (stored o) = map identity db ++ added))
             trace).
Proof.
  split; [|split].
  - intros U H.
    destruct (RenameFacts.rewrites_mixed i calls db U H) as (trace & E & L & _).
    eauto.
  - destruct (RenameFacts.rewrites_same_base tep base_name i partcodes db)
      as (trace & E & L & _).
    eauto.
  - apply RenameFacts.session_identity. exists []. now rewrite app_nil_r.
Qed.

(** The amended C3 along a sequence that mixes bases and TEP codes: the
    first item, stored as ["TAPE"], is renamed once, by the call for
    ["tape"]. *)
Lemma renamed_at_most_once_witness :
  exists trace,
    session [] [ {| call_tep := 1; call_base := "TAPE"; call_partcode := "A" |};
                 {| call_tep := 1; call_base := "GLUE"; call_partcode := "B" |};
                 {| call_tep := 1; call_base := "tape"; call_partcode := "C" |};
                 {| call_tep := 2; call_base := "TAPE 1"; call_partcode := "D" |};
                 {| call_tep := 1; call_base := "GLUE"; call_partcode := "E" |} ]
    = Some trace /\
    rewrites 1 [] trace <= 1.
Proof.
  apply (proj1 (renamed_at_most_once [] 0 [] [] 1 _)).
  - constructor.
  - repeat constructor.
Defined.


(** ** Forecast months *)

Module MonthFacts.
Import Text TextFacts.

Lemma split_head (sep : ascii) (s : str) :
  nth_error (split sep s) 0 = Some (before_first sep s).
Proof.
  induction s as [|c t IH]; simpl; [reflexivity|].
  destruct (eqb_char c sep); [reflexivity|].
  destruct (split sep t) as [|w ws]; simpl in *; [discriminate|].
  now injection IH as ->.
Qed.

Lemma first_prefix_range (lower : str) (names : list str) (i n : Z) :
  first_prefix lower names i = Some n -> (i < n <= i + Z.of_nat (length names))%Z.
Proof.
  revert i; induction names as [|a rest IH]; intros i; simpl; [discriminate|].
  destruct (startswith lower a || eqb lower a).
  - intros E; injection E as <-. lia.
  - intros E. apply IH in E. lia.
Qed.

(** Every month index lies in 1..12. *)
Lemma month_index_range (val : str) (n : Z) :
  _month_index_from_string val = Some n -> (1 <= n <= 12)%Z.
Proof.
  unfold _month_index_from_string. destruct val as [|c v]; [discriminate|].
  destruct (strip (c :: v)) as [|c' s']; [discriminate|].
  destruct (first_prefix _ abbr 0) eqn:A.
  - intros E; injection E as <-. apply first_prefix_range in A. simpl in A. lia.
  - destruct (first_prefix _ months 0) eqn:M.
    + intros E; injection E as <-. apply first_prefix_range in M. simpl in M. lia.
    + unfold numeric_fallback. destruct (numeric_head _); [|discriminate].
      destruct (int _); [|discriminate].
      destruct ((1 <=? z) && (z <=? 12))%Z eqn:R; [|discriminate].
      intros E; injection E as <-. lia.
Qed.

Lemma ordered_swap (i j : Z) : ordered i j = ordered j i.
Proof.
  unfold ordered. destruct (Z.gtb_spec i j), (Z.gtb_spec j i); try reflexivity; try lia.
  f_equal; lia.
Qed.

Lemma ordered_min_max (i j : Z) : ordered i j = (Z.min i j, Z.max i j).
Proof.
  unfold ordered. destruct (Z.gtb_spec i j); f_equal; lia.
Qed.

Lemma fold_left_app_skip {A B : Type} (f : A -> B -> A) (l1 l2 : list B) (x : B) (a : A) :
  (forall acc, f acc x = acc) ->
  fold_left f (l1 ++ x :: l2) a = fold_left f (l1 ++ l2) a.
Proof.
  intros H. rewrite !fold_left_app. simpl. now rewrite H.
Qed.

(** [seen] and [names] hold the same names, and names are never dropped. *)
Lemma label_step_invariant (m : monthly_row) (seen names : list str) :
  (forall x, In x seen <-> In x names) ->
  (forall x, In x (fst (label_step (seen, names) m))
             <-> In x (snd (label_step (seen, names) m))) /\
  (forall x, In x names -> In x (snd (label_step (seen, names) m))).
Proof.
  intros H. unfold label_step. simpl fst; simpl snd.
  destruct (row_name m) as [[|c name]|]; simpl; auto.
  destruct (negb (mem (c :: name) seen)); simpl; auto.
  split.
  - intros x. rewrite in_app_iff, H. simpl. tauto.
  - intros x Hx. apply in_app_iff. auto.
Qed.

Lemma label_fold_invariant (rows : list monthly_row) (seen names : list str) :
  (forall x, In x seen <-> In x names) ->
  (forall x, In x (fst (fold_left label_step rows (seen, names)))
             <-> In x (snd (fold_left label_step rows (seen, names)))) /\
  (forall x, In x names -> In x (snd (fold_left label_step rows (seen, names)))).
Proof.
  revert seen names; induction rows as [|m rows IH]; intros seen names H; simpl; [auto|].
  destruct (label_step_invariant m seen names H) as [S1 S2].
  destruct (label_step (seen, names) m) as [seen' names']. simpl in S1, S2.
  destruct (IH seen' names' S1) as [I1 I2]. split; [exact I1|].
  intros x Hx. apply I2, S2, Hx.
Qed.

Lemma label_step_adds (m : monthly_row) (name : str) (seen names : list str) :
  (forall x, In x seen <-> In x names) ->
  row_name m = Some name -> name <> [] ->
  In name (snd (label_step (seen, names) m)).
Proof.
  intros H R Hne. unfold label_step. rewrite R. destruct name as [|c name]; [contradiction|].
  simpl fst; simpl snd.
  destruct (negb (mem (c :: name) seen)) eqn:M; simpl.
  - apply in_app_iff. simpl. auto.
  - apply negb_false_iff, mem_In in M. now apply H.
Qed.

Lemma label_names_in (before after : list monthly_row) (m : monthly_row) (name : str) :
  row_name m = Some name -> name <> [] ->
  In name (label_names (before ++ m :: after)).
Proof.
  intros R Hne. unfold label_names. rewrite fold_left_app. simpl.
  pose proof (label_fold_invariant before [] []) as B. simpl in B.
  destruct B as [B _]; [tauto|].
  destruct (fold_left label_step before ([], [])) as [seen names] eqn:E. simpl in B.
  pose proof (label_step_adds m name seen names B R Hne) as S1.
  destruct (label_step (seen, names) m) as [seen' names'] eqn:E'. simpl in S1.
  assert (B' : forall x, In x seen' <-> In x names').
  { pose proof (label_fold_invariant [m] seen names B) as Q. simpl in Q.
    rewrite E' in Q. apply Q. }
  apply (label_fold_invariant after seen' names' B'). exact S1.
Qed.

(** [for_each] returns the results one by one, or some call raises. *)
Lemma for_each_pointwise {A B : Type} (f : A -> option B) (xs : list A) :
  match for_each f xs with
  | Some ys => Forall2 (fun x y => f x = Some y) xs ys
  | None => exists x, In x xs /\ f x = None
  end.
Proof.
  induction xs as [|x xs IH]; simpl; [constructor|].
  destruct (f x) as [y|] eqn:E; [|exists x; auto].
  destruct (for_each f xs) as [ys|]; simpl.
  - now constructor.
  - destruct IH as (x' & H & E'). exists x'. auto.
Qed.

End MonthFacts.

(** C6. ["Jan-2026"] is month 1 and ["december"] month 12; ["13"] and the
    empty token have no month index. *)
Theorem month_index_examples :
  _month_index_from_string "Jan-2026" = Some 1%Z /\
  _month_index_from_string "december" = Some 12%Z /\
  _month_index_from_string "13" = None /\
  _month_index_from_string "" = None.
Proof. repeat split; vm_compute; reflexivity. Qed.

(** C7, as stated, fails: neither prefix rule accepts the token ["1/2-3"];
    split at its first delimiter it would give month 1, but the code looks
    for ["-"] first, reads ["1/2"] and reports no month. *)
Lemma numeric_fallback_first_delimiter_fails :
  no_month_prefix (Text.strip "1/2-3") = true /\
  spec_numeric_fallback (Text.strip "1/2-3") = Some 1%Z /\
  _month_index_from_string "1/2-3" = None.
Proof. repeat split; vm_compute; reflexivity. Qed.

(** C7, amended. For a token that neither prefix rule accepts, the result
    is the numeric fallback that splits at the first ["-"] when the token
    has one, otherwise at the first ["/"] when it has one, otherwise takes
    the whole token, parses the left segment as an integer and accepts it
    only in 1..12. *)
Theorem numeric_fallback_hyphen_first (val : str) :
  val <> [] -> Text.strip val <> [] ->
  no_month_prefix (Text.strip val) = true ->
  _month_index_from_string val = hyphen_first_fallback (Text.strip val).
Proof.
  intros Hval Hs Hp. unfold _month_index_from_string, no_month_prefix in *.
  destruct val as [|c v]; [contradiction|].
  destruct (Text.strip (c :: v)) as [|c' s'] eqn:E; [contradiction|].
  destruct (first_prefix _ abbr 0); [discriminate|].
  destruct (first_prefix _ months 0); [discriminate|].
  unfold numeric_fallback, numeric_head, hyphen_first_fallback, accept_month.
  destruct (Text.contains "-" (c' :: s')).
  - now rewrite MonthFacts.split_head.
  - destruct (Text.contains "/" (c' :: s')); [now rewrite MonthFacts.split_head | reflexivity].
Qed.

(** The amended C7 at the token ["01/2026"], which is month 1. *)
Lemma numeric_fallback_hyphen_first_witness :
  _month_index_from_string "01/2026" = hyphen_first_fallback (Text.strip "01/2026") /\
  hyphen_first_fallback (Text.strip "01/2026") = Some 1%Z.
Proof.
  split.
  - apply numeric_fallback_hyphen_first; [discriminate | discriminate | reflexivity].
  - reflexivity.
Defined.

(** C8. Giving the two month parameters in the other order changes
    nothing, in the dashboard and in the API.  When both parse, the API
    answers for the range from the smaller to the larger index: every
    entry carries the label of that range and the total of its rows over
    it.  The dashboard selects that range when it has no forecast to show;
    when it has one it raises [AttributeError] before the range is read,
    whatever the order. *)
Theorem range_swap (forecasts : list (list monthly_row)) (a b : str) :
  admin_dashboard_range forecasts a b = admin_dashboard_range forecasts b a /\
  get_forecasts_by_customer forecasts a b = get_forecasts_by_customer forecasts b a /\
  (forall i j : Z,
    month_of_param a = Some i -> month_of_param b = Some j ->
    match get_forecasts_by_customer forecasts a b with
    | Listed result =>
        map selected_months result
        = map (fun _ => Some (range_label (Z.min i j) (Z.max i j))) forecasts /\
        map total_amount_selected_months result
        = map (fun rows => total_range (Z.min i j) (Z.max i j) rows 0%float) forecasts
    | Raised =>
        exists rows, In rows forecasts /\
          (_forecast_to_output rows = None \/
           total_range (Z.min i j) (Z.max i j) rows 0%float = None)
    | BadRequest => False
    end) /\
  (forall i j : Z,
    month_of_param (Text.strip a) = Some i -> month_of_param (Text.strip b) = Some j ->
    admin_dashboard_range forecasts a b
    = match forecasts with
      | [] => Selected (Some (select_range [] (Z.min i j) (Z.max i j)))
      | _ :: _ => AttributeError
      end).
Proof.
  split; [|split; [|split]].
  - unfold admin_dashboard_range.
    destruct (previous_forecasts_list forecasts); [|reflexivity].
    destruct (month_of_param (Text.strip a)) as [i|], (month_of_param (Text.strip b)) as [j|];
      try reflexivity.
    now rewrite (MonthFacts.ordered_swap i j).
  - unfold get_forecasts_by_customer.
    destruct (month_of_param a) as [i|] eqn:A, (month_of_param b) as [j|] eqn:B.
    + now rewrite (MonthFacts.ordered_swap i j).
    + destruct a, b; reflexivity.
    + destruct a, b; reflexivity.
    + destruct a, b; reflexivity.
  - intros i j A B. unfold get_forecasts_by_customer. rewrite A, B.
    rewrite MonthFacts.ordered_min_max.
    match goal with |- context [for_each ?f forecasts] =>
      pose proof (MonthFacts.for_each_pointwise f forecasts) as P;
      destruct (for_each f forecasts) as [result|]
    end.
    + induction P as [|rows y forecasts' result' E P IH]; [split; reflexivity|].
      destruct IH as [IH1 IH2]. simpl. rewrite IH1, IH2.
      destruct (_forecast_to_output rows); [|discriminate].
      destruct (total_range (Z.min i j) (Z.max i j) rows 0%float); [|discriminate].
      injection E as <-. split; reflexivity.
    + destruct P as (rows & H & E). exists rows. split; [exact H|].
      destruct (_forecast_to_output rows); [|now left].
      destruct (total_range (Z.min i j) (Z.max i j) rows 0%float); [discriminate | now right].
  - intros i j A B. unfold admin_dashboard_range. rewrite A, B.
    rewrite MonthFacts.ordered_min_max. now destruct forecasts.
Qed.

(** C8 at the records of the range example, from ["March"] to
    ["January"]: the API answers with the label and the total of January
    to March; the dashboard selects that range when it has no forecast,
    and raises when it has this one. *)
Lemma range_swap_witness :
  match get_forecasts_by_customer
          [[Row "Jan-2026" (Number 10) (Number 5); Row "Feb-2026" (Number 20) (Number 2);
            Row "Mar-2026" (Number 5) (Number 100)]] "March" "January" with
  | Listed result =>
      map selected_months result = [Some ("JANUARY to MARCH" : str)] /\
      map total_amount_selected_months result = [Some 590%float]
  | _ => False
  end /\
  admin_dashboard_range [] "March" "January" = Selected (Some (select_range [] 1 3)) /\
  admin_dashboard_range
    [[Row "Jan-2026" (Number 10) (Number 5); Row "Feb-2026" (Number 20) (Number 2);
      Row "Mar-2026" (Number 5) (Number 100)]] "March" "January"
  = AttributeError.
Proof.
  split; [|split].
  - pose proof (proj1 (proj2 (proj2 (range_swap
      [[Row "Jan-2026" (Number 10) (Number 5); Row "Feb-2026" (Number 20) (Number 2);
        Row "Mar-2026" (Number 5) (Number 100)]] "March" "January"))) 3%Z 1%Z
      eq_refl eq_refl) as H.
    vm_compute in H. vm_compute. exact H.
  - exact (proj2 (proj2 (proj2 (range_swap [] "March" "January"))) 3%Z 1%Z eq_refl eq_refl).
  - exact (proj2 (proj2 (proj2 (range_swap
      [[Row "Jan-2026" (Number 10) (Number 5); Row "Feb-2026" (Number 20) (Number 2);
        Row "Mar-2026" (Number 5) (Number 100)]] "March" "January"))) 3%Z 1%Z
      eq_refl eq_refl).
Defined.

(** C9, as stated, fails: a row dated ["???"] has no month index, yet its
    token is the very label. *)
Lemma unparseable_token_in_label :
  _month_index_from_string "???" = None /\
  label_names [Row "???" (Number 1) (Number 1)] = ["???" : str] /\
  _months_label_from_rows [Row "???" (Number 1) (Number 1)] = Joined "???".
Proof. repeat split; vm_compute; reflexivity. Qed.

(** C9, amended. A row whose date has no month index adds nothing to the
    totals of [_range_totals]; in [_months_label_from_rows] its stripped
    token is passed through as one of the names of the label when it is not
    empty, and when it is empty the label is that of the other rows.  Both
    functions are total: no row makes them raise. *)
Theorem unparseable_row_skipped
  (before after : list monthly_row) (date : str) (unit_price quantity : cell)
  (from_idx to_idx : option Z) :
  _month_index_from_string date = None ->
  let rows := before ++ Row date unit_price quantity :: after in
  _range_totals rows from_idx to_idx = _range_totals (before ++ after) from_idx to_idx /\
  (Text.strip date <> [] ->
   In (Text.strip date) (label_names rows) /\
   _months_label_from_rows rows = Joined (join ", " (label_names rows))) /\
  (Text.strip date = [] ->
   _months_label_from_rows rows = _months_label_from_rows (before ++ after)).
Proof.
  intros U rows. subst rows. split; [|split].
  - unfold _range_totals. destruct from_idx as [f|], to_idx as [t|]; try reflexivity.
    apply MonthFacts.fold_left_app_skip. intros acc. simpl. now rewrite U.
  - intros Hne.
    assert (I : In (Text.strip date)
                   (label_names (before ++ Row date unit_price quantity :: after))).
    { apply MonthFacts.label_names_in; [|exact Hne]. simpl. now rewrite U. }
    split; [exact I|]. unfold _months_label_from_rows.
    destruct (label_names _); [contradiction | reflexivity].
  - intros He. unfold _months_label_from_rows, label_names.
    rewrite MonthFacts.fold_left_app_skip; [reflexivity|].
    intros acc. unfold label_step. simpl. now rewrite U, He.
Qed.

(** The amended C9 at a row dated ["???"] that follows a January row. *)
Lemma unparseable_row_skipped_witness :
  let rows := [Row "Jan-2026" (Number 10) (Number 5)] ++ Row "???" (Number 3) (Number 4) :: [] in
  _range_totals rows (Some 1%Z) (Some 2%Z)
  = _range_totals ([Row "Jan-2026" (Number 10) (Number 5)] ++ []) (Some 1%Z) (Some 2%Z) /\
  (Text.strip "???" <> [] ->
   In (Text.strip "???") (label_names rows) /\
   _months_label_from_rows rows = Joined (join ", " (label_names rows))) /\
  (Text.strip "???" = [] ->
   _months_label_from_rows rows
   = _months_label_from_rows ([Row "Jan-2026" (Number 10) (Number 5)] ++ [])).
Proof.
  apply (unparseable_row_skipped [Row "Jan-2026" (Number 10) (Number 5)] [] "???").
  reflexivity.
Defined.

(** ** More on the customer parts list *)

Module EnsureFacts.
Import Text TextFacts SpaceFacts PartsFacts.

Lemma find_partcode_none (code : str) (parts : parts_list) :
  find (has_partcode code) parts = None <-> ~ In code (existing_codes parts).
Proof.
  induction parts as [|[|c n] parts IH]; simpl.
  - tauto.
  - exact IH.
  - destruct (eqb (_normalize_space c) code) eqn:E.
    + apply eqb_eq in E. split; [discriminate | intros H; exfalso; apply H; now left].
    + apply eqb_neq in E. rewrite IH. tauto.
Qed.

Lemma existing_codes_app (a b : parts_list) :
  existing_codes (a ++ b) = existing_codes a ++ existing_codes b.
Proof.
  induction a as [|[|c n] a IH]; simpl; [reflexivity | exact IH | now rewrite IH].
Qed.

Lemma existing_names_app (a b : parts_list) :
  existing_names (a ++ b) = existing_names a ++ existing_names b.
Proof.
  induction a as [|[|c n] a IH]; simpl; [reflexivity | exact IH |].
  destruct (_normalize_space n); [exact IH | now rewrite IH].
Qed.

Lemma NoDup_snoc {A : Type} (l : list A) (x : A) :
  NoDup l -> ~ In x l -> NoDup (l ++ [x]).
Proof.
  intros Hl Hx. induction Hl as [|y l Hy Hl IH]; simpl.
  - constructor; [intros [] | constructor].
  - constructor.
    + rewrite in_app_iff. simpl. intros [H|[H|[]]]; [now apply Hy|].
      apply Hx. now left.
    + apply IH. intros H. apply Hx. now right.
Qed.

(** The name chosen for a new part code: the base or a numbered form of
    it, in either case a name that no entry holds. *)
Lemma unique_partname_unused (parts : parts_list) (base_name part_code : str) :
  tidy base_name = true -> tidy part_code = true ->
  find (has_partcode part_code) parts = None ->
  exists u, _unique_partname_for_customer parts base_name part_code = Some u /\
            ~ In (lower u) (existing_names parts) /\
            (u = base_name \/ exists i, (1 <= i)%N /\ u = numbered base_name i).
Proof.
  intros Hb Hc Hf. unfold _unique_partname_for_customer.
  rewrite !normalize_tidy by assumption. rewrite Hf.
  destruct (negb (mem (lower base_name) (existing_names parts))) eqn:M.
  - exists base_name. split; [reflexivity|]. split; [|now left].
    apply negb_true_iff in M. now apply mem_false.
  - pose proof (suffix_search_spec (S (length parts)) base_name (existing_names parts) 1) as H.
    destruct (suffix_search (S (length parts)) base_name (existing_names parts) 1) as [u|] eqn:E.
    + destruct H as (k & _ & -> & Hfree & _).
      exists (numbered base_name (1 + N.of_nat k)). split; [reflexivity|].
      split; [exact Hfree|]. right. exists (1 + N.of_nat k)%N. split; [lia | reflexivity].
    + exfalso. revert E. apply suffix_search_finds.
      pose proof (existing_names_length parts). lia.
Qed.

(** What [_ensure_customer_part_entry] does for a part code that no entry
    holds. *)
Lemma ensure_absent (parts : parts_list) (part_code part_name : str) :
  let pc := _normalize_space (Some part_code) in
  let pn := str_or (_normalize_space (Some part_name)) pc in
  find (has_partcode pc) parts = None ->
  exists used,
    _ensure_customer_part_entry parts part_code part_name
    = Some (true, used, parts ++ [PartDict (Some pc) (Some used)]) /\
    ~ In (lower used) (existing_names parts) /\
    tidy used = true /\
    (used = pn \/ exists i, (1 <= i)%N /\ used = numbered pn i).
Proof.
  intros pc pn F. unfold _ensure_customer_part_entry. fold pc. fold pn. rewrite F.
  assert (Tpc : tidy pc = true) by apply tidy_normalize.
  assert (Tpn : tidy pn = true).
  { apply tidy_str_or; [apply tidy_normalize | exact Tpc]. }
  destruct (unique_partname_unused parts pn pc Tpn Tpc F) as (u & E & Hfree & Hform).
  destruct (unique_partname_fresh parts pn pc Tpn Tpc F) as (u' & E' & Tu & _).
  rewrite E in E'. injection E' as <-.
  exists u. rewrite E. auto.
Qed.

End EnsureFacts.

(** X1. [_normalize_space] yields a canonical form: its result has no
    white space at either end and no white space other than single spaces
    between words; normalizing a second time changes nothing; and the
    texts it leaves as they are are exactly the texts of that form. *)
Theorem normalize_space_canonical (s : option str) (t : str) :
  tidy (_normalize_space s) = true /\
  _normalize_space (Some (_normalize_space s)) = _normalize_space s /\
  (_normalize_space (Some t) = t <-> tidy t = true).
Proof.
  split; [apply SpaceFacts.tidy_normalize|].
  split; [apply SpaceFacts.normalize_idem|].
  split.
  - intros <-. apply SpaceFacts.tidy_normalize.
  - apply SpaceFacts.normalize_tidy.
Qed.

(** X2. For a part code that no entry of the parts list holds (after
    normalization), [_ensure_customer_part_entry] reports a change and
    appends exactly one entry, with the normalized code; the name of the
    entry is the normalized part name (the code when the name is blank) or
    that name followed by a number from 1 on, it is in canonical form, and
    no entry held it before, whatever the case of its letters. *)
Theorem ensure_new_part_code (parts : parts_list) (part_code part_name : str) :
  ~ In (_normalize_space (Some part_code)) (existing_codes parts) ->
  exists used,
    _ensure_customer_part_entry parts part_code part_name
    = Some (true, used,
            parts ++ [PartDict (Some (_normalize_space (Some part_code))) (Some used)]) /\
    ~ In (Text.lower used) (existing_names parts) /\
    _normalize_space (Some used) = used /\
    (used = str_or (_normalize_space (Some part_name)) (_normalize_space (Some part_code)) \/
     exists i, (1 <= i)%N /\
       used = numbered (str_or (_normalize_space (Some part_name))
                               (_normalize_space (Some part_code))) i).
Proof.
  intros H. apply EnsureFacts.find_partcode_none in H.
  destruct (EnsureFacts.ensure_absent parts part_code part_name H) as (u & E & Hf & Tu & Hform).
  exists u. split; [exact E|]. split; [exact Hf|]. split; [|exact Hform].
  now apply SpaceFacts.normalize_tidy.
Qed.

Lemma ensure_new_part_code_witness :
  exists used,
    _ensure_customer_part_entry
      [PartDict (Some ("P1" : str)) (Some ("Tape" : str)); NotDict;
       PartDict (Some ("P3" : str)) (Some ("TAPE  1" : str))] " P2 " " tape "
    = Some (true, used,
            [PartDict (Some ("P1" : str)) (Some ("Tape" : str)); NotDict;
             PartDict (Some ("P3" : str)) (Some ("TAPE  1" : str))]
            ++ [PartDict (Some (_normalize_space (Some (" P2 " : str)))) (Some used)]) /\
    ~ In (Text.lower used)
         (existing_names
            [PartDict (Some ("P1" : str)) (Some ("Tape" : str)); NotDict;
             PartDict (Some ("P3" : str)) (Some ("TAPE  1" : str))]) /\
    _normalize_space (Some used) = used /\
    (used = str_or (_normalize_space (Some (" tape " : str)))
                   (_normalize_space (Some (" P2 " : str))) \/
     exists i, (1 <= i)%N /\
       used = numbered (str_or (_normalize_space (Some (" tape " : str)))
                               (_normalize_space (Some (" P2 " : str)))) i).
Proof.
  apply (ensure_new_part_code
           [PartDict (Some ("P1" : str)) (Some ("Tape" : str)); NotDict;
            PartDict (Some ("P3" : str)) (Some ("TAPE  1" : str))] " P2 " " tape ").
  vm_compute. intros [H|[H|[]]]; discriminate H.
Defined.

(** X3. [_ensure_customer_part_entry] keeps the parts list consistent:
    when the normalized part codes of the entries are pairwise distinct,
    and so are their normalized names whatever the case, the same holds of
    the list the call leaves; that list begins with the old one, and it
    holds the part code of the call. *)
Theorem ensure_keeps_parts_distinct (parts : parts_list) (part_code part_name : str) :
  NoDup (existing_codes parts) -> NoDup (existing_names parts) ->
  exists (changed : bool) (used : str) (parts' : parts_list),
    _ensure_customer_part_entry parts part_code part_name = Some (changed, used, parts') /\
    NoDup (existing_codes parts') /\ NoDup (existing_names parts') /\
    (exists added, parts' = parts ++ added) /\
    In (_normalize_space (Some part_code)) (existing_codes parts').
Proof.
  intros Hc Hn.
  destruct (find (has_partcode (_normalize_space (Some part_code))) parts) as [p|] eqn:F.
  - exists false,
      (str_or (_normalize_space (get_Partname p))
              (str_or (_normalize_space (Some part_name)) (_normalize_space (Some part_code)))),
      parts.
    unfold _ensure_customer_part_entry. rewrite F.
    split; [reflexivity|]. split; [exact Hc|]. split; [exact Hn|].
    split; [exists []; now rewrite app_nil_r|].
    destruct (in_dec (list_eq_dec ascii_dec) (_normalize_space (Some part_code))
                     (existing_codes parts)) as [H|H]; [exact H|].
    apply EnsureFacts.find_partcode_none in H. congruence.
  - destruct (EnsureFacts.ensure_absent parts part_code part_name F) as (u & E & Hf & Tu & _).
    exists true, u, (parts ++ [PartDict (Some (_normalize_space (Some part_code))) (Some u)]).
    split; [exact E|].
    rewrite EnsureFacts.existing_codes_app, EnsureFacts.existing_names_app. simpl.
    rewrite SpaceFacts.normalize_idem, (SpaceFacts.normalize_tidy u Tu).
    split; [|split; [|split]].
    + apply EnsureFacts.NoDup_snoc; [exact Hc|]. now apply EnsureFacts.find_partcode_none.
    + destruct u as [|c u]; [now rewrite app_nil_r|].
      now apply EnsureFacts.NoDup_snoc.
    + eauto.
    + rewrite in_app_iff. right. now left.
Qed.

Lemma ensure_keeps_parts_distinct_witness :
  exists (changed : bool) (used : str) (parts' : parts_list),
    _ensure_customer_part_entry
      [PartDict (Some ("P1" : str)) (Some ("Tape" : str))] "P2" "TAPE"
    = Some (changed, used, parts') /\
    NoDup (existing_codes parts') /\ NoDup (existing_names parts') /\
    (exists added, parts' = [PartDict (Some ("P1" : str)) (Some ("Tape" : str))] ++ added) /\
    In (_normalize_space (Some ("P2" : str))) (existing_codes parts').
Proof.
  apply (ensure_keeps_parts_distinct [PartDict (Some ("P1" : str)) (Some ("Tape" : str))]
           "P2" "TAPE").
  - vm_compute. constructor; [intros [] | constructor].
  - vm_compute. constructor; [intros [] | constructor].
Defined.

(** ** The allocator and its callers *)

Module CallerFacts.
Import Text TextFacts SpaceFacts AllocFacts TableFacts UniqueFacts RenameFacts.

Lemma lstrip_fixed (s : str) :
  match s with c :: _ => isspace c = false | [] => True end -> lstrip s = s.
Proof. destruct s as [|c t]; simpl; [reflexivity|]. now intros ->. Qed.

Lemma strip_idem (s : str) : strip (strip s) = strip s.
Proof.
  unfold strip at 1. rewrite lstrip_fixed by apply strip_head.
  apply strip_rstrip_fixed.
Qed.

Lemma filter_all {A : Type} (f : A -> bool) (l : list A) :
  (forall x, In x l -> f x = true) -> filter f l = l.
Proof.
  induction l as [|x l IH]; simpl; intros H; [reflexivity|].
  rewrite (H x) by now left. f_equal. apply IH. intros y Hy. apply H. now right.
Qed.

Lemma exclude_absent (exclude_partcode : str) (qs : table) :
  (forall m, In m qs -> mat_partcode m <> exclude_partcode) ->
  exclude exclude_partcode qs = qs.
Proof.
  intros H. unfold exclude. destruct exclude_partcode as [|c e]; [reflexivity|].
  apply filter_all. intros m Hm. apply negb_true_iff, eqb_neq. now apply H.
Qed.

(** Excluding a part code that the TEP code does not hold changes
    nothing. *)
Lemma allocation_absent (db : table) (tep : N) (base_name exclude_partcode : str) :
  (forall m, In m db -> tep_code m = tep -> mat_partcode m <> strip exclude_partcode) ->
  allocation db tep base_name exclude_partcode = allocation db tep base_name "".
Proof.
  intros H. unfold allocation, matching, bare.
  change (strip (list_ascii_of_string "")) with (@nil ascii).
  assert (E : forall f : Material -> bool,
             exclude (strip exclude_partcode) (filter (fun m => in_tep tep m && f m) db)
             = exclude [] (filter (fun m => in_tep tep m && f m) db)).
  { intros f. rewrite exclude_absent; [reflexivity|].
    intros m Hm. apply filter_In in Hm. destruct Hm as [Hm Hf].
    apply andb_true_iff in Hf. destruct Hf as [Ht _]. apply N.eqb_eq in Ht.
    now apply H. }
  now rewrite !E.
Qed.

Lemma map_identity_filter (tep : N) (partcode : str) (db : table) :
  map identity (filter (of_tep_and_partcode tep partcode) db)
  = filter (identified tep partcode) (map identity db).
Proof.
  induction db as [|m db IH]; simpl; [reflexivity|].
  change (identified tep partcode (identity m)) with (of_tep_and_partcode tep partcode m).
  destruct (of_tep_and_partcode tep partcode m); simpl; now rewrite IH.
Qed.

Lemma filter_none_identity (tep : N) (partcode : str) (db db1 : table) :
  map identity db1 = map identity db ->
  filter (of_tep_and_partcode tep partcode) db1 = [] ->
  forall m, In m db -> tep_code m = tep -> mat_partcode m <> partcode.
Proof.
  intros E F m Hm Ht Hc.
  assert (G : filter (of_tep_and_partcode tep partcode) db = []).
  { apply (f_equal (map identity)) in F. rewrite map_identity_filter, E in F.
    rewrite <- map_identity_filter in F. simpl in F.
    now destruct (filter (of_tep_and_partcode tep partcode) db). }
  assert (I : In m (filter (of_tep_and_partcode tep partcode) db)).
  { apply filter_In. split; [exact Hm|]. unfold of_tep_and_partcode, in_tep.
    rewrite Ht, Hc, N.eqb_refl, eqb_refl. reflexivity. }
  rewrite G in I. exact I.
Qed.

Lemma create_identity (db : table) (tep : N) (partcode name : str) :
  map identity (create db tep partcode name)
  = map identity db ++ [identity (new_row db tep partcode name)].
Proof. unfold create. now rewrite map_app. Qed.

(** An allocation with the new part code excluded, followed by the
    creation of the item, when the TEP code does not hold the part code. *)
Lemma allocate_then_create (db : table) (tep : N) (base_name partcode : str) :
  ids_unique db -> names_unique db ->
  strip partcode = partcode ->
  filter (of_tep_and_partcode tep partcode)
         (snd (allocation db tep base_name partcode)) = [] ->
  let r := allocation db tep base_name partcode in
  ids_unique (create (snd r) tep partcode (fst r)) /\
  names_unique (create (snd r) tep partcode (fst r)) /\
  fresh_name tep (fst r) (snd r) /\
  map identity (snd r) = map identity db.
Proof.
  intros Hi Hn Hs F r.
  pose proof (allocation_identity db tep base_name partcode) as I. fold r in I.
  assert (A : r = allocation db tep base_name "").
  { apply allocation_absent. rewrite Hs.
    exact (filter_none_identity tep partcode db (snd r) I F). }
  destruct (allocation_invariant db tep base_name Hi Hn) as (Hi' & Hn' & Hf).
  rewrite <- A in Hi', Hn', Hf.
  split; [now apply create_ids_unique|].
  split; [now apply create_names_unique|]. auto.
Qed.

Lemma first_by_id_none (qs : table) : first_by_id qs = None -> qs = [].
Proof.
  destruct qs as [|m qs]; [reflexivity|]. simpl.
  destruct (first_by_id qs) as [m'|]; [|discriminate].
  destruct (id m' <? id m)%N; discriminate.
Qed.

Lemma save_partname_one (first : Material) (name : str) (before after : table) :
  ids_unique (before ++ first :: after) ->
  save_partname first name (before ++ first :: after)
  = before ++ {| id := id first; tep_code := tep_code first;
                 mat_partcode := mat_partcode first; mat_partname := name |} :: after.
Proof.
  unfold ids_unique. rewrite map_app. simpl. intros H.
  apply NoDup_remove_2 in H. rewrite in_app_iff in H.
  rewrite save_partname_app. rewrite save_partname_absent by tauto.
  f_equal. change (first :: after) with ([first] ++ after).
  rewrite save_partname_app. rewrite (save_partname_absent first name after) by tauto.
  unfold save_partname. simpl. now rewrite N.eqb_refl.
Qed.

Lemma exclude_In (exclude_partcode : str) (qs : table) (m : Material) :
  In m (exclude exclude_partcode qs) ->
  In m qs /\ (exclude_partcode = [] \/ mat_partcode m <> exclude_partcode).
Proof.
  unfold exclude. destruct exclude_partcode as [|c e]; [auto|].
  intros H. apply filter_In in H. destruct H as [H E]. split; [exact H|].
  right. now apply eqb_neq, negb_true_iff.
Qed.

(** What an allocation does to the table, the keys being distinct. *)
Lemma allocation_frame (db : table) (tep : N) (base_name exclude_partcode : str) :
  ids_unique db ->
  let base := str_or (strip base_name) "UNKNOWN" in
  let r := allocation db tep base_name exclude_partcode in
  snd r = db \/
  exists before first after,
    db = before ++ first :: after /\
    snd r = before ++ {| id := id first; tep_code := tep_code first;
                         mat_partcode := mat_partcode first;
                         mat_partname := base ++ " 1" |} :: after /\
    fst r = base ++ " 2" /\
    tep_code first = tep /\
    iexact base (mat_partname first) = true /\
    (strip exclude_partcode = [] \/ mat_partcode first <> strip exclude_partcode).
Proof.
  intros Hi base. unfold allocation. fold base.
  destruct (map mat_partname (matching db tep base (strip exclude_partcode)))
    as [|n names]; [now left|].
  destruct (numbers base (n :: names)); [|now left].
  destruct (first_by_id (bare db tep base (strip exclude_partcode))) as [first|] eqn:F;
    [|now left].
  right. cbn [fst snd].
  apply first_by_id_In in F. unfold bare in F.
  apply exclude_In in F. destruct F as [F X].
  apply filter_In in F. destruct F as [Hin Hf].
  apply andb_true_iff in Hf. destruct Hf as [Ht Hb]. apply N.eqb_eq in Ht.
  destruct (in_split _ _ Hin) as (before & after & ->).
  exists before, first, after. split; [reflexivity|].
  split; [now apply save_partname_one|]. auto.
Qed.

End CallerFacts.

(** X4. When [create_material_by_tep_code] returns the material, on a
    table with distinct keys in which no two items of one TEP code have
    names that are equal but for case, the table it leaves has the same
    two properties.  The table is the one the allocator left, whose items
    are the old ones (same key, TEP code and part code), followed by the
    new item; the name of the new item was not, whatever the case, the
    name of another item of its TEP code; its part code is the stripped
    part code of the payload, and no item of the TEP code had it. *)
Theorem created_material_keeps_names_unique
  (teps : list Tep.row) (master : MaterialList.table) (db : table)
  (code payload_mat_partcode part_code customer_name : str)
  (material : Material) (db' : table) :
  ids_unique db -> names_unique db ->
  create_material_by_tep_code teps master db code payload_mat_partcode
                              part_code customer_name
  = (Returned material, db') ->
  ids_unique db' /\ names_unique db' /\
  (exists db1, db' = db1 ++ [material] /\ map identity db1 = map identity db /\
               fresh_name (tep_code material) (mat_partname material) db1) /\
  mat_partcode material = Text.strip payload_mat_partcode /\
  (forall m, In m db -> tep_code m = tep_code material ->
             mat_partcode m <> mat_partcode material).
Proof.
  intros Hi Hn. unfold create_material_by_tep_code.
  destruct (Text.strip code) as [|c0 tc]; [discriminate|].
  destruct (Tep.first _) as [tep|]; [|discriminate].
  pose proof (CallerFacts.strip_idem payload_mat_partcode) as Hs.
  destruct (Text.strip payload_mat_partcode) as [|c1 pc] eqn:Epc; [discriminate|].
  destruct (MaterialList.by_partcode _ master) as [mrow|]; [|discriminate].
  rewrite AllocFacts.allocate_spec.
  pose proof (CallerFacts.allocate_then_create db (Tep.id tep)
                (MaterialList.mat_partname mrow) (c1 :: pc) Hi Hn Hs) as A.
  pose proof (CallerFacts.filter_none_identity (Tep.id tep) (c1 :: pc) db) as B.
  destruct (allocation db (Tep.id tep) (MaterialList.mat_partname mrow) (c1 :: pc))
    as [name db1].
  cbn [fst snd] in A. unfold get_or_create.
  destruct (filter (of_tep_and_partcode (Tep.id tep) (c1 :: pc)) db1) as [|m1 [|m2 ms]] eqn:F;
    [|discriminate|discriminate].
  intros E. injection E as <- <-.
  destruct (A eq_refl) as (Hi' & Hn' & Hf & I).
  split; [exact Hi'|]. split; [exact Hn'|]. split; [|split].
  - exists db1. auto.
  - reflexivity.
  - exact (B db1 I F).
Qed.

Lemma created_material_keeps_names_unique_witness :
  let teps := [ {| Tep.id := 7; Tep.customer_name := "ACME"; Tep.part_code := "P-1";
                   Tep.tep_code := "TEP-7" |} ] in
  let master := [ {| MaterialList.mat_partcode := "M-2"; MaterialList.mat_partname := "tape";
                     MaterialList.mat_maker := "3M"; MaterialList.unit := "m" |} ] in
  let db := [ {| id := 1; tep_code := 7; mat_partcode := "M-1";
                 mat_partname := "TAPE" |} ] in
  let material := {| id := 2; tep_code := 7; mat_partcode := "M-2";
                     mat_partname := "tape 2" |} in
  let db' := [ {| id := 1; tep_code := 7; mat_partcode := "M-1";
                  mat_partname := "tape 1" |}; material ] in
  create_material_by_tep_code teps master db " TEP-7" "M-2 " "" "" = (Returned material, db') /\
  ids_unique db' /\ names_unique db' /\
  (exists db1, db' = db1 ++ [material] /\ map identity db1 = map identity db /\
               fresh_name (tep_code material) (mat_partname material) db1) /\
  mat_partcode material = Text.strip "M-2 " /\
  (forall m, In m db -> tep_code m = tep_code material ->
             mat_partcode m <> mat_partcode material).
Proof.
  intros teps master db material db'.
  assert (E : create_material_by_tep_code teps master db " TEP-7" "M-2 " "" ""
              = (Returned material, db')) by (vm_compute; reflexivity).
  split; [exact E|].
  apply (created_material_keeps_names_unique teps master db " TEP-7" "M-2 " "" ""
           material db').
  - unfold ids_unique. simpl. constructor; [intros [] | constructor].
  - unfold names_unique. simpl. constructor; [intros [] | constructor].
  - exact E.
Defined.

(** X5. The answers of [create_material_by_tep_code] and what each does
    to the table: an error is answered with status 400, 404 or 409; only
    a returned material adds an item, as the last one; no answer removes
    an item or changes the key, the TEP code or the part code of one; and
    with status 400 or 404 the table is left as it was. *)
Theorem create_material_answers
  (teps : list Tep.row) (master : MaterialList.table) (db : table)
  (code payload_mat_partcode part_code customer_name : str) :
  match create_material_by_tep_code teps master db code payload_mat_partcode
                                    part_code customer_name with
  | (Returned material, db') =>
      map identity db' = map identity db ++ [identity material] /\
      In material db'
  | (Status code _, db') =>
      map identity db' = map identity db /\
      (code = 400%N \/ code = 404%N \/ code = 409%N) /\
      (code = 409%N \/ db' = db)
  | (Exception, db') => map identity db' = map identity db
  end.
Proof.
  unfold create_material_by_tep_code.
  destruct (Text.strip code) as [|c0 tc]; [auto 6|].
  destruct (Tep.first _) as [tep|]; [|auto 6].
  destruct (Text.strip payload_mat_partcode) as [|c1 pc]; [auto 6|].
  destruct (MaterialList.by_partcode _ master) as [mrow|]; [|auto 6].
  rewrite AllocFacts.allocate_spec.
  pose proof (RenameFacts.allocation_identity db (Tep.id tep)
                (MaterialList.mat_partname mrow) (c1 :: pc)) as I.
  destruct (allocation db (Tep.id tep) (MaterialList.mat_partname mrow) (c1 :: pc))
    as [name db1].
  cbn [snd] in I. unfold get_or_create.
  destruct (filter (of_tep_and_partcode (Tep.id tep) (c1 :: pc)) db1) as [|m1 [|m2 ms]].
  - split.
    + rewrite CallerFacts.create_identity. now rewrite I.
    + unfold create. apply in_app_iff. right. now left.
  - auto 6.
  - exact I.
Qed.

(** X6. The material blocks of the rows of [upload_csv], run one after
    the other on a table with distinct keys and, within each TEP code,
    names that are distinct whatever the case, complete and leave a table
    with the same two properties; every row is counted as inserted or as
    updated, the old items keep their key, TEP code and part code, and as
    many items are added as rows are counted as inserted.  The part codes
    of the master rows are stripped, as [upload_csv] stores and finds
    them. *)
Theorem upload_csv_keeps_names_unique
  (db : table) (rows : list (N * MaterialList.row)) :
  ids_unique db -> names_unique db ->
  Forall (fun r => Text.strip (MaterialList.mat_partcode (snd r))
                   = MaterialList.mat_partcode (snd r)) rows ->
  exists inserted updated db',
    upload_csv_materials db rows 0 0 = Some (inserted, updated, db') /\
    ids_unique db' /\ names_unique db' /\
    (inserted + updated = N.of_nat (length rows))%N /\
    exists added, map identity db' = map identity db ++ added /\
                  N.of_nat (length added) = inserted.
Proof.
  intros Hi Hn Hs.
  enough (G : forall i u, exists inserted updated db',
             upload_csv_materials db rows i u = Some (inserted, updated, db') /\
             ids_unique db' /\ names_unique db' /\
             (inserted + updated = i + u + N.of_nat (length rows))%N /\
             exists added, map identity db' = map identity db ++ added /\
                           (i + N.of_nat (length added) = inserted)%N).
  { destruct (G 0%N 0%N) as (i & u & db' & E & A & B & C & added & I & L).
    exists i, u, db'. repeat split; try assumption. exists added. auto. }
  revert db Hi Hn. induction Hs as [|[tep mrow] rows Hr Hs IH]; intros db Hi Hn i u.
  - exists i, u, db. simpl. repeat split; try assumption; try lia.
    exists []. rewrite app_nil_r. split; [reflexivity | simpl; lia].
  - cbn [snd] in Hr. cbn [upload_csv_materials]. unfold upload_csv_material.
    destruct (first_by_id (filter (of_tep_and_partcode tep (MaterialList.mat_partcode mrow)) db))
      as [existing_mat|] eqn:F.
    + destruct (IH db Hi Hn i (u + 1)%N) as (i' & u' & db' & -> & A & B & C & added & I & L).
      exists i', u', db'. repeat split; try assumption.
      * cbn [length]. lia.
      * exists added. auto.
    + apply CallerFacts.first_by_id_none in F.
      rewrite AllocFacts.allocate_spec.
      pose proof (CallerFacts.allocate_then_create db tep (MaterialList.mat_partname mrow)
                    (MaterialList.mat_partcode mrow) Hi Hn Hr) as A.
      pose proof (RenameFacts.allocation_identity db tep (MaterialList.mat_partname mrow)
                    (MaterialList.mat_partcode mrow)) as I.
      destruct (allocation db tep (MaterialList.mat_partname mrow)
                  (MaterialList.mat_partcode mrow)) as [name db1].
      cbn [fst snd] in A, I.
      assert (F1 : filter (of_tep_and_partcode tep (MaterialList.mat_partcode mrow)) db1 = []).
      { apply (f_equal (map identity)) in F.
        rewrite CallerFacts.map_identity_filter, <- I, <- CallerFacts.map_identity_filter in F.
        simpl in F. now destruct (filter _ db1). }
      destruct (A F1) as (Hi' & Hn' & _ & _).
      destruct (IH _ Hi' Hn' (i + 1)%N u) as (i' & u' & db' & -> & A' & B & C & added & I' & L).
      exists i', u', db'. repeat split; try assumption.
      * cbn [length]. lia.
      * rewrite CallerFacts.create_identity, I, <- app_assoc in I'.
        eexists. split; [exact I'|]. rewrite length_app. cbn [length]. lia.
Qed.

Lemma upload_csv_keeps_names_unique_witness :
  let db := [ {| id := 1; tep_code := 7; mat_partcode := "M-1";
                 mat_partname := "TAPE" |} ] in
  let row code name := {| MaterialList.mat_partcode := code; MaterialList.mat_partname := name;
                          MaterialList.mat_maker := "3M"; MaterialList.unit := "m" |} in
  let rows := [ (7%N, row ("M-2" : str) ("Tape" : str));
                (7%N, row ("M-1" : str) ("Tape" : str));
                (8%N, row ("M-2" : str) ("Tape" : str)) ] in
  exists inserted updated db',
    upload_csv_materials db rows 0 0 = Some (inserted, updated, db') /\
    ids_unique db' /\ names_unique db' /\
    (inserted + updated = N.of_nat (length rows))%N /\
    exists added, map identity db' = map identity db ++ added /\
                  N.of_nat (length added) = inserted.
Proof.
  intros db row rows.
  apply (upload_csv_keeps_names_unique db rows).
  - unfold ids_unique. simpl. constructor; [intros [] | constructor].
  - unfold names_unique. simpl. constructor; [intros [] | constructor].
  - repeat constructor.
Defined.

(** X7. [_allocate_material_name] always returns, and it changes at most
    one item (the keys being distinct): either the table is left as it
    was, or the returned name is the base followed by [" 2"] and exactly
    one item has its name replaced by the base followed by [" 1"]; that
    item belongs to the TEP code of the call, its name was the base but
    for case, and its part code is not the excluded one. *)
Theorem allocator_renames_one_bare_item
  (db : table) (tep : N) (base_name exclude_partcode : str) :
  ids_unique db ->
  exists name db',
    _allocate_material_name db tep base_name exclude_partcode = Some (name, db') /\
    (db' = db \/
     exists before first after,
       db = before ++ first :: after /\
       db' = before ++ {| id := id first; tep_code := tep_code first;
                          mat_partcode := mat_partcode first;
                          mat_partname := str_or (Text.strip base_name) "UNKNOWN" ++ " 1" |}
                    :: after /\
       name = str_or (Text.strip base_name) "UNKNOWN" ++ " 2" /\
       tep_code first = tep /\
       iexact (str_or (Text.strip base_name) "UNKNOWN") (mat_partname first) = true /\
       (Text.strip exclude_partcode = [] \/
        mat_partcode first <> Text.strip exclude_partcode)).
Proof.
  intros Hi. rewrite AllocFacts.allocate_spec.
  pose proof (CallerFacts.allocation_frame db tep base_name exclude_partcode Hi) as F.
  cbv zeta in F.
  destruct (allocation db tep base_name exclude_partcode) as [name db']. cbn [fst snd] in F.
  exists name, db'. split; [reflexivity|].
  destruct F as [->|(before & first & after & -> & -> & -> & F)]; [now left|].
  right. exists before, first, after. auto.
Qed.

Lemma allocator_renames_one_bare_item_witness :
  exists name db',
    _allocate_material_name
      [ {| id := 1; tep_code := 7; mat_partcode := "M-1"; mat_partname := "Tape" |};
        {| id := 2; tep_code := 8; mat_partcode := "M-1"; mat_partname := "Tape" |} ]
      7 " TAPE " "M-2" = Some (name, db') /\
    name = ("TAPE 2" : str) /\
    db' = [ {| id := 1; tep_code := 7; mat_partcode := "M-1"; mat_partname := "TAPE 1" |};
            {| id := 2; tep_code := 8; mat_partcode := "M-1"; mat_partname := "Tape" |} ].
Proof.
  destruct (allocator_renames_one_bare_item
              [ {| id := 1; tep_code := 7; mat_partcode := "M-1"; mat_partname := "Tape" |};
                {| id := 2; tep_code := 8; mat_partcode := "M-1"; mat_partname := "Tape" |} ]
              7 " TAPE " "M-2") as (name & db' & E & _).
  - unfold ids_unique. simpl.
    constructor; [intros [H|[]]; discriminate H | constructor; [intros [] | constructor]].
  - exists name, db'. split; [exact E|].
    vm_compute in E. injection E as <- <-. split; reflexivity.
Defined.

(** X8. When [create_material_by_tep_code] answers 409, the item that
    the request names, of the TEP code and with the stripped part code of
    the payload, is in the table as it was.  The table itself is as it
    was, or exactly one other item of that TEP code, with another part
    code, has been renamed by the allocator before the request was
    rejected. *)
Theorem conflict_keeps_the_material
  (teps : list Tep.row) (master : MaterialList.table) (db : table)
  (code payload_mat_partcode part_code customer_name : str)
  (error : str) (db' : table) :
  ids_unique db ->
  create_material_by_tep_code teps master db code payload_mat_partcode
                              part_code customer_name
  = (Status 409 error, db') ->
  exists material,
    In material db /\ In material db' /\
    mat_partcode material = Text.strip payload_mat_partcode /\
    (db' = db \/
     exists before first name after,
       db = before ++ first :: after /\
       db' = before ++ {| id := id first; tep_code := tep_code first;
                          mat_partcode := mat_partcode first;
                          mat_partname := name |} :: after /\
       tep_code first = tep_code material /\
       mat_partcode first <> mat_partcode material).
Proof.
  intros Hi. unfold create_material_by_tep_code.
  destruct (Text.strip code) as [|c0 tc]; [discriminate|].
  destruct (Tep.first _) as [tep|]; [|discriminate].
  pose proof (CallerFacts.strip_idem payload_mat_partcode) as Hs.
  destruct (Text.strip payload_mat_partcode) as [|c1 pc] eqn:Epc; [discriminate|].
  destruct (MaterialList.by_partcode _ master) as [mrow|]; [|discriminate].
  rewrite AllocFacts.allocate_spec.
  pose proof (CallerFacts.allocation_frame db (Tep.id tep)
                (MaterialList.mat_partname mrow) (c1 :: pc) Hi) as F.
  cbv zeta in F. rewrite Hs in F.
  destruct (allocation db (Tep.id tep) (MaterialList.mat_partname mrow) (c1 :: pc))
    as [name db1].
  cbn [fst snd] in F. unfold get_or_create.
  destruct (filter (of_tep_and_partcode (Tep.id tep) (c1 :: pc)) db1) as [|m1 [|m2 ms]] eqn:G;
    [discriminate| |discriminate].
  intros E. injection E as _ <-.
  assert (M : In m1 (filter (of_tep_and_partcode (Tep.id tep) (c1 :: pc)) db1))
    by (rewrite G; now left).
  apply filter_In in M. destruct M as [M1 M2].
  apply andb_true_iff in M2. destruct M2 as [Mt Mc].
  apply N.eqb_eq in Mt. apply TextFacts.eqb_eq in Mc.
  exists m1.
  destruct F as [->|(before & first & after & -> & -> & _ & Ft & _ & [X|X])];
    [auto | discriminate X |].
  assert (I : In m1 (before ++ first :: after) /\ In m1 (before ++ after)).
  { apply in_app_iff in M1. destruct M1 as [M1|[M1|M1]].
    - split; apply in_app_iff; now left.
    - exfalso. apply X. rewrite <- Mc, <- M1. reflexivity.
    - split; apply in_app_iff; right; [now right | exact M1]. }
  destruct I as [I1 I2].
  split; [exact I1|]. split; [exact M1|]. split; [exact Mc|].
  right. exists before, first. eexists. exists after.
  split; [reflexivity|]. split; [reflexivity|].
  split; [congruence|]. congruence.
Qed.

Lemma conflict_keeps_the_material_witness :
  let teps := [ {| Tep.id := 7; Tep.customer_name := "ACME"; Tep.part_code := "P-1";
                   Tep.tep_code := "TEP-7" |} ] in
  let master := [ {| MaterialList.mat_partcode := "M-2"; MaterialList.mat_partname := "Tape";
                     MaterialList.mat_maker := "3M"; MaterialList.unit := "m" |} ] in
  let db := [ {| id := 1; tep_code := 7; mat_partcode := "M-1"; mat_partname := "TAPE" |};
              {| id := 2; tep_code := 7; mat_partcode := "M-2"; mat_partname := "Glue" |} ] in
  let db' := [ {| id := 1; tep_code := 7; mat_partcode := "M-1"; mat_partname := "Tape 1" |};
               {| id := 2; tep_code := 7; mat_partcode := "M-2"; mat_partname := "Glue" |} ] in
  create_material_by_tep_code teps master db "TEP-7" "M-2" "" ""
  = (Status 409 "Material already exists for this TEP + mat_partcode.", db') /\
  exists material,
    In material db /\ In material db' /\
    mat_partcode material = Text.strip "M-2" /\
    (db' = db \/
     exists before first name after,
       db = before ++ first :: after /\
       db' = before ++ {| id := id first; tep_code := tep_code first;
                          mat_partcode := mat_partcode first;
                          mat_partname := name |} :: after /\
       tep_code first = tep_code material /\
       mat_partcode first <> mat_partcode material).
Proof.
  intros teps master db db'.
  assert (E : create_material_by_tep_code teps master db "TEP-7" "M-2" "" ""
              = (Status 409 "Material already exists for this TEP + mat_partcode.", db'))
    by (vm_compute; reflexivity).
  split; [exact E|].
  apply (conflict_keeps_the_material teps master db "TEP-7" "M-2" "" ""
           "Material already exists for this TEP + mat_partcode." db'); [|exact E].
  unfold ids_unique. simpl.
  constructor; [intros [H|[]]; discriminate H | constructor; [intros [] | constructor]].
Defined.

(** ** More on month tokens *)

Module TokenFacts.
Import Text TextFacts SpaceFacts MonthFacts.

Lemma startswith_app (l a b : str) :
  startswith l (a ++ b) = true -> startswith l a = true.
Proof.
  revert l; induction a as [|c a IH]; intros l; [now destruct l|].
  destruct l as [|d l]; simpl; [discriminate|].
  destruct (eqb_char c d); simpl; [apply IH | discriminate].
Qed.

Lemma startswith_refl (l : str) : startswith l l = true.
Proof. induction l as [|c l IH]; simpl; [reflexivity|]. now rewrite eqb_char_refl. Qed.

Lemma startswith_inv (l a : str) :
  startswith l a = true -> exists rest, l = a ++ rest.
Proof.
  revert l; induction a as [|c a IH]; intros l; [simpl; eauto|].
  destruct l as [|d l]; simpl; [discriminate|].
  destruct (eqb_char c d) eqn:E; simpl; [|discriminate].
  apply eqb_char_eq in E. subst d. intros H. destruct (IH l H) as (rest & ->). eauto.
Qed.

(** A name that extends an abbreviation is found only where the
    abbreviation is. *)
Lemma first_prefix_extended (l : str) (short long : list str) (i : Z) :
  Forall2 (fun a m => exists r, m = a ++ r) short long ->
  first_prefix l short i = None -> first_prefix l long i = None.
Proof.
  intros H; revert i; induction H as [|a m short long (r & ->) H IH]; intros i; simpl;
    [reflexivity|].
  destruct (startswith l a || eqb l a) eqn:E; [discriminate|].
  apply orb_false_iff in E. destruct E as [E _].
  destruct (startswith l (a ++ r)) eqn:S.
  - apply startswith_app in S. congruence.
  - destruct (eqb l (a ++ r)) eqn:Q.
    + apply eqb_eq in Q. subst l. rewrite startswith_refl in S. discriminate.
    + simpl. apply IH.
Qed.

Lemma months_extend_abbr : Forall2 (fun a m : str => exists r, m = a ++ r) abbr months.
Proof.
  unfold abbr, months.
  repeat (constructor; [eexists; simpl; reflexivity|]). constructor.
Qed.

Lemma month_index_stripped (val : str) :
  _month_index_from_string val = month_of_stripped (strip val).
Proof.
  unfold _month_index_from_string, month_of_stripped.
  destruct val as [|c v]; [reflexivity|].
  destruct (strip (c :: v)) as [|c' s]; [reflexivity|].
  destruct (first_prefix (lower (c' :: s)) abbr 0) eqn:A; [reflexivity|].
  now rewrite (first_prefix_extended _ _ _ _ months_extend_abbr A).
Qed.

Lemma startswith_nil (l : str) : startswith l [] = true.
Proof. now destruct l. Qed.

Lemma first_prefix_nth (rest a : str) (i : nat) :
  nth_error abbr i = Some a ->
  first_prefix (a ++ rest) abbr 0 = Some (Z.of_nat i + 1)%Z.
Proof.
  intros H. unfold abbr in H.
  do 12 (destruct i as [|i];
         [injection H as <-; unfold abbr; simpl; rewrite startswith_nil; reflexivity|]).
  destruct i; discriminate H.
Qed.

(** *** Case and margins *)

Lemma lstrip_lower (s : str) : lstrip (lower s) = lower (lstrip s).
Proof.
  induction s as [|c s IH]; simpl; [reflexivity|].
  rewrite isspace_lower_char. destruct (isspace c); [exact IH | reflexivity].
Qed.

Lemma rstrip_lower (s : str) : rstrip (lower s) = lower (rstrip s).
Proof.
  induction s as [|c s IH]; [reflexivity|].
  change (lower (c :: s)) with (lower_char c :: lower s). cbn [rstrip]. rewrite IH.
  destruct (rstrip s) as [|d r]; simpl; [|reflexivity].
  rewrite isspace_lower_char. now destruct (isspace c).
Qed.

Lemma strip_lower (s : str) : strip (lower s) = lower (strip s).
Proof. unfold strip. now rewrite lstrip_lower, rstrip_lower. Qed.

Lemma caseless_hyphen : caseless "-".
Proof. intros c. each_char c. Qed.

Lemma caseless_slash : caseless "/".
Proof. intros c. each_char c. Qed.

Lemma caseless_underscore : caseless "_".
Proof. intros c. each_char c. Qed.

Lemma contains_lower (x : ascii) (s : str) :
  caseless x -> contains x (lower s) = contains x s.
Proof.
  intros H. unfold contains. induction s as [|c s IH]; [reflexivity|].
  change (lower (c :: s)) with (lower_char c :: lower s). cbn [existsb].
  rewrite IH. f_equal. specialize (H c). unfold eqb_char in *.
  now rewrite (Ascii.eqb_sym x (lower_char c)), (Ascii.eqb_sym x c).
Qed.

Lemma before_first_lower (x : ascii) (s : str) :
  caseless x -> before_first x (lower s) = lower (before_first x s).
Proof.
  intros H. induction s as [|c s IH]; [reflexivity|].
  change (lower (c :: s)) with (lower_char c :: lower s). cbn [before_first].
  rewrite H. destruct (eqb_char c x); [reflexivity|].
  change (lower (c :: before_first x s)) with (lower_char c :: lower (before_first x s)).
  now rewrite IH.
Qed.

Lemma numeric_head_before (s : str) :
  numeric_head s
  = Some (if contains "-" s then before_first "-" s
          else if contains "/" s then before_first "/" s else s).
Proof.
  unfold numeric_head. rewrite !split_head.
  destruct (contains "-" s); [reflexivity|]. now destruct (contains "/" s).
Qed.

Lemma sign_and_body_lower (t : str) :
  sign_and_body (lower t) = (fst (sign_and_body t), lower (snd (sign_and_body t))).
Proof.
  destruct t as [|c t]; [reflexivity|].
  change (lower (c :: t)) with (lower_char c :: lower t).
  destruct c as [[] [] [] [] [] [] [] []]; reflexivity.
Qed.

Lemma literal_digits_lower (b : bool) (s : str) :
  literal_digits b (lower s) = literal_digits b s.
Proof.
  revert b; induction s as [|c s IH]; intros b; simpl; [reflexivity|].
  rewrite isdigit_lower_char, caseless_underscore.
  destruct (isdigit c) eqn:D.
  - rewrite (lower_char_digit c D). unfold lower in IH. now rewrite IH.
  - destruct (eqb_char c "_" && b); [apply IH | reflexivity].
Qed.

Lemma int_lower (s : str) : Text.int (lower s) = Text.int s.
Proof.
  unfold Text.int. rewrite strip_lower, sign_and_body_lower.
  destruct (sign_and_body (strip s)) as [negative body]. simpl.
  now rewrite literal_digits_lower.
Qed.

Lemma numeric_fallback_lower (s : str) :
  numeric_fallback (lower s) = numeric_fallback s.
Proof.
  unfold numeric_fallback. rewrite !numeric_head_before.
  rewrite !contains_lower by (apply caseless_hyphen || apply caseless_slash).
  destruct (contains "-" s).
  - now rewrite before_first_lower, int_lower by apply caseless_hyphen.
  - destruct (contains "/" s).
    + now rewrite before_first_lower, int_lower by apply caseless_slash.
    + now rewrite int_lower.
Qed.

Lemma month_of_stripped_lower (s : str) :
  month_of_stripped (lower s) = month_of_stripped s.
Proof.
  unfold month_of_stripped. now rewrite lower_idem, numeric_fallback_lower.
Qed.

(** White space around a text is what [strip] removes. *)
Lemma lstrip_spaces (ws s : str) :
  forallb isspace ws = true -> lstrip (ws ++ s) = lstrip s.
Proof.
  induction ws as [|c ws IH]; simpl; [reflexivity|].
  intros H. apply andb_true_iff in H. destruct H as [-> H]. now apply IH.
Qed.

Lemma rstrip_spaces_only (ws : str) : forallb isspace ws = true -> rstrip ws = [].
Proof.
  induction ws as [|c ws IH]; simpl; [reflexivity|].
  intros H. apply andb_true_iff in H. destruct H as [Hc H]. now rewrite (IH H), Hc.
Qed.

Lemma rstrip_spaces (s ws : str) :
  forallb isspace ws = true -> rstrip (s ++ ws) = rstrip s.
Proof.
  intros H. induction s as [|c s IH]; simpl.
  - now apply rstrip_spaces_only.
  - now rewrite IH.
Qed.

Lemma lstrip_app_nonspace (s t : str) :
  lstrip s <> [] -> lstrip (s ++ t) = lstrip s ++ t.
Proof.
  induction s as [|c s IH]; simpl; [contradiction|].
  destruct (isspace c); [exact IH | reflexivity].
Qed.

Lemma strip_margins (before s after : str) :
  forallb isspace before = true -> forallb isspace after = true ->
  strip (before ++ s ++ after) = strip s.
Proof.
  intros Hb Ha. unfold strip. rewrite lstrip_spaces by assumption.
  destruct (lstrip s) as [|c r] eqn:E.
  - assert (S : forallb isspace s = true).
    { clear - E. induction s as [|c s IH]; simpl in *; [reflexivity|].
      destruct (isspace c); [now apply IH | discriminate]. }
    rewrite <- (app_nil_r (s ++ after)), lstrip_spaces; [reflexivity|].
    rewrite forallb_app. now rewrite S, Ha.
  - rewrite lstrip_app_nonspace by (rewrite E; discriminate).
    rewrite E. now apply rstrip_spaces.
Qed.

End TokenFacts.

(** X9. A token whose stripped, lower-cased text begins with the
    three-letter abbreviation of a month has the index of that month,
    whatever follows the three letters: ["Mar-2026"] and ["MARCH"], and
    as well ["Marvelous"], are month 3. *)
Theorem month_abbreviation_prefix (val a : str) (i : nat) :
  nth_error abbr i = Some a ->
  Text.startswith (Text.lower (Text.strip val)) a = true ->
  _month_index_from_string val = Some (Z.of_nat i + 1)%Z.
Proof.
  intros Hi Hs. rewrite TokenFacts.month_index_stripped.
  unfold month_of_stripped.
  apply TokenFacts.startswith_inv in Hs. destruct Hs as (rest & ->).
  now rewrite (TokenFacts.first_prefix_nth rest a i Hi).
Qed.

Lemma month_abbreviation_prefix_witness :
  _month_index_from_string " Marvelous " = Some (Z.of_nat 2 + 1)%Z.
Proof.
  apply (month_abbreviation_prefix " Marvelous " "mar" 2); reflexivity.
Defined.

(** X10. The month index of a token depends neither on the case of its
    letters nor on white space around it. *)
Theorem month_index_ignores_case_and_margins (val before after : str) :
  _month_index_from_string (Text.lower val) = _month_index_from_string val /\
  (forallb Text.isspace before = true -> forallb Text.isspace after = true ->
   _month_index_from_string (before ++ val ++ after) = _month_index_from_string val).
Proof.
  split.
  - rewrite !TokenFacts.month_index_stripped, TokenFacts.strip_lower.
    apply TokenFacts.month_of_stripped_lower.
  - intros Hb Ha. rewrite !TokenFacts.month_index_stripped.
    now rewrite TokenFacts.strip_margins.
Qed.

Module LabelFacts.
Import Text TextFacts MonthFacts TokenFacts.

Lemma NoDup_app_one {A : Type} (l : list A) (x : A) :
  NoDup l -> ~ In x l -> NoDup (l ++ [x]).
Proof.
  intros Hl Hx. induction Hl as [|y l Hy Hl IH]; simpl.
  - constructor; [intros [] | constructor].
  - constructor.
    + rewrite in_app_iff. simpl. intros [H|[H|[]]]; [now apply Hy|].
      apply Hx. now left.
    + apply IH. intros H. apply Hx. now right.
Qed.

Lemma label_step_keeps (rows : list monthly_row) (m : monthly_row) (acc : list str * list str) :
  In m rows -> label_invariant rows acc -> label_invariant rows (label_step acc m).
Proof.
  intros Hm (S & N & R). unfold label_step.
  destruct (row_name m) as [[|c name]|] eqn:E; try (now split).
  destruct (negb (mem (c :: name) (fst acc))) eqn:M; [|now split].
  apply negb_true_iff, mem_false in M.
  split; [|split]; cbn [fst snd].
  - intros x. rewrite in_app_iff, <- S. simpl. tauto.
  - apply NoDup_app_one; [exact N|]. now rewrite <- S.
  - intros x Hx. apply in_app_iff in Hx. destruct Hx as [Hx|[<-|[]]]; [now apply R|].
    split; [discriminate|]. eauto.
Qed.

Lemma label_fold_keeps (rows todo : list monthly_row) (acc : list str * list str) :
  (forall m, In m todo -> In m rows) ->
  label_invariant rows acc -> label_invariant rows (fold_left label_step todo acc).
Proof.
  revert acc; induction todo as [|m todo IH]; intros acc Hin I; simpl; [exact I|].
  apply IH; [intros m' Hm'; apply Hin; now right|].
  apply label_step_keeps; [apply Hin; now left | exact I].
Qed.

(** [months_display] of the model and [_months_label_from_rows] of the
    views make the same step. *)
Lemma found_row_name (date : str) (unit_price quantity : cell) :
  strip date <> [] ->
  row_name (Row date unit_price quantity) = Some (Forecast.found (strip date)).
Proof.
  intros Hd. unfold row_name, Forecast.found.
  rewrite month_index_stripped. unfold month_of_stripped.
  destruct (first_prefix (lower (strip date)) abbr 0) as [i|] eqn:A.
  - apply first_prefix_range in A. simpl in A.
    replace ((1 <=? i) && (i <=? 12))%Z with true; [reflexivity|].
    symmetry. apply andb_true_iff. split; apply Z.leb_le; lia.
  - unfold numeric_fallback. destruct (numeric_head (strip date)) as [head|]; [|reflexivity].
    destruct (Text.int head) as [n|]; [|reflexivity].
    destruct ((1 <=? n) && (n <=? 12))%Z eqn:R; [|reflexivity].
    now rewrite R.
Qed.

Lemma display_step_label_step (acc : list str * list str) (m : monthly_row) :
  Forecast.display_step acc m = label_step acc m.
Proof.
  destruct m as [|date unit_price quantity]; [reflexivity|].
  unfold Forecast.display_step, label_step.
  destruct (strip date) as [|c d] eqn:E.
  - unfold row_name. rewrite month_index_stripped, E. reflexivity.
  - rewrite found_row_name by (rewrite E; discriminate). rewrite E.
    now destruct (Forecast.found (c :: d)).
Qed.

Lemma fold_left_ext {A B : Type} (f g : A -> B -> A) (l : list B) (a : A) :
  (forall x y, f x y = g x y) -> fold_left f l a = fold_left g l a.
Proof.
  intros H. revert a; induction l as [|y l IH]; intros a; simpl; [reflexivity|].
  now rewrite H, IH.
Qed.

End LabelFacts.

(** X11. The names that [_months_label_from_rows] joins are pairwise
    distinct, and they are exactly the non-empty names of the dict rows:
    the full name of the month for a date with a month index, the
    stripped date otherwise.  The placeholder is returned exactly when
    there is no such name. *)
Theorem months_label_names (monthly_rows : list monthly_row) (name : str) :
  NoDup (label_names monthly_rows) /\
  (In name (label_names monthly_rows) <->
   name <> [] /\ exists m, In m monthly_rows /\ row_name m = Some name) /\
  (_months_label_from_rows monthly_rows = Placeholder <-> label_names monthly_rows = []) /\
  (label_names monthly_rows <> [] ->
   _months_label_from_rows monthly_rows = Joined (join ", " (label_names monthly_rows))).
Proof.
  assert (I : label_invariant monthly_rows
                (fold_left label_step monthly_rows ([], []))).
  { apply LabelFacts.label_fold_keeps; [auto|].
    split; [tauto|]. split; [constructor | intros x []]. }
  destruct I as (_ & N & R).
  split; [exact N|]. split; [|split].
  - split; [apply R|].
    intros (Hne & m & Hm & Hr). destruct (in_split _ _ Hm) as (l1 & l2 & ->).
    now apply MonthFacts.label_names_in.
  - unfold _months_label_from_rows. destruct (label_names monthly_rows); split;
      intros H; try reflexivity; discriminate H.
  - unfold _months_label_from_rows. destruct (label_names monthly_rows); [contradiction|].
    reflexivity.
Qed.

(** X12. [Forecast.months_display] of the model, which tests the
    abbreviations only and keeps a number outside 1..12 as text, joins on
    every list of rows the names that [_months_label_from_rows] of the
    views joins, and it returns its placeholder for the lists for which
    the views return theirs. *)
Theorem months_display_is_months_label (monthly_forecasts : list monthly_row) :
  match Forecast.months_display monthly_forecasts,
        _months_label_from_rows monthly_forecasts with
  | Forecast.Names label, Joined label' => label = label'
  | Forecast.Dash, Placeholder => True
  | _, _ => False
  end.
Proof.
  unfold Forecast.months_display, _months_label_from_rows, label_names.
  rewrite (LabelFacts.fold_left_ext _ _ _ _ LabelFacts.display_step_label_step).
  now destruct (snd (fold_left label_step monthly_forecasts ([], []))).
Qed.

(** ** Totals *)

Module TotalFacts.
Import Text TextFacts MonthFacts.

Lemma range_step_outside (from_idx to_idx : Z) (acc : float * float) (m : monthly_row) :
  in_window from_idx to_idx m = false -> range_step from_idx to_idx acc m = acc.
Proof.
  destruct m as [|date unit_price quantity]; [reflexivity|]. simpl.
  destruct (_month_index_from_string date) as [mi|]; [|reflexivity].
  now intros ->.
Qed.

(** Rows outside the range do not count. *)
Lemma range_fold_window (from_idx to_idx : Z) (rows : list monthly_row) (acc : float * float) :
  fold_left (range_step from_idx to_idx) rows acc
  = fold_left (range_step from_idx to_idx) (filter (in_window from_idx to_idx) rows) acc.
Proof.
  revert acc; induction rows as [|m rows IH]; intros acc; simpl; [reflexivity|].
  destruct (in_window from_idx to_idx m) eqn:W; simpl; [apply IH|].
  rewrite (range_step_outside _ _ _ _ W). apply IH.
Qed.

Lemma range_fold_amount (from_idx to_idx : Z) (rows : list monthly_row) (acc : float * float) :
  snd (fold_left (range_step from_idx to_idx) rows acc)
  = amount_from (snd acc) (filter (in_window from_idx to_idx) rows).
Proof.
  unfold amount_from. revert acc; induction rows as [|m rows IH]; intros acc; simpl;
    [reflexivity|].
  rewrite IH. destruct m as [|date unit_price quantity]; [reflexivity|]. simpl.
  destruct (_month_index_from_string date) as [mi|]; [|reflexivity].
  destruct ((from_idx <=? mi) && (mi <=? to_idx))%Z; [|reflexivity]. simpl.
  now destruct (float_or_0 quantity), (float_or_0 unit_price).
Qed.

Lemma range_fold_quantity (from_idx to_idx : Z) (rows : list monthly_row) (acc : float * float) :
  Forall priced rows ->
  fst (fold_left (range_step from_idx to_idx) rows acc)
  = quantity_from (fst acc) (filter (in_window from_idx to_idx) rows).
Proof.
  unfold quantity_from. intros H; revert acc; induction H as [|m rows Hm H IH]; intros acc;
    simpl; [reflexivity|].
  rewrite IH. destruct m as [|date unit_price quantity]; [reflexivity|]. simpl in *.
  destruct (_month_index_from_string date) as [mi|]; [|reflexivity].
  destruct ((from_idx <=? mi) && (mi <=? to_idx))%Z; [|reflexivity]. simpl.
  destruct (float_or_0 unit_price); [|contradiction].
  now destruct (float_or_0 quantity).
Qed.

Lemma filter_none {A : Type} (f : A -> bool) (l : list A) :
  (forall x, In x l -> f x = false) -> filter f l = [].
Proof.
  induction l as [|x l IH]; simpl; intros H; [reflexivity|].
  rewrite (H x) by now left. apply IH. intros y Hy. apply H. now right.
Qed.

Lemma empty_window (from_idx to_idx : Z) (m : monthly_row) :
  (to_idx < from_idx)%Z -> in_window from_idx to_idx m = false.
Proof.
  intros H. destruct m as [|date unit_price quantity]; [reflexivity|]. simpl.
  destruct (_month_index_from_string date) as [mi|]; [|reflexivity].
  apply andb_false_iff. destruct (Z.leb_spec from_idx mi); [right | now left].
  apply Z.leb_gt. lia.
Qed.

Lemma total_range_plain (from_idx to_idx : Z) (rows : list monthly_row) (acc : float * float) :
  Forall plain_row rows ->
  total_range from_idx to_idx rows (snd acc)
  = Some (snd (fold_left (range_step from_idx to_idx) rows acc)).
Proof.
  intros H; revert acc; induction H as [|m rows Hm H IH]; intros acc; [reflexivity|].
  destruct m as [|date unit_price quantity]; [apply IH|].
  cbn [total_range fold_left range_step].
  destruct (_month_index_from_string date) as [mi|]; [|apply IH].
  destruct ((from_idx <=? mi) && (mi <=? to_idx))%Z; [|apply IH].
  destruct Hm as [(p & -> & ->) (q & -> & ->)].
  apply (IH (PrimFloat.add (fst acc) q, PrimFloat.add (snd acc) (PrimFloat.mul p q))).
Qed.

(** Rows written by [_normalize_monthly_payload] hold numbers. *)
Lemma forecast_to_output_stored (items : list (str * float * float)) :
  _forecast_to_output (_normalize_monthly_payload items)
  = Some (map (fun item => let '(date, unit_price, quantity) := item in
                           (date, unit_price, quantity, PrimFloat.mul unit_price quantity))
              items).
Proof.
  induction items as [|[[date unit_price] quantity] items IH]; [reflexivity|].
  cbn [_normalize_monthly_payload map _forecast_to_output float_of].
  unfold _normalize_monthly_payload in IH. now rewrite IH.
Qed.

Lemma total_range_stored (from_idx to_idx : Z) (items : list (str * float * float))
  (acc : float) :
  exists total, total_range from_idx to_idx (_normalize_monthly_payload items) acc = Some total.
Proof.
  revert acc; induction items as [|[[date unit_price] quantity] items IH]; intros acc.
  - exists acc. reflexivity.
  - cbn [_normalize_monthly_payload map total_range float_of].
    destruct (_month_index_from_string date) as [mi|]; [|apply IH].
    destruct ((from_idx <=? mi) && (mi <=? to_idx))%Z; apply IH.
Qed.

Lemma for_each_all {A B : Type} (f : A -> option B) (g : B -> Prop) (xs : list A) :
  (forall x, In x xs -> exists y, f x = Some y /\ g y) ->
  exists ys, for_each f xs = Some ys /\ Forall g ys /\ length ys = length xs.
Proof.
  induction xs as [|x xs IH]; intros H.
  - exists []. simpl. auto.
  - destruct (H x (or_introl eq_refl)) as (y & E & G).
    destruct IH as (ys & E' & F & L); [intros z Hz; apply H; now right|].
    exists (y :: ys). simpl. rewrite E, E'. simpl. auto.
Qed.

End TotalFacts.

(** X13. Over a month range, the amount that [_range_totals] returns is
    [Forecast.total_amount] of the dict rows whose date is a month of the
    range, and both totals are those of these rows alone: the other rows
    do not count. *)
Theorem range_totals_are_window_totals
  (monthly_rows : list monthly_row) (from_idx to_idx : Z) :
  let window := filter (in_window from_idx to_idx) monthly_rows in
  snd (_range_totals monthly_rows (Some from_idx) (Some to_idx))
  = Forecast.total_amount window /\
  _range_totals monthly_rows (Some from_idx) (Some to_idx)
  = _range_totals window (Some from_idx) (Some to_idx).
Proof.
  intros window. unfold _range_totals. split.
  - rewrite TotalFacts.range_fold_amount. reflexivity.
  - apply TotalFacts.range_fold_window.
Qed.

(** X14. When the unit price of every dict row is one that the
    conversion accepts, the quantity that [_range_totals] returns for a
    month range is [Forecast.total_quantity] of the dict rows whose date
    is a month of the range.  (A row with a unit price that the conversion
    rejects is left out by [_range_totals] and counted by the model.) *)
Theorem range_quantity_is_model_quantity
  (monthly_rows : list monthly_row) (from_idx to_idx : Z) :
  Forall priced monthly_rows ->
  fst (_range_totals monthly_rows (Some from_idx) (Some to_idx))
  = Forecast.total_quantity (filter (in_window from_idx to_idx) monthly_rows).
Proof.
  intros H. unfold _range_totals.
  now rewrite TotalFacts.range_fold_quantity.
Qed.

Lemma range_quantity_is_model_quantity_witness :
  fst (_range_totals
         [Row "Jan-2026" (Number 10) (Number 5); Row "x" (Number 1) Invalid;
          Row "Feb-2026" Null (Number 2); Row "Mar-2026" (Number 5) (Number 100)]
         (Some 1%Z) (Some 2%Z))
  = Forecast.total_quantity
      (filter (in_window 1 2)
         [Row "Jan-2026" (Number 10) (Number 5); Row "x" (Number 1) Invalid;
          Row "Feb-2026" Null (Number 2); Row "Mar-2026" (Number 5) (Number 100)]).
Proof.
  apply (range_quantity_is_model_quantity
           [Row "Jan-2026" (Number 10) (Number 5); Row "x" (Number 1) Invalid;
            Row "Feb-2026" Null (Number 2); Row "Mar-2026" (Number 5) (Number 100)] 1 2).
  repeat constructor; simpl; discriminate.
Defined.

(** X15. [_range_totals] does not put its bounds in order: for a range
    whose last month comes before its first it returns zero for both
    totals, whatever the rows. *)
Theorem range_totals_inverted_range
  (monthly_rows : list monthly_row) (from_idx to_idx : Z) :
  (to_idx < from_idx)%Z ->
  _range_totals monthly_rows (Some from_idx) (Some to_idx) = (0%float, 0%float).
Proof.
  intros H. unfold _range_totals.
  rewrite TotalFacts.range_fold_window, TotalFacts.filter_none; [reflexivity|].
  intros m _. now apply TotalFacts.empty_window.
Qed.

Lemma range_totals_inverted_range_witness :
  _range_totals [Row "Jan-2026" (Number 10) (Number 5); Row "Feb-2026" (Number 20) (Number 2)]
                (Some 2%Z) (Some 1%Z)
  = (0%float, 0%float).
Proof.
  apply (range_totals_inverted_range
           [Row "Jan-2026" (Number 10) (Number 5); Row "Feb-2026" (Number 20) (Number 2)] 2 1).
  reflexivity.
Defined.

(** X16. When every field of every dict row is absent or a number for
    which [float(v)] and [float(v or 0)] agree, the total that
    [get_forecasts_by_customer] computes for a month range does not raise
    and is the amount that [_range_totals] gives the dashboard for the same
    range. *)
Theorem api_total_is_dashboard_amount
  (monthly_rows : list monthly_row) (from_idx to_idx : Z) :
  Forall plain_row monthly_rows ->
  total_range from_idx to_idx monthly_rows 0
  = Some (snd (_range_totals monthly_rows (Some from_idx) (Some to_idx))).
Proof.
  intros H. exact (TotalFacts.total_range_plain from_idx to_idx monthly_rows (0%float, 0%float) H).
Qed.

Lemma api_total_is_dashboard_amount_witness :
  total_range 1 2 [Row "Jan-2026" (Number 10) (Number 5); NotARow;
                   Row "Feb-2026" (Number 20) Missing; Row "Mar-2026" (Number 5) (Number 100)] 0
  = Some (snd (_range_totals
                 [Row "Jan-2026" (Number 10) (Number 5); NotARow;
                  Row "Feb-2026" (Number 20) Missing; Row "Mar-2026" (Number 5) (Number 100)]
                 (Some 1%Z) (Some 2%Z))).
Proof.
  apply (api_total_is_dashboard_amount
           [Row "Jan-2026" (Number 10) (Number 5); NotARow;
            Row "Feb-2026" (Number 20) Missing; Row "Mar-2026" (Number 5) (Number 100)] 1 2).
  repeat constructor; eexists; split; reflexivity.
Defined.

(** X17. Forecasts stored through [_normalize_monthly_payload] can always
    be read back: [_forecast_to_output] returns every row with its date,
    its two numbers and their product, and [get_forecasts_by_customer]
    answers such forecasts with a bad request (for month parameters it
    cannot read) or with one entry per forecast holding those rows; no
    conversion raises. *)
Theorem stored_forecasts_read_back
  (payloads : list (list (str * float * float))) (from_month to_month : str) :
  let output items :=
    map (fun item : str * float * float =>
           let '(date, unit_price, quantity) := item in
           (date, unit_price, quantity, PrimFloat.mul unit_price quantity)) items in
  Forall (fun items => _forecast_to_output (_normalize_monthly_payload items)
                       = Some (output items)) payloads /\
  (get_forecasts_by_customer (map _normalize_monthly_payload payloads) from_month to_month
   = BadRequest \/
   exists result,
     get_forecasts_by_customer (map _normalize_monthly_payload payloads) from_month to_month
     = Listed result /\
     map monthly_forecasts result = map output payloads).
Proof.
  intros output. split.
  - apply Forall_forall. intros items _. apply TotalFacts.forecast_to_output_stored.
  - unfold get_forecasts_by_customer.
    set (window := match month_of_param from_month, month_of_param to_month with
                   | Some f, Some t => Some (ordered f t)
                   | _, _ => None
                   end).
    destruct window as [[from_idx to_idx]|].
    + right. induction payloads as [|items payloads IH]; [exists []; auto|].
      destruct IH as (result & E & M).
      destruct (for_each _ (map _normalize_monthly_payload payloads)) as [ys|] eqn:F;
        [|discriminate].
      injection E as <-.
      cbn [map for_each]. rewrite TotalFacts.forecast_to_output_stored.
      destruct (TotalFacts.total_range_stored from_idx to_idx items 0) as (total & ->).
      cbn [option_map]. rewrite F. cbn [option_map].
      eexists. split; [reflexivity|]. cbn [map monthly_forecasts]. now rewrite M.
    + destruct (match from_month, to_month with [], [] => false | _, _ => true end);
        [now left|].
      right. induction payloads as [|items payloads IH]; [exists []; auto|].
      destruct IH as (result & E & M).
      destruct (for_each _ (map _normalize_monthly_payload payloads)) as [ys|] eqn:F;
        [|discriminate].
      injection E as <-.
      cbn [map for_each]. rewrite TotalFacts.forecast_to_output_stored.
      cbn [option_map]. rewrite F. cbn [option_map].
      eexists. split; [reflexivity|]. cbn [map monthly_forecasts]. now rewrite M.
Qed.

(** ** The master list *)

Module MasterFacts.
Import Text TextFacts PartsFacts.

Lemma set_if_new_stable (value current : str) (changed changed' : bool) :
  set_if_new value (fst (set_if_new value current changed)) changed'
  = (fst (set_if_new value current changed), changed').
Proof.
  unfold set_if_new. destruct value as [|c v]; [reflexivity|].
  destruct (eqb current (c :: v)) eqn:E; cbn [negb fst].
  - now rewrite E.
  - now rewrite eqb_refl.
Qed.

Lemma set_if_new_value (value current : str) (changed : bool) :
  value <> [] -> fst (set_if_new value current changed) = value.
Proof.
  unfold set_if_new. destruct value as [|c v]; [contradiction|]. intros _.
  destruct (eqb current (c :: v)) eqn:E; cbn [negb fst]; [now apply eqb_eq in E | reflexivity].
Qed.

Lemma unit_allowed (unit : str) :
  In (if negb (mem unit allowed_units) then "pc" : str else unit) allowed_units.
Proof.
  destruct (mem unit allowed_units) eqn:M; cbn [negb].
  - now apply mem_In.
  - now left.
Qed.

Lemma unit_nonempty (unit : str) :
  (if negb (mem unit allowed_units) then "pc" : str else unit) <> [].
Proof.
  pose proof (unit_allowed unit) as H. intros E. rewrite E in H.
  simpl in H. repeat (destruct H as [H|H]; [discriminate H|]). exact H.
Qed.

Lemma by_partcode_save (code : str) (obj obj' : MaterialList.row) (db : MaterialList.table) :
  MaterialList.by_partcode code db = Some obj ->
  MaterialList.mat_partcode obj' = code ->
  MaterialList.by_partcode code (MaterialList.save obj' db) = Some obj'.
Proof.
  unfold MaterialList.by_partcode, MaterialList.save. intros F E. rewrite E.
  induction db as [|r db IH]; [discriminate|]. simpl in F |- *.
  destruct (eqb (MaterialList.mat_partcode r) code) eqn:R.
  - now rewrite E, eqb_refl.
  - rewrite R. now apply IH.
Qed.

Lemma save_partcodes (obj' : MaterialList.row) (db : MaterialList.table) :
  map MaterialList.mat_partcode (MaterialList.save obj' db) = map MaterialList.mat_partcode db.
Proof.
  unfold MaterialList.save. rewrite map_map. apply map_ext. intros r.
  destruct (eqb (MaterialList.mat_partcode r) (MaterialList.mat_partcode obj')) eqn:E;
    [|reflexivity].
  apply eqb_eq in E. now rewrite E.
Qed.

Lemma by_partcode_found (code : str) (obj : MaterialList.row) (db : MaterialList.table) :
  MaterialList.by_partcode code db = Some obj -> MaterialList.mat_partcode obj = code.
Proof.
  unfold MaterialList.by_partcode. intros F. apply find_some in F. now apply eqb_eq.
Qed.

Lemma by_partcode_absent (code : str) (db : MaterialList.table) :
  MaterialList.by_partcode code db = None -> ~ In code (map MaterialList.mat_partcode db).
Proof.
  unfold MaterialList.by_partcode. intros F H. apply in_map_iff in H.
  destruct H as (r & E & Hr). apply (find_none _ _ F) in Hr.
  rewrite E, eqb_refl in Hr. discriminate.
Qed.

Lemma add_material_settle
  (db : MaterialList.table) (mat_partcode mat_partname mat_maker unit : option str) :
  posted mat_partcode <> [] ->
  add_material db mat_partcode mat_partname mat_maker unit
  = settle db (posted mat_partcode) (posted mat_partname) (posted mat_maker)
           (if negb (mem (lower (posted unit)) allowed_units)
            then "pc" : str else lower (posted unit)).
Proof.
  intros H. unfold add_material, settle.
  destruct (posted mat_partcode); [contradiction | reflexivity].
Qed.

Lemma set_if_new_same (value current : str) (changed : bool) :
  set_if_new value current changed = (current, changed) \/
  (value <> [] /\ set_if_new value current changed = (value, true)).
Proof.
  unfold set_if_new. destruct value as [|c v]; [now left|].
  destruct (negb (eqb current (c :: v))); [right | now left].
  split; [discriminate | reflexivity].
Qed.

Lemma settle_again (db : MaterialList.table) (code name maker u : str)
  (obj : MaterialList.row) :
  MaterialList.by_partcode code db = Some obj ->
  set_if_new name (MaterialList.mat_partname obj) false
  = (MaterialList.mat_partname obj, false) ->
  set_if_new maker (MaterialList.mat_maker obj) false
  = (MaterialList.mat_maker obj, false) ->
  set_if_new u (MaterialList.unit obj) false = (MaterialList.unit obj, false) ->
  settle db code name maker u = (messages_info ("No changes for: " ++ code), db).
Proof. intros F N M U. unfold settle. now rewrite F, N, M, U. Qed.

Lemma NoDup_app_last {A : Type} (l : list A) (x : A) :
  NoDup l -> ~ In x l -> NoDup (l ++ [x]).
Proof.
  intros Hl Hx. induction Hl as [|y l Hy Hl IH]; simpl.
  - constructor; [intros [] | constructor].
  - constructor.
    + rewrite in_app_iff. simpl. intros [H|[H|[]]]; [now apply Hy|].
      apply Hx. now left.
    + apply IH. intros H. apply Hx. now right.
Qed.

Lemma settle_settles (db : MaterialList.table) (code name maker u : str) :
  u <> [] ->
  exists message db' obj,
    settle db code name maker u = (message, db') /\
    MaterialList.by_partcode code db' = Some obj /\
    MaterialList.unit obj = u /\
    (name <> [] -> MaterialList.mat_partname obj = name) /\
    (maker <> [] -> MaterialList.mat_maker obj = maker) /\
    (map MaterialList.mat_partcode db' = map MaterialList.mat_partcode db \/
     map MaterialList.mat_partcode db' = map MaterialList.mat_partcode db ++ [code]) /\
    (NoDup (map MaterialList.mat_partcode db) -> NoDup (map MaterialList.mat_partcode db')) /\
    settle db' code name maker u = (messages_info ("No changes for: " ++ code), db').
Proof.
  intros Hu. destruct (MaterialList.by_partcode code db) as [obj|] eqn:F.
  - pose proof (by_partcode_found code obj db F) as Eobj.
    pose proof (set_if_new_stable name (MaterialList.mat_partname obj) false false) as Sn.
    pose proof (set_if_new_value name (MaterialList.mat_partname obj) false) as Vn.
    pose proof (set_if_new_same name (MaterialList.mat_partname obj) false) as Kn.
    unfold settle at 1. rewrite F.
    destruct (set_if_new name (MaterialList.mat_partname obj) false) as [name' c1].
    pose proof (set_if_new_stable maker (MaterialList.mat_maker obj) c1 false) as Sm.
    pose proof (set_if_new_value maker (MaterialList.mat_maker obj) c1) as Vm.
    pose proof (set_if_new_same maker (MaterialList.mat_maker obj) c1) as Km.
    destruct (set_if_new maker (MaterialList.mat_maker obj) c1) as [maker' c2].
    pose proof (set_if_new_stable u (MaterialList.unit obj) c2 false) as Su.
    pose proof (set_if_new_value u (MaterialList.unit obj) c2 Hu) as Vu.
    pose proof (set_if_new_same u (MaterialList.unit obj) c2) as Ku.
    destruct (set_if_new u (MaterialList.unit obj) c2) as [unit' c3].
    cbn [fst] in *. subst unit'.
    set (obj' := {| MaterialList.mat_partcode := MaterialList.mat_partcode obj;
                    MaterialList.mat_partname := name';
                    MaterialList.mat_maker := maker';
                    MaterialList.unit := u |}).
    destruct c3.
    + exists (messages_success ("Updated material: " ++ code)), (MaterialList.save obj' db), obj'.
      assert (F' : MaterialList.by_partcode code (MaterialList.save obj' db) = Some obj')
        by (apply (by_partcode_save code obj obj' db F); exact Eobj).
      split; [reflexivity|]. split; [exact F'|]. split; [reflexivity|].
      split; [exact Vn|]. split; [exact Vm|].
      rewrite save_partcodes. split; [now left|]. split; [auto|].
      now apply (settle_again _ _ _ _ _ obj').
    + destruct Ku as [Ku|[_ Ku]]; [|discriminate]. injection Ku as Ku <-.
      destruct Km as [Km|[_ Km]]; [|discriminate]. injection Km as Km <-.
      destruct Kn as [Kn|[_ Kn]]; [|discriminate]. injection Kn as Kn.
      subst name' maker'.
      exists (messages_info ("No changes for: " ++ code)), db, obj.
      split; [reflexivity|]. split; [exact F|]. split; [now symmetry|].
      split; [exact Vn|]. split; [exact Vm|].
      split; [now left|]. split; [auto|].
      apply (settle_again db code name maker u obj F); [exact Sn | exact Sm |].
      now rewrite <- Ku at 1 2.
  - set (obj' := {| MaterialList.mat_partcode := code;
                    MaterialList.mat_partname := str_or name code;
                    MaterialList.mat_maker := str_or maker "Unknown";
                    MaterialList.unit := u |}).
    assert (F' : MaterialList.by_partcode code (db ++ [obj']) = Some obj').
    { unfold MaterialList.by_partcode in *. rewrite find_app, F. simpl.
      now rewrite eqb_refl. }
    exists (messages_success ("Added material: " ++ code)), (db ++ [obj']), obj'.
    split; [unfold settle; now rewrite F|]. split; [exact F'|]. split; [reflexivity|].
    split; [intros H; simpl; now destruct name|].
    split; [intros H; simpl; now destruct maker|].
    rewrite map_app. split; [now right|]. split.
    + intros H. apply NoDup_app_last; [exact H | now apply by_partcode_absent].
    + apply (settle_again _ _ _ _ _ obj' F'); unfold set_if_new; cbn [obj' MaterialList.mat_partname
        MaterialList.mat_maker MaterialList.unit].
      * destruct name eqn:En; [reflexivity|]. cbn [str_or]. now rewrite eqb_refl.
      * destruct maker eqn:Em; [reflexivity|]. cbn [str_or]. now rewrite eqb_refl.
      * destruct u eqn:Eu; [reflexivity|]. now rewrite eqb_refl.
Qed.

End MasterFacts.

(** X18. The action [add_material] with a part code that is not blank
    leaves exactly what it asks for, and asking again changes nothing:
    afterwards the master list holds the part code, with one of the
    allowed units and with the posted name and maker when these are not
    blank; the part codes of the list are as before, or as before followed
    by the new one, so that they stay pairwise distinct; and the same
    action run once more reports no changes and leaves the list as it
    is. *)
Theorem add_material_settles
  (db : MaterialList.table) (mat_partcode mat_partname mat_maker unit : option str) :
  posted mat_partcode <> [] ->
  exists message db' obj,
    add_material db mat_partcode mat_partname mat_maker unit = (message, db') /\
    MaterialList.by_partcode (posted mat_partcode) db' = Some obj /\
    In (MaterialList.unit obj) allowed_units /\
    (posted mat_partname <> [] -> MaterialList.mat_partname obj = posted mat_partname) /\
    (posted mat_maker <> [] -> MaterialList.mat_maker obj = posted mat_maker) /\
    (map MaterialList.mat_partcode db' = map MaterialList.mat_partcode db \/
     map MaterialList.mat_partcode db'
     = map MaterialList.mat_partcode db ++ [posted mat_partcode]) /\
    (NoDup (map MaterialList.mat_partcode db) -> NoDup (map MaterialList.mat_partcode db')) /\
    add_material db' mat_partcode mat_partname mat_maker unit
    = (messages_info ("No changes for: " ++ posted mat_partcode), db').
Proof.
  intros Hcode.
  destruct (MasterFacts.settle_settles db (posted mat_partcode) (posted mat_partname)
              (posted mat_maker)
              (if negb (Text.mem (Text.lower (posted unit)) allowed_units)
               then "pc" : str else Text.lower (posted unit))
              (MasterFacts.unit_nonempty _))
    as (message & db' & obj & E & F & U & N & M & C & D & A).
  exists message, db', obj.
  rewrite !MasterFacts.add_material_settle by exact Hcode.
  repeat (split; [assumption|]).
  split; [|auto]. rewrite U. apply MasterFacts.unit_allowed.
Qed.

Lemma add_material_settles_witness :
  let db := [ {| MaterialList.mat_partcode := "M-1"; MaterialList.mat_partname := "Tape";
                 MaterialList.mat_maker := "3M"; MaterialList.unit := "roll" |} ] in
  exists message db' obj,
    add_material db (Some (" M-1 " : str)) (Some ("" : str)) None (Some ("KG " : str))
    = (message, db') /\
    MaterialList.by_partcode (posted (Some (" M-1 " : str))) db' = Some obj /\
    MaterialList.unit obj = ("kg" : str) /\
    MaterialList.mat_partname obj = ("Tape" : str).
Proof.
  intros db.
  destruct (add_material_settles db (Some (" M-1 " : str)) (Some ("" : str)) None
              (Some ("KG " : str))) as (message & db' & obj & E & F & _).
  - vm_compute. discriminate.
  - exists message, db', obj. split; [exact E|]. split; [exact F|].
    vm_compute in E. injection E as <- <-. vm_compute in F. injection F as <-.
    split; reflexivity.
Defined.

(** ** The customer table *)

Module OrderFacts.
Import Text TextFacts.

Lemma code_inj (a b : ascii) : code a = code b -> a = b.
Proof.
  unfold code. intros H.
  rewrite <- (ascii_N_embedding a), <- (ascii_N_embedding b). now rewrite H.
Qed.

Lemma ltb_nil (a : str) : str_ltb a [] = false.
Proof. now destruct a. Qed.

Lemma ltb_irrefl (a : str) : str_ltb a a = false.
Proof.
  induction a as [|x a IH]; [reflexivity|]. cbn [str_ltb].
  now rewrite N.ltb_irrefl, N.eqb_refl, IH.
Qed.

Lemma ltb_cons (x y : ascii) (a b : str) :
  str_ltb (x :: a) (y :: b) = true <->
  (code x < code y)%N \/ (code x = code y /\ str_ltb a b = true).
Proof.
  cbn [str_ltb]. now rewrite orb_true_iff, andb_true_iff, N.ltb_lt, N.eqb_eq.
Qed.

Lemma ltb_trans (a b c : str) :
  str_ltb a b = true -> str_ltb b c = true -> str_ltb a c = true.
Proof.
  revert b c; induction a as [|x a IH]; intros [|y b] [|z c]; try discriminate;
    try (now rewrite ltb_nil); try reflexivity.
  rewrite !ltb_cons. intros [H|[H1 H2]] [K|[K1 K2]].
  - left. lia.
  - left. lia.
  - left. lia.
  - right. split; [lia|]. now apply (IH b c).
Qed.

Lemma ltb_total (a b : str) :
  str_ltb a b = false -> str_ltb b a = false -> a = b.
Proof.
  revert b; induction a as [|x a IH]; intros [|y b]; try discriminate; [reflexivity|].
  intros H K.
  assert (H' : ~ ((code x < code y)%N \/ (code x = code y /\ str_ltb a b = true)))
    by (rewrite <- ltb_cons, H; discriminate).
  assert (K' : ~ ((code y < code x)%N \/ (code y = code x /\ str_ltb b a = true)))
    by (rewrite <- ltb_cons, K; discriminate).
  assert (E : code x = code y) by lia.
  f_equal; [now apply code_inj|].
  apply IH.
  - destruct (str_ltb a b); [exfalso; apply H'; now right | reflexivity].
  - destruct (str_ltb b a); [exfalso; apply K'; right; now split | reflexivity].
Qed.

Lemma ltb_asym (a b : str) : str_ltb a b = true -> str_ltb b a = false.
Proof.
  intros H. destruct (str_ltb b a) eqn:K; [|reflexivity].
  pose proof (ltb_trans a b a H K) as C. now rewrite ltb_irrefl in C.
Qed.

(** [a <= b], read as "not [b < a]", is transitive. *)
Lemma leb_trans (a b c : str) :
  str_ltb b a = false -> str_ltb c b = false -> str_ltb c a = false.
Proof.
  intros H K. destruct (str_ltb c a) eqn:C; [|reflexivity].
  destruct (str_ltb a b) eqn:L.
  - pose proof (ltb_trans c a b C L). congruence.
  - pose proof (ltb_total a b L H). subst b. congruence.
Qed.

Section Sorting.

Context {A : Type} (key : A -> str).

Let le (a b : A) : Prop := str_ltb (key b) (key a) = false.

Lemma insert_by_perm (x : A) (l : list A) : Permutation (insert_by key x l) (x :: l).
Proof.
  induction l as [|y l IH]; simpl; [reflexivity|].
  destruct (str_ltb (key y) (key x)); [|reflexivity].
  rewrite IH. apply perm_swap.
Qed.

Lemma sorted_perm (l : list A) : Permutation (sorted key l) l.
Proof.
  induction l as [|x l IH]; simpl; [reflexivity|].
  unfold sorted in IH. now rewrite insert_by_perm, IH.
Qed.

Lemma insert_by_sorted (x : A) (l : list A) :
  StronglySorted le l -> StronglySorted le (insert_by key x l).
Proof.
  induction 1 as [|y l S IH F]; simpl.
  - constructor; constructor.
  - destruct (str_ltb (key y) (key x)) eqn:L.
    + constructor; [exact IH|].
      apply Forall_forall. intros z Hz.
      apply (Permutation_in _ (insert_by_perm x l)) in Hz. destruct Hz as [<-|Hz].
      * unfold le. now apply ltb_asym.
      * rewrite Forall_forall in F. now apply F.
    + constructor; [now constructor|].
      constructor; [exact L|].
      apply Forall_forall. intros z Hz. rewrite Forall_forall in F.
      unfold le. apply (leb_trans _ (key y)); [exact L | now apply F].
Qed.

Lemma sorted_sorted (l : list A) : StronglySorted le (sorted key l).
Proof.
  induction l as [|x l IH]; simpl; [constructor|]. now apply insert_by_sorted.
Qed.

End Sorting.

(** Sorted keys that are pairwise distinct are in strictly ascending
    order. *)
Lemma sorted_strict (l : list str) :
  NoDup l ->
  StronglySorted (fun a b => str_ltb b a = false) l ->
  StronglySorted (fun a b => str_ltb a b = true) l.
Proof.
  intros N S. induction S as [|x l S IH F]; [constructor|].
  inversion N as [|? ? Hx N']; subst. constructor; [now apply IH|].
  apply Forall_forall. intros y Hy. rewrite Forall_forall in F.
  destruct (str_ltb x y) eqn:L; [reflexivity|].
  pose proof (ltb_total x y L (F y Hy)). subst y. contradiction.
Qed.

End OrderFacts.

Module TableFactsOfCustomers.
Import Text TextFacts OrderFacts.

Lemma parts_by_code_keys (parts : parts_list) (acc : list (str * str)) :
  NoDup (map fst acc) -> NoDup (map fst (parts_by_code parts acc)).
Proof.
  revert acc; induction parts as [|[|c n] parts IH]; intros acc H; simpl; auto.
  destruct (posted c) as [|x pc] eqn:E; [auto|].
  destruct (mem (x :: pc) (map fst acc)) eqn:M; simpl; [auto|].
  apply IH. rewrite map_app. simpl.
  apply mem_false in M. clear - H M. induction H as [|y l Hy H IH']; simpl.
  - constructor; [intros [] | constructor].
  - constructor.
    + rewrite in_app_iff. simpl. intros [I|[I|[]]]; [now apply Hy|].
      apply M. now left.
    + apply IH'. intros I. apply M. now right.
Qed.

Lemma parts_by_code_In (parts : parts_list) (acc : list (str * str)) (pc : str) :
  In pc (map fst (parts_by_code parts acc)) <->
  In pc (map fst acc) \/
  (pc <> [] /\ exists c n, In (PartDict c n) parts /\ posted c = pc).
Proof.
  revert acc; induction parts as [|[|c n] parts IH]; intros acc; simpl.
  - split; [auto|]. intros [H|(_ & c & n & [] & _)]. exact H.
  - rewrite IH. split; (intros [H|(Hne & c & n & Hin & E)]; [now left|]); right;
      (split; [exact Hne|]); exists c, n; (split; [|exact E]).
    + now right.
    + destruct Hin as [Hin|Hin]; [discriminate | exact Hin].
  - assert (R : forall acc',
               (In pc (map fst acc') <-> In pc (map fst acc) \/ (posted c = pc /\ pc <> [])) ->
               (In pc (map fst (parts_by_code parts acc')) <->
                In pc (map fst acc) \/
                (pc <> [] /\ exists c0 n0,
                    (PartDict c n = PartDict c0 n0 \/ In (PartDict c0 n0) parts) /\
                    posted c0 = pc))).
    { intros acc' Hacc. rewrite IH, Hacc. split.
      - intros [[H|[E Hne]]|(Hne & c0 & n0 & Hin & E)]; [now left| |].
        + right. split; [exact Hne|]. exists c, n. auto.
        + right. split; [exact Hne|]. exists c0, n0. auto.
      - intros [H|(Hne & c0 & n0 & [Hin|Hin] & E)]; [now left; left| |].
        + injection Hin as <- <-. left. right. auto.
        + right. split; [exact Hne|]. exists c0, n0. auto. }
    destruct (posted c) as [|x p] eqn:E.
    + apply R. split; [now left|]. intros [H|[<- H]]; [exact H | contradiction].
    + destruct (mem (x :: p) (map fst acc)) eqn:M; simpl.
      * apply R. split; [now left|]. intros [H|[<- _]]; [exact H|]. now apply mem_In.
      * apply R. rewrite map_app, in_app_iff. simpl. split.
        -- intros [H|[<-|[]]]; [now left|]. right. split; [reflexivity | discriminate].
        -- intros [H|[<- _]]; auto.
Qed.

Lemma parts_by_code_extends (parts : parts_list) (acc : list (str * str)) :
  exists added, parts_by_code parts acc = acc ++ added.
Proof.
  revert acc; induction parts as [|[|c n] parts IH]; intros acc; simpl.
  - exists []. now rewrite app_nil_r.
  - apply IH.
  - destruct (posted c) as [|x p]; [apply IH|].
    destruct (negb (mem (x :: p) (map fst acc))); [|apply IH].
    destruct (IH (acc ++ [(x :: p, posted n)])) as (added & E).
    exists ([(x :: p, posted n)] ++ added). rewrite app_assoc. exact E.
Qed.

Lemma get_app_absent {V : Type} (key : str) (a b : list (str * V)) :
  ~ In key (map fst a) -> get key (a ++ b) = get key b.
Proof.
  unfold get. induction a as [|[k v] a IH]; simpl; [reflexivity|].
  intros H. destruct (eqb k key) eqn:E.
  - apply eqb_eq in E. exfalso. apply H. now left.
  - apply IH. intros I. apply H. now right.
Qed.

(** The first entry of a part code gives the name. *)
Lemma parts_by_code_first (before after : parts_list) (c n : option str)
  (acc : list (str * str)) :
  posted c <> [] ->
  (forall c' n', In (PartDict c' n') before -> posted c' <> posted c) ->
  ~ In (posted c) (map fst acc) ->
  get (posted c) (parts_by_code (before ++ PartDict c n :: after) acc) = Some (posted n).
Proof.
  intros Hne. revert acc; induction before as [|[|c' n'] before IH]; intros acc Hb Hacc.
  - simpl. destruct (posted c) as [|x p] eqn:E; [contradiction|].
    apply mem_false in Hacc. rewrite Hacc. cbn [negb].
    destruct (parts_by_code_extends after (acc ++ [(x :: p, posted n)])) as (added & E').
    change (parts_by_code after (acc ++ [(x :: p, posted n)]) = (acc ++ [(x :: p, posted n)]) ++ added) in E'.
    etransitivity; [exact (f_equal (get (x :: p)) E')|].
    rewrite <- app_assoc, get_app_absent by (now apply mem_false).
    unfold get. cbn [List.app find fst]. now rewrite eqb_refl.
  - simpl. apply IH; [|exact Hacc]. intros c1 n1 H. apply (Hb c1 n1). now right.
  - simpl.
    assert (Hb' : forall c1 n1, In (PartDict c1 n1) before -> posted c1 <> posted c)
      by (intros c1 n1 H; apply (Hb c1 n1); now right).
    assert (N : posted c' <> posted c) by (apply (Hb c' n'); now left).
    destruct (posted c') as [|x p]; [now apply IH|].
    destruct (negb (mem (x :: p) (map fst acc))); [|now apply IH].
    apply IH; [exact Hb'|]. rewrite map_app, in_app_iff. simpl.
    intros [H|[H|[]]]; [now apply Hacc | now apply N].
Qed.

Lemma get_map_key {V : Type} (f : str -> V) (key : str) (l : list str) :
  In key l -> get key (map (fun k => (k, f k)) l) = Some (f key).
Proof.
  unfold get. induction l as [|k l IH]; simpl; [contradiction|].
  destruct (eqb k key) eqn:E.
  - apply eqb_eq in E. now subst k.
  - intros [H|H]; [subst k; now rewrite eqb_refl in E | now apply IH].
Qed.

Lemma hd_least (l : list str) (pc : str) :
  StronglySorted (fun a b => str_ltb a b = true) l ->
  In pc l -> pc = hd [] l \/ str_ltb (hd [] l) pc = true.
Proof.
  intros S H. destruct S as [|x l S F]; [contradiction|]. simpl.
  destruct H as [<-|H]; [now left|]. right. rewrite Forall_forall in F. now apply F.
Qed.

Lemma options_of (parts : parts_list) :
  let options := sorted (fun pc : str => pc) (map fst (parts_by_code parts [])) in
  StronglySorted (fun a b => str_ltb a b = true) options /\
  forall pc, In pc options <-> In pc (map fst (parts_by_code parts [])).
Proof.
  intros options. split.
  - apply sorted_strict.
    + apply (Permutation_NoDup (Permutation_sym (sorted_perm _ _))).
      apply parts_by_code_keys. constructor.
    + apply (sorted_sorted (fun pc : str => pc)).
  - intros pc. split; apply Permutation_in;
      [apply sorted_perm | apply Permutation_sym, sorted_perm].
Qed.

End TableFactsOfCustomers.

(** X19. In the entry that [build_customer_table] makes for a customer,
    the part code options are in strictly ascending order; they are the
    stripped part codes, other than blank ones, of the dict entries of the
    parts list; the default part code is the least of them; the part code
    map has an entry for each; and the part name of a part code is the
    stripped name of the first entry of the parts list that has the
    code. *)
Theorem customer_part_code_options
  (name : str) (parts : parts_list) (teps : list Tep.row) (materials : table) (pc : str) :
  let c := customer_entry name parts teps materials in
  StronglySorted (fun a b => str_ltb a b = true) (CustomerTable.part_code_options c) /\
  (In pc (CustomerTable.part_code_options c) <->
   pc <> [] /\ exists code pname, In (PartDict code pname) parts /\ posted code = pc) /\
  (In pc (CustomerTable.part_code_options c) ->
   pc = CustomerTable.default_part_code c \/
   str_ltb (CustomerTable.default_part_code c) pc = true) /\
  map fst (CustomerTable.part_code_map c) = CustomerTable.part_code_options c /\
  (forall before code pname after,
      parts = before ++ PartDict code pname :: after ->
      posted code = pc -> pc <> [] ->
      (forall code' pname', In (PartDict code' pname') before -> posted code' <> pc) ->
      exists info, get pc (CustomerTable.part_code_map c) = Some info /\
                   CustomerTable.Part.part_name info = posted pname).
Proof.
  intros c. unfold c, customer_entry. cbn [CustomerTable.part_code_options
    CustomerTable.default_part_code CustomerTable.part_code_map].
  destruct (TableFactsOfCustomers.options_of parts) as [S I]. cbv zeta in S, I.
  assert (M : forall q, In q (sorted (fun pc : str => pc) (map fst (parts_by_code parts [])))
                        <-> q <> [] /\ exists code pname,
                              In (PartDict code pname) parts /\ posted code = q).
  { intros q. rewrite I, TableFactsOfCustomers.parts_by_code_In. simpl. tauto. }
  split; [exact S|]. split; [apply M|]. split; [now apply TableFactsOfCustomers.hd_least|].
  split.
  - rewrite map_map. simpl. apply map_id.
  - intros before code pname after -> E Hne Hb. subst pc.
    eexists. split.
    + apply TableFactsOfCustomers.get_map_key. apply M. split; [exact Hne|].
      exists code, pname. split; [|reflexivity]. apply in_app_iff. right. now left.
    + unfold part_info. cbn [CustomerTable.Part.part_name].
      rewrite TableFactsOfCustomers.parts_by_code_first; auto.
Qed.

(** X20. For every part code of the part code map of a customer, the
    TEP entries are in ascending order of their TEP code; they stand for
    the TEP codes of the customer that have the part code, each once; each
    counts the materials of its TEP code; and the default TEP is the first
    entry, so that no entry has a smaller TEP code. *)
Theorem customer_tep_options
  (name : str) (parts : parts_list) (teps : list Tep.row) (materials : table)
  (pc : str) (info : CustomerTable.Part.t) :
  In (pc, info) (CustomerTable.part_code_map (customer_entry name parts teps materials)) ->
  StronglySorted
    (fun a b => str_ltb (CustomerTable.tep_code b) (CustomerTable.tep_code a) = false)
    (CustomerTable.Part.teps info) /\
  Permutation (map CustomerTable.tep_id (CustomerTable.Part.teps info))
              (map Tep.id (filter (fun t => Text.eqb (Tep.part_code t) pc) teps)) /\
  Forall (fun e => CustomerTable.materials_count e
                   = length (filter (in_tep (CustomerTable.tep_id e)) materials))
         (CustomerTable.Part.teps info) /\
  CustomerTable.Part.default_tep_id info
  = option_map CustomerTable.tep_id (hd_error (CustomerTable.Part.teps info)) /\
  (forall e, In e (CustomerTable.Part.teps info) ->
             str_ltb (CustomerTable.tep_code e) (CustomerTable.Part.default_tep_code info)
             = false).
Proof.
  unfold customer_entry. cbn [CustomerTable.part_code_map]. intros H.
  apply in_map_iff in H. destruct H as (pc' & E & _). injection E as -> <-.
  unfold part_info. cbn [CustomerTable.Part.teps CustomerTable.Part.default_tep_id
                         CustomerTable.Part.default_tep_code].
  unfold tep_entries.
  set (rows := sorted Tep.tep_code (filter (fun t => Text.eqb (Tep.part_code t) pc) teps)).
  set (entry := fun t => {| CustomerTable.tep_id := Tep.id t;
                            CustomerTable.tep_code := Tep.tep_code t;
                            CustomerTable.materials_count :=
                              length (filter (in_tep (Tep.id t)) materials) |}).
  assert (S : StronglySorted
                (fun a b => str_ltb (CustomerTable.tep_code b) (CustomerTable.tep_code a) = false)
                (map entry rows)).
  { pose proof (OrderFacts.sorted_sorted Tep.tep_code
                  (filter (fun t => Text.eqb (Tep.part_code t) pc) teps)) as R.
    fold rows in R. induction R as [|t l R IH F]; simpl; [constructor|].
    constructor; [exact IH|]. apply Forall_forall. intros e He.
    apply in_map_iff in He. destruct He as (t' & <- & Ht').
    rewrite Forall_forall in F. now apply F. }
  split; [exact S|]. split; [|split; [|split]].
  - rewrite map_map. cbn [entry CustomerTable.tep_id].
    apply Permutation_map. apply OrderFacts.sorted_perm.
  - apply Forall_forall. intros e He. apply in_map_iff in He.
    destruct He as (t & <- & _). reflexivity.
  - reflexivity.
  - intros e He. destruct (map entry rows) as [|d l]; [contradiction|]. simpl.
    destruct He as [<-|He]; [apply OrderFacts.ltb_irrefl|].
    inversion S as [|? ? _ F]; subst. rewrite Forall_forall in F. now apply F.
Qed.

Lemma customer_tep_options_witness :
  let teps := [ {| Tep.id := 3; Tep.customer_name := "C"; Tep.part_code := "B";
                   Tep.tep_code := "T2" |};
                {| Tep.id := 4; Tep.customer_name := "C"; Tep.part_code := "B";
                   Tep.tep_code := "T1" |};
                {| Tep.id := 5; Tep.customer_name := "C"; Tep.part_code := "A";
                   Tep.tep_code := "T1" |} ] in
  let info := part_info [("B" : str, "Beta" : str)] teps [] "B" in
  map CustomerTable.tep_id (CustomerTable.Part.teps info) = [4%N; 3%N] /\
  Permutation (map CustomerTable.tep_id (CustomerTable.Part.teps info))
              (map Tep.id (filter (fun t => Text.eqb (Tep.part_code t) "B") teps)) /\
  CustomerTable.Part.default_tep_id info = Some 4%N.
Proof.
  intros teps info.
  destruct (customer_tep_options "C" [PartDict (Some (" B " : str)) (Some ("Beta" : str))]
              teps [] "B" info) as (_ & P & _ & D & _).
  - vm_compute. now left.
  - split; [reflexivity|]. split; [exact P|]. reflexivity.
Defined.

(** X21. [build_customer_table] lists a customer of the query exactly
    when the customer has a TEP code, or a dict part whose stripped part
    code is not blank: a customer with neither is left out of the
    table. *)
Theorem customer_table_lists
  (qs : list (str * parts_list * list Tep.row)) (materials : table) (name : str) :
  In name (map CustomerTable.customer_name (build_customer_table qs materials)) <->
  exists parts teps,
    In (name, parts, teps) qs /\
    (teps <> [] \/
     exists code pname, In (PartDict code pname) parts /\ posted code <> []).
Proof.
  assert (G : forall parts teps,
             grouped parts teps = true <->
             (teps <> [] \/
              exists code pname, In (PartDict code pname) parts /\ posted code <> [])).
  { intros parts teps. unfold grouped.
    pose proof (TableFactsOfCustomers.parts_by_code_In parts []) as I.
    destruct (parts_by_code parts []) as [|[k v] l] eqn:E.
    - destruct teps as [|t teps].
      + split; [discriminate|]. intros [H|(code & pname & Hin & Hne)]; [contradiction|].
        exfalso. apply (proj2 (I (posted code))). right. split; [exact Hne|]. eauto.
      + split; [|reflexivity]. intros _. left. discriminate.
    - split; [|reflexivity]. intros _. right.
      destruct (proj1 (I k)) as [[]|(Hne & c & n & Hin & Ec)]; [now left|].
      exists c, n. split; [exact Hin|]. now rewrite Ec. }
  unfold build_customer_table. rewrite in_map_iff. split.
  - intros (c & <- & Hc). apply in_flat_map in Hc.
    destruct Hc as ([[n parts] teps] & Hq & Hc).
    destruct (grouped parts teps) eqn:Gq; [|contradiction].
    destruct Hc as [<-|[]]. exists parts, teps. split; [exact Hq|]. now apply G.
  - intros (parts & teps & Hq & H). exists (customer_entry name parts teps materials).
    split; [reflexivity|]. apply in_flat_map. exists (name, parts, teps).
    split; [exact Hq|]. apply G in H. rewrite H. now left.
Qed.

(** ** The master rows of a CSV file *)

Module CsvFacts.
Import Text TextFacts PartsFacts MasterFacts.

Lemma eqb_sym_str (a b : str) : eqb a b = eqb b a.
Proof.
  destruct (eqb a b) eqn:E.
  - apply eqb_eq in E. subst b. symmetry. apply eqb_refl.
  - apply eqb_neq in E. symmetry. apply eqb_neq. congruence.
Qed.

Lemma set_if_new_fst (value current : str) (changed : bool) :
  fst (set_if_new value current changed) = str_or value current.
Proof.
  unfold set_if_new. destruct value as [|c v]; [reflexivity|].
  destruct (eqb current (c :: v)) eqn:E; cbn [negb fst str_or]; [|reflexivity].
  now apply eqb_eq in E.
Qed.

Lemma set_if_new_unchanged (value current : str) (changed : bool) :
  snd (set_if_new value current changed) = false ->
  changed = false /\ str_or value current = current.
Proof.
  rewrite <- (set_if_new_fst value current changed).
  destruct (set_if_new_same value current changed) as [->|[_ ->]]; [auto | discriminate].
Qed.

Lemma by_partcode_save_other (c : str) (obj : MaterialList.row) (db : MaterialList.table) :
  c <> MaterialList.mat_partcode obj ->
  MaterialList.by_partcode c (MaterialList.save obj db) = MaterialList.by_partcode c db.
Proof.
  intros H. unfold MaterialList.by_partcode, MaterialList.save.
  induction db as [|r db IH]; [reflexivity|]. cbn [map find].
  destruct (eqb (MaterialList.mat_partcode r) (MaterialList.mat_partcode obj)) eqn:E.
  - apply eqb_eq in E.
    replace (eqb (MaterialList.mat_partcode obj) c) with false
      by (symmetry; apply eqb_neq; congruence).
    replace (eqb (MaterialList.mat_partcode r) c) with false
      by (symmetry; apply eqb_neq; congruence).
    exact IH.
  - destruct (eqb (MaterialList.mat_partcode r) c); [reflexivity | exact IH].
Qed.

Lemma row_eta (r : MaterialList.row) :
  {| MaterialList.mat_partcode := MaterialList.mat_partcode r;
     MaterialList.mat_partname := MaterialList.mat_partname r;
     MaterialList.mat_maker := MaterialList.mat_maker r;
     MaterialList.unit := MaterialList.unit r |} = r.
Proof. now destruct r. Qed.

(** The table that [settle] leaves, read through the row of each part
    code. *)
Lemma settle_view (db : MaterialList.table) (code name maker u c : str) :
  MaterialList.by_partcode c (snd (settle db code name maker u))
  = if eqb c code then Some (merged code name maker u (MaterialList.by_partcode code db))
    else MaterialList.by_partcode c db.
Proof.
  unfold settle. destruct (MaterialList.by_partcode code db) as [obj|] eqn:F.
  - pose proof (by_partcode_found code obj db F) as Eobj.
    pose proof (set_if_new_fst name (MaterialList.mat_partname obj) false) as N.
    pose proof (set_if_new_unchanged name (MaterialList.mat_partname obj) false) as N'.
    destruct (set_if_new name (MaterialList.mat_partname obj) false) as [name' c1].
    pose proof (set_if_new_fst maker (MaterialList.mat_maker obj) c1) as M.
    pose proof (set_if_new_unchanged maker (MaterialList.mat_maker obj) c1) as M'.
    destruct (set_if_new maker (MaterialList.mat_maker obj) c1) as [maker' c2].
    pose proof (set_if_new_fst u (MaterialList.unit obj) c2) as U.
    pose proof (set_if_new_unchanged u (MaterialList.unit obj) c2) as U'.
    destruct (set_if_new u (MaterialList.unit obj) c2) as [unit' c3].
    cbn [fst snd] in *. subst name' maker' unit'. cbn [merged].
    destruct c3; cbn [snd].
    + destruct (eqb c code) eqn:E.
      * apply eqb_eq in E. subst c. now apply (by_partcode_save code obj).
      * apply by_partcode_save_other. cbn [MaterialList.mat_partcode].
        apply eqb_neq in E. congruence.
    + destruct (U' eq_refl) as [-> Hu]. destruct (M' eq_refl) as [-> Hm].
      destruct (N' eq_refl) as [_ Hn]. rewrite Hu, Hm, Hn, row_eta.
      destruct (eqb c code) eqn:E; [|reflexivity].
      apply eqb_eq in E. now subst c.
  - cbn [snd merged]. unfold MaterialList.by_partcode in *. rewrite find_app.
    cbn [find MaterialList.mat_partcode]. rewrite (eqb_sym_str code c).
    destruct (eqb c code) eqn:E.
    + apply eqb_eq in E. subst c. now rewrite F.
    + now destruct (find (fun r => eqb (MaterialList.mat_partcode r) c) db).
Qed.

Lemma settle_codes (db : MaterialList.table) (code name maker u : str) :
  map MaterialList.mat_partcode (snd (settle db code name maker u))
  = map MaterialList.mat_partcode db
    ++ match MaterialList.by_partcode code db with None => [code] | Some _ => [] end.
Proof.
  unfold settle. destruct (MaterialList.by_partcode code db) as [obj|].
  - destruct (set_if_new name _ false) as [name' c1].
    destruct (set_if_new maker _ c1) as [maker' c2].
    destruct (set_if_new u _ c2) as [unit' c3].
    rewrite app_nil_r. destruct c3; cbn [snd]; [apply save_partcodes | reflexivity].
  - cbn [snd]. now rewrite map_app.
Qed.

(** Two tables with the same part codes, pairwise distinct, and the same
    row for every part code are equal. *)
Lemma table_ext (a b : MaterialList.table) :
  NoDup (map MaterialList.mat_partcode a) ->
  map MaterialList.mat_partcode a = map MaterialList.mat_partcode b ->
  (forall c, MaterialList.by_partcode c a = MaterialList.by_partcode c b) ->
  a = b.
Proof.
  revert b; induction a as [|r a IH]; intros [|s b] N C V; try discriminate; [reflexivity|].
  cbn [map] in N, C. injection C as C0 C. inversion N as [|? ? Hr N']; subst.
  pose proof (V (MaterialList.mat_partcode r)) as V0.
  unfold MaterialList.by_partcode in V0. cbn [find] in V0.
  rewrite <- C0, eqb_refl in V0. injection V0 as <-.
  f_equal. apply IH; [exact N' | exact C|].
  intros c. specialize (V c). unfold MaterialList.by_partcode in V |- *. cbn [find] in V.
  destruct (eqb (MaterialList.mat_partcode r) c) eqn:E; [|exact V].
  apply eqb_eq in E. subst c.
  assert (A : forall l, ~ In (MaterialList.mat_partcode r) (map MaterialList.mat_partcode l) ->
                        find (fun x => eqb (MaterialList.mat_partcode x)
                                           (MaterialList.mat_partcode r)) l = None).
  { intros l H. destruct (find _ l) as [x|] eqn:Fx; [|reflexivity].
    apply find_some in Fx. destruct Fx as [Hx Ex]. apply eqb_eq in Ex.
    exfalso. apply H. rewrite <- Ex. now apply in_map. }
  rewrite (A a Hr). symmetry. apply A. now rewrite <- C.
Qed.

(** *** The requests of a file *)

Lemma settled_view (db : MaterialList.table) (q : str * str * str * str) (c : str) :
  MaterialList.by_partcode c (settled db q) = on_code c (MaterialList.by_partcode c db) q.
Proof.
  destruct q as [[[code name] maker] u]. unfold settled, on_code.
  destruct code as [|x code]; [reflexivity|]. rewrite settle_view.
  destruct (eqb c (x :: code)) eqn:E; [|reflexivity].
  apply eqb_eq in E. now subst c.
Qed.

Lemma run_view (qs : list (str * str * str * str)) (db : MaterialList.table) (c : str) :
  MaterialList.by_partcode c (fold_left settled qs db)
  = fold_left (on_code c) qs (MaterialList.by_partcode c db).
Proof.
  revert db; induction qs as [|q qs IH]; intros db; [reflexivity|].
  cbn [fold_left]. now rewrite IH, settled_view.
Qed.

Lemma settled_codes_present (db : MaterialList.table) (q : str * str * str * str) :
  present db q ->
  map MaterialList.mat_partcode (settled db q) = map MaterialList.mat_partcode db.
Proof.
  destruct q as [[[code name] maker] u]. unfold present, settled. cbn [fst].
  destruct code as [|x code]; [reflexivity|]. intros [H|H]; [discriminate|].
  rewrite settle_codes. destruct (MaterialList.by_partcode (x :: code) db);
    [apply app_nil_r | contradiction].
Qed.

Lemma settled_keeps (db : MaterialList.table) (q : str * str * str * str) (c : str) :
  MaterialList.by_partcode c db <> None ->
  MaterialList.by_partcode c (settled db q) <> None.
Proof.
  intros H. rewrite settled_view. destruct q as [[[code name] maker] u]. unfold on_code.
  destruct code as [|x code]; [exact H|].
  destruct (eqb c (x :: code)); [discriminate | exact H].
Qed.

Lemma settled_has (db : MaterialList.table) (q : str * str * str * str) :
  present (settled db q) q.
Proof.
  unfold present. destruct q as [[[code name] maker] u]. cbn [fst].
  destruct code as [|x code]; [now left|]. right.
  rewrite settled_view. unfold on_code. now rewrite eqb_refl.
Qed.

Lemma settled_nodup (db : MaterialList.table) (q : str * str * str * str) :
  NoDup (map MaterialList.mat_partcode db) ->
  NoDup (map MaterialList.mat_partcode (settled db q)).
Proof.
  intros H. destruct q as [[[code name] maker] u]. unfold settled.
  destruct code as [|x code]; [exact H|]. rewrite settle_codes.
  destruct (MaterialList.by_partcode (x :: code) db) eqn:F; [now rewrite app_nil_r|].
  apply NoDup_app_last; [exact H | now apply by_partcode_absent].
Qed.

Lemma run_nodup (qs : list (str * str * str * str)) (db : MaterialList.table) :
  NoDup (map MaterialList.mat_partcode db) ->
  NoDup (map MaterialList.mat_partcode (fold_left settled qs db)).
Proof.
  revert db; induction qs as [|q qs IH]; intros db H; [exact H|].
  cbn [fold_left]. now apply IH, settled_nodup.
Qed.

Lemma present_keeps (db : MaterialList.table) (q q' : str * str * str * str) :
  present db q -> present (settled db q') q.
Proof.
  unfold present. intros [H|H]; [now left|]. right. now apply settled_keeps.
Qed.

Lemma run_codes_present (qs : list (str * str * str * str)) (db : MaterialList.table) :
  Forall (present db) qs ->
  map MaterialList.mat_partcode (fold_left settled qs db) = map MaterialList.mat_partcode db.
Proof.
  revert db; induction qs as [|q qs IH]; intros db H; [reflexivity|].
  inversion H as [|? ? Hq Hqs]; subst. cbn [fold_left].
  rewrite IH, settled_codes_present; [reflexivity | exact Hq|].
  apply Forall_forall. intros q' Hq'. apply present_keeps.
  rewrite Forall_forall in Hqs. now apply Hqs.
Qed.

Lemma run_present (qs : list (str * str * str * str)) (db : MaterialList.table) :
  Forall (present (fold_left settled qs db)) qs.
Proof.
  revert db; induction qs as [|q qs IH]; intros db; [constructor|].
  cbn [fold_left]. constructor; [|apply IH].
  pose proof (settled_has db q) as H. revert H. generalize (settled db q). clear IH.
  induction qs as [|q' qs IH']; intros d H; [exact H|].
  cbn [fold_left]. apply IH'. now apply present_keeps.
Qed.

(** *** The requests on one part code *)

Lemma kept_or_fixed_twice (g : str -> str) (x : str) :
  kept_or_fixed g -> g (g x) = g x.
Proof. intros [H|(k & H)]; [now rewrite !H | now rewrite (H (g x)), (H x)]. Qed.

Lemma kept_or_fixed_compose (f g : str -> str) :
  kept_or_fixed f -> kept_or_fixed g -> kept_or_fixed (fun x => f (g x)).
Proof.
  intros [F|(k & F)] [G|(j & G)].
  - left. intros x. now rewrite F, G.
  - right. exists j. intros x. now rewrite F, G.
  - right. exists k. intros x. now rewrite F.
  - right. exists k. intros x. now rewrite F.
Qed.

Lemma kept_or_fixed_str_or (value : str) : kept_or_fixed (str_or value).
Proof.
  destruct value as [|c v]; [left | right; exists (c :: v)]; intros x; reflexivity.
Qed.

Lemma fieldwise_twice (f : MaterialList.row -> MaterialList.row) (r : MaterialList.row) :
  fieldwise f -> f (f r) = f r.
Proof.
  intros (gn & gm & gu & Kn & Km & Ku & H). rewrite (H (f r)), (H r).
  cbn [MaterialList.mat_partcode MaterialList.mat_partname MaterialList.mat_maker
       MaterialList.unit].
  now rewrite !kept_or_fixed_twice.
Qed.

Lemma on_code_idle (c code name maker u : str) (s : option MaterialList.row) :
  code = [] \/ eqb c code = false -> on_code c s (code, name, maker, u) = s.
Proof.
  unfold on_code. intros [->|H]; [reflexivity|]. rewrite H. now destruct code.
Qed.

Lemma on_code_active (c code name maker u : str) (s : option MaterialList.row) :
  code <> [] -> eqb c code = true ->
  on_code c s (code, name, maker, u) = Some (merged code name maker u s).
Proof.
  unfold on_code. intros H E. rewrite E. destruct code; [contradiction | reflexivity].
Qed.

Lemma on_code_some (c : str) (qs : list (str * str * str * str)) :
  exists f, fieldwise f /\
            forall r, fold_left (on_code c) qs (Some r) = Some (f r).
Proof.
  induction qs as [|q qs (f & (gn & gm & gu & Kn & Km & Ku & H) & IH)].
  - exists (fun r => r). split; [|reflexivity].
    exists (fun x => x), (fun x => x), (fun x => x).
    repeat split; try (left; reflexivity). intros r. symmetry. apply row_eta.
  - destruct q as [[[code name] maker] u]. cbn [fold_left].
    assert (Same : code = [] \/ eqb c code = false ->
                   exists f0, fieldwise f0 /\
                     forall r, fold_left (on_code c) qs
                                 (on_code c (Some r) (code, name, maker, u)) = Some (f0 r)).
    { intros I. exists f. split; [exists gn, gm, gu; auto|].
      intros r. rewrite on_code_idle by exact I. apply IH. }
    destruct code as [|x code]; [apply Same; now left|].
    destruct (eqb c (x :: code)) eqn:E; [|apply Same; now right].
    exists (fun r => f (merged (x :: code) name maker u (Some r))). split.
    + exists (fun y => gn (str_or name y)), (fun y => gm (str_or maker y)),
        (fun y => gu (str_or u y)).
      repeat split; try (apply kept_or_fixed_compose; [assumption|];
                         apply kept_or_fixed_str_or).
      intros r. now rewrite H.
    + intros r. rewrite on_code_active by (discriminate || assumption). apply IH.
Qed.

(** From no row, the requests leave no row, or what they leave from a
    blank row of the part code. *)
Lemma on_code_none (c : str) (qs : list (str * str * str * str)) :
  fold_left (on_code c) qs None = None \/
  exists blank, fold_left (on_code c) qs None = fold_left (on_code c) qs (Some blank).
Proof.
  induction qs as [|q qs IH]; [now left|].
  destruct q as [[[code name] maker] u]. cbn [fold_left].
  destruct code as [|x code].
  - destruct IH as [IH|(blank & IH)]; [left | right; exists blank];
      now rewrite !on_code_idle by now left.
  - destruct (eqb c (x :: code)) eqn:E.
    + right.
      exists {| MaterialList.mat_partcode := x :: code;
                MaterialList.mat_partname := x :: code;
                MaterialList.mat_maker := "Unknown";
                MaterialList.unit := [] |}.
      rewrite !on_code_active by (discriminate || assumption).
      cbn [merged MaterialList.mat_partcode MaterialList.mat_partname
           MaterialList.mat_maker MaterialList.unit].
      replace (str_or u []) with u by now destruct u. reflexivity.
    + destruct IH as [IH|(blank & IH)]; [left | right; exists blank];
        now rewrite !on_code_idle by now right.
Qed.

Lemma on_code_twice (c : str) (qs : list (str * str * str * str))
  (s : option MaterialList.row) :
  fold_left (on_code c) qs (fold_left (on_code c) qs s) = fold_left (on_code c) qs s.
Proof.
  destruct (on_code_some c qs) as (f & Ff & H).
  destruct s as [r|].
  - now rewrite !H, fieldwise_twice.
  - destruct (on_code_none c qs) as [E|(blank & E)]; [now rewrite !E|].
    now rewrite E, !H, fieldwise_twice.
Qed.

(** *** The loop and its counters *)

Lemma master_row_settled (db : MaterialList.table) (i u : N) (row : csv_row) :
  fst (fst (master_row (db, i, u) row)) = settled db (request_of row).
Proof.
  unfold master_row, settled, request_of, settle.
  destruct (sget row _ []) as [|x code]; [reflexivity|].
  destruct (MaterialList.by_partcode (x :: code) db) as [obj|]; [|reflexivity].
  destruct (set_if_new _ (MaterialList.mat_partname obj) false) as [name' c1].
  destruct (set_if_new _ (MaterialList.mat_maker obj) c1) as [maker' c2].
  destruct (set_if_new _ (MaterialList.unit obj) c2) as [unit' c3].
  now destruct c3.
Qed.

Lemma master_row_counts (db : MaterialList.table) (i u : N) (row : csv_row) :
  let '(_, i', u') := master_row (db, i, u) row in
  (i + u <= i' + u' <= i + u + 1)%N /\ (i <= i')%N /\
  (present db (request_of row) -> i' = i).
Proof.
  unfold master_row, present, request_of. cbn [fst].
  destruct (sget row _ []) as [|x code]; [repeat split; lia|].
  destruct (MaterialList.by_partcode (x :: code) db) as [obj|].
  - destruct (set_if_new _ (MaterialList.mat_partname obj) false) as [name' c1].
    destruct (set_if_new _ (MaterialList.mat_maker obj) c1) as [maker' c2].
    destruct (set_if_new _ (MaterialList.unit obj) c2) as [unit' c3].
    destruct c3; repeat split; lia.
  - repeat split; try lia. intros [H|H]; [discriminate | contradiction].
Qed.

Lemma loop_settled (rows : list csv_row) (db : MaterialList.table) (i u : N) :
  exists i' u',
    fold_left master_row rows (db, i, u)
    = (fold_left settled (map request_of rows) db, i', u') /\
    (i + u <= i' + u' <= i + u + N.of_nat (length rows))%N /\
    (Forall (present db) (map request_of rows) -> i' = i).
Proof.
  revert db i u; induction rows as [|row rows IH]; intros db i u.
  - exists i, u. cbn. repeat split; lia.
  - cbn [fold_left map length].
    pose proof (master_row_settled db i u row) as S.
    pose proof (master_row_counts db i u row) as C.
    destruct (master_row (db, i, u) row) as [[db1 i1] u1]. cbn [fst] in S. subst db1.
    destruct C as (C1 & C2 & C3).
    destruct (IH (settled db (request_of row)) i1 u1) as (i' & u' & E & L & P).
    exists i', u'. split; [exact E|]. split; [lia|].
    intros H. inversion H as [|? ? Hq Hqs]; subst.
    rewrite P, C3; [reflexivity | exact Hq|].
    apply Forall_forall. intros q Hq'. apply present_keeps.
    rewrite Forall_forall in Hqs. now apply Hqs.
Qed.

End CsvFacts.

(** X22. The loop of [admin_csv_upload] over the rows of a file keeps the
    part codes of the master list pairwise distinct and counts at most one
    insertion or update for each row.  Uploading the same file a second
    time inserts nothing and leaves the master list exactly as the first
    upload left it. *)
Theorem csv_upload_twice (db : MaterialList.table) (rows : list csv_row) :
  NoDup (map MaterialList.mat_partcode db) ->
  exists db1 inserted updated updated_again,
    admin_csv_upload_rows db rows = (db1, inserted, updated) /\
    NoDup (map MaterialList.mat_partcode db1) /\
    (inserted + updated <= N.of_nat (length rows))%N /\
    admin_csv_upload_rows db1 rows = (db1, 0%N, updated_again).
Proof.
  intros Hd. unfold admin_csv_upload_rows.
  destruct (CsvFacts.loop_settled rows db 0 0) as (i1 & u1 & E1 & L1 & _).
  set (qs := map request_of rows) in *.
  set (db1 := fold_left settled qs db) in *.
  destruct (CsvFacts.loop_settled rows db1 0 0) as (i2 & u2 & E2 & _ & P2).
  fold qs in E2, P2.
  assert (Hp : Forall (present db1) qs) by apply CsvFacts.run_present.
  assert (N1 : NoDup (map MaterialList.mat_partcode db1)) by now apply CsvFacts.run_nodup.
  assert (Same : fold_left settled qs db1 = db1).
  { symmetry. apply CsvFacts.table_ext.
    - exact N1.
    - symmetry. now apply CsvFacts.run_codes_present.
    - intros c. unfold db1 at 2. rewrite !CsvFacts.run_view.
      unfold db1. rewrite CsvFacts.run_view. symmetry. apply CsvFacts.on_code_twice. }
  exists db1, i1, u1, u2. split; [exact E1|]. split; [exact N1|]. split; [lia|].
  rewrite E2, Same, (P2 Hp). reflexivity.
Qed.

Lemma csv_upload_twice_witness :
  let row code name unit :=
    [("mat_partcode" : str, Some code); ("mat_partname" : str, Some name);
     ("unit" : str, unit)] in
  let rows := [ row (" M-1 " : str) ("Tape" : str) (Some ("KG" : str));
                row ("" : str) ("nothing" : str) None;
                row ("M-2" : str) ("" : str) (Some ("box" : str));
                row ("M-1" : str) ("Tape B" : str) None ] in
  exists db1 inserted updated updated_again,
    admin_csv_upload_rows [] rows = (db1, inserted, updated) /\
    map MaterialList.mat_partname db1 = [ "Tape B" : str; "M-2" : str ] /\
    map MaterialList.unit db1 = [ "pc" : str; "pc" : str ] /\
    inserted = 2%N /\ updated = 1%N /\
    admin_csv_upload_rows db1 rows = (db1, 0%N, updated_again).
Proof.
  intros row rows.
  destruct (csv_upload_twice [] rows) as (db1 & i & u & u2 & E & _ & _ & A).
  - constructor.
  - exists db1, i, u, u2. vm_compute in E. injection E as <- <- <-.
    repeat (split; [reflexivity|]). exact A.
Defined.

(** ** The customer tree *)

Module TreeFacts.
Import Text TextFacts.

Lemma customer_parts_In (parts : parts_list) (teps : list Tep.row) (materials : table)
  (entry : str * str * list (str * list Material)) :
  In entry (customer_parts parts teps materials) <->
  exists c n,
    In (PartDict c n) parts /\ posted c <> [] /\
    entry = (posted c, posted n,
             map (fun tep => (Tep.tep_code tep, filter (in_tep (Tep.id tep)) materials))
                 (filter (fun t => eqb (Tep.part_code t) (posted c)) teps)).
Proof.
  unfold customer_parts. rewrite in_flat_map. split.
  - intros ([|c n] & Hp & He); [contradiction|].
    destruct (posted c) as [|x pc] eqn:E; [contradiction|].
    destruct He as [<-|[]]. exists c, n. rewrite E. split; [exact Hp|].
    split; [discriminate | reflexivity].
  - intros (c & n & Hp & Hne & ->). exists (PartDict c n). split; [exact Hp|].
    destruct (posted c) as [|x pc]; [contradiction | now left].
Qed.

End TreeFacts.

(** X23. [customers_tree] names every customer of the query, in the
    order of the query, also one that [build_customer_table] leaves out.
    The part codes it lists for a customer are those of the part code
    options of [build_customer_table]; and the TEP codes it lists under a
    part code are, up to their order, the TEP codes of the part code in
    the part code map. *)
Theorem customer_tree_and_table
  (qs : list (str * parts_list * list Tep.row)) (materials : table)
  (name : str) (parts : parts_list) (teps : list Tep.row) (pc : str) :
  map fst (customers_tree qs materials) = map (fun cust => fst (fst cust)) qs /\
  (In pc (map (fun entry => fst (fst entry)) (customer_parts parts teps materials)) <->
   In pc (CustomerTable.part_code_options (customer_entry name parts teps materials))) /\
  (forall partname tep_codes info,
      In (pc, partname, tep_codes) (customer_parts parts teps materials) ->
      get pc (CustomerTable.part_code_map (customer_entry name parts teps materials))
      = Some info ->
      Permutation (map fst tep_codes)
                  (map CustomerTable.tep_code (CustomerTable.Part.teps info))).
Proof.
  split; [|split].
  - unfold customers_tree. rewrite map_map. apply map_ext. now intros [[n p] t].
  - unfold customer_entry. cbn [CustomerTable.part_code_options].
    destruct (TableFactsOfCustomers.options_of parts) as [_ I]. cbv zeta in I.
    rewrite I, TableFactsOfCustomers.parts_by_code_In, in_map_iff. simpl. split.
    + intros (entry & <- & He). apply TreeFacts.customer_parts_In in He.
      destruct He as (c & n & Hp & Hne & ->). right. cbn [fst]. eauto.
    + intros [[]|(Hne & c & n & Hp & <-)].
      eexists. split; [|apply TreeFacts.customer_parts_In; exists c, n; eauto].
      reflexivity.
  - intros partname tep_codes info He Hg.
    apply TreeFacts.customer_parts_In in He. destruct He as (c & n & Hp & Hne & E).
    injection E as -> _ ->.
    unfold customer_entry in Hg. cbn [CustomerTable.part_code_map] in Hg.
    rewrite TableFactsOfCustomers.get_map_key in Hg.
    + injection Hg as <-. unfold part_info, tep_entries. cbn [CustomerTable.Part.teps].
      rewrite !map_map. cbn [fst CustomerTable.tep_code].
      apply Permutation_map, Permutation_sym, OrderFacts.sorted_perm.
    + destruct (TableFactsOfCustomers.options_of parts) as [_ I]. cbv zeta in I.
      apply I, TableFactsOfCustomers.parts_by_code_In. right. eauto.
Qed.
